(** * A shallow embedding of [nfp_function.py]

    The nesting orchestrator ([Nester]), the genetic driver
    ([genetic_algorithm]) and [minkowski_difference], embedded as Rocq
    functions and verified against the natural-language specification.

    Conventions of the embedding.
    - Python numbers are exact rationals ([Qc], canonical fractions, so
      that Leibniz equality is numeric equality, as [==] is in Python).
    - Dicts with a fixed set of keys are records; the NFP cache, a dict
      used as a map, is a [gmap].
    - A method is a function in the monad [M S], which threads the state
      the method can touch and records the exception it raises; state
      changes made before an exception are kept, as in Python.
    - The modules the source imports ([pyclipper], [tools.nfp_utls],
      [tools.placement_worker], [settings], [random]) are interfaces
      (type classes); theorems hold for every implementation. *)

From Stdlib Require Import QArith Qcanon.
From Stdlib Require Qcabs.
From stdpp Require Import gmap strings list fin_maps numbers pretty sorting.

Open Scope Qc_scope.

(** ** Exceptions, outcomes and the state monad *)

Inductive exn : Set :=
| IndexError
| KeyError
| TypeError
| ValueError
| ZeroDivisionError
| UnboundLocalError.

(** [Diverge] is the outcome of a loop that was cut by its fuel; the
    loops of this program are shown never to produce it. *)
Inductive outcome (A : Type) : Type :=
| Ok (a : A)
| Raise (e : exn)
| Diverge.
Arguments Ok {A} a.
Arguments Raise {A} e.
Arguments Diverge {A}.

Global Instance exn_eq_dec : EqDecision exn.
Proof. solve_decision. Defined.
Global Instance outcome_eq_dec `{EqDecision A} : EqDecision (outcome A).
Proof. solve_decision. Defined.

Definition M (S A : Type) : Type := S → outcome A * S.

Definition ret {S A} (a : A) : M S A := λ s, (Ok a, s).

Definition bind {S A B} (m : M S A) (k : A → M S B) : M S B :=
  λ s, match m s with
       | (Ok a, s') => k a s'
       | (Raise e, s') => (Raise e, s')
       | (Diverge, s') => (Diverge, s')
       end.

Definition raise {S A} (e : exn) : M S A := λ s, (Raise e, s).
Definition diverge {S A} : M S A := λ s, (Diverge, s).
Definition get {S} : M S S := λ s, (Ok s, s).
Definition gets {S A} (f : S → A) : M S A := λ s, (Ok (f s), s).
Definition modify {S} (f : S → S) : M S unit := λ s, (Ok tt, f s).

Notation "x <- m ;; k" := (bind m (λ x, k))
  (at level 100, m at next level, right associativity,
   format "'[v' x  <-  m  ;;  '/' k ']'").
Notation "m ;;; k" := (bind m (λ _, k))
  (at level 100, right associativity,
   format "'[v' m  ;;;  '/' k ']'").

Definition is_ok {A} (o : outcome A) : bool :=
  match o with Ok _ => true | _ => false end.

(** A pure computation that may raise, run in any state. *)
Definition lift_outcome {S A} (o : outcome A) : M S A := λ s, (o, s).

(** [l[i]] of Python for a non-negative index. *)
Definition index {S A} (l : list A) (i : nat) : M S A :=
  match l !! i with
  | Some a => ret a
  | None => raise IndexError
  end.

(** [for a in l: body a] *)
Fixpoint for_each {S A} (l : list A) (body : A → M S unit) : M S unit :=
  match l with
  | [] => ret tt
  | a :: l' => body a ;;; for_each l' body
  end.

(** [[f a for a in l]] where [f] has effects. *)
Fixpoint map_M {S A B} (f : A → M S B) (l : list A) : M S (list B) :=
  match l with
  | [] => ret []
  | a :: l' => b <- f a ;; bs <- map_M f l' ;; ret (b :: bs)
  end.

(** Running a computation over a component [T] of the state [S]. *)
Definition zoom {S T A} (proj : S → T) (inj : T → S → S) (m : M T A) : M S A :=
  λ s, let '(o, t') := m (proj s) in (o, inj t' s).

(** ** Data model *)

(** A point dict [{'x': _, 'y': _}]. *)
Record point : Set := Point { px : Qc; py : Qc }.

(** A ring of point dicts. *)
Abbreviation ring := (list point).

(** A pyclipper path: a list of [[x, y]] pairs. *)
Abbreviation path := (list (Qc * Qc)).

Definition to_path (pts : ring) : path := (λ p, (px p, py p)) <$> pts.
Definition of_path (p : path) : ring := (λ c, Point c.1 c.2) <$> p.

(** A shape dict, as [add_objects] builds it. *)
Record shape : Set := Shape {
  area : Qc;
  p_id : string;
  points : ring;
}.

(** The container dict, as [add_container] fills it. *)
Record container_t : Set := Container {
  c_points : ring;
  c_p_id : string;
  c_width : Qc;
  c_height : Qc;
}.

(** The result of [nfp_utls.get_polygon_bounds]. *)
Record bounds : Set := Bounds {
  b_x : Qc; b_y : Qc; b_width : Qc; b_height : Qc;
}.

(** The result of [nfp_utls.rotate_polygon]:
    [{'points': _, 'width': _, 'height': _}]. *)
Record rotated : Set := Rotated {
  r_points : ring;
  r_width : Qc;
  r_height : Qc;
}.

(** A face [[str(i), shape]], the unit the genome orders. *)
Abbreviation face := (string * shape)%type.

(** A genome dict: ['placement'], ['rotation'] and, once evaluated,
    ['fitness']. *)
Record genome : Set := Genome {
  placement : list face;
  rotation : list Qc;
  fitness : option Qc;
}.

(** The NFP key dict; the source serialises it with [json.dumps] to index
    the cache, the embedding indexes the cache by the record. *)
Record nfp_key : Set := Key {
  k_A : string;
  k_B : string;
  k_inside : bool;
  k_A_rotation : Qc;
  k_B_rotation : Qc;
}.

(** An NFP value: a list of rings. *)
Abbreviation nfp_value := (list ring).

(** A pair handed to [process_nfp]; of the dicts ['A'] and ['B'] only the
    entry ['points'] is read. ['A'] is [None] when the nester has no
    container. *)
Record nfp_pair : Set := Pair {
  pair_A : option ring;
  pair_B : ring;
  pair_key : nfp_key;
}.

(** What [process_nfp] returns when it does not return [None]; for an
    inner pair the value is what [nfp_utls] returned, possibly [None]. *)
Record nfp_result : Set := NfpResult {
  res_key : nfp_key;
  res_value : option nfp_value;
}.

(** The config dict of the nester, shared with the genetic algorithm. *)
Record config : Set := Config {
  curveTolerance : Qc;
  spacing : Qc;
  rotations : Z;
  populationSize : Z;
  mutationRate : Qc;
  useHoles : bool;
  exploreConcave : bool;
}.

(** One step of a bin placement, and what [place_paths] returns. *)
Record move_step : Set := MoveStep {
  m_p_id : string; m_rotation : Qc; m_x : Qc; m_y : Qc;
}.

Record result : Set := Result {
  placements : list (list move_step);
  res_fitness : Qc;
}.

(** An element of [place_list] in [find_fitness]: a face with its rotation
    appended. *)
Abbreviation placed_face := (string * shape * Qc)%type.

Global Instance point_eq_dec : EqDecision point.
Proof. solve_decision. Defined.
Global Instance shape_eq_dec : EqDecision shape.
Proof. solve_decision. Defined.
Global Instance genome_eq_dec : EqDecision genome.
Proof. solve_decision. Defined.
Global Instance nfp_key_eq_dec : EqDecision nfp_key.
Proof. solve_decision. Defined.

Global Instance nfp_key_countable : Countable nfp_key.
Proof.
  refine (inj_countable'
    (λ k, (k_A k, k_B k, k_inside k, k_A_rotation k, k_B_rotation k))
    (λ t, let '(a, b, i, ra, rb) := t in Key a b i ra rb) _).
  by intros [].
Defined.

(** The placement worker object. *)
Record worker_t : Type := Worker {
  w_container : option container_t;
  w_place_list : list placed_face;
  w_ids : list string;
  w_rotations : list Qc;
  w_config : config;
  w_nfpCache : gmap nfp_key (option nfp_value);
}.

(** ** The imported modules, as interfaces *)

(** [pyclipper]: the polygon-clipping library. *)
Class Pyclipper := {
  (** [SimplifyPolygon(polygon, PFT_NONZERO)] *)
  SimplifyPolygon : path → option (list path);
  Area : path → Qc;
  (** [CleanPolygon(polygon, distance)] *)
  CleanPolygon : path → Qc → option path;
  (** [PyclipperOffset(miter_limit, arc_tolerance)], [AddPath] with
      [JT_ROUND] and [ET_CLOSEDPOLYGON], then [Execute(delta)]. *)
  OffsetExecute : Qc → Qc → path → Qc → list path;
  (** [MinkowskiSum(a, b, True)] *)
  MinkowskiSum : path → path → list path;
}.

(** [tools.nfp_utls], apart from [polygon_area], which is given below. *)
Class NfpUtls := {
  rotate_polygon : ring → Qc → rotated;
  get_polygon_bounds : ring → bounds;
  is_rectangle : ring → Qc → bool;
  nfp_rectangle : ring → ring → option nfp_value;
  (** [nfp_polygon(A, B, inside, search_edges)] *)
  nfp_polygon : ring → ring → bool → bool → option nfp_value;
  (** the truth value of [point_in_polygon(point, polygon)] *)
  point_in_polygon : point → ring → bool;
}.

(** [tools.placement_worker]: [place_paths] of a worker object. *)
Class PlacementWorker := {
  place_paths : worker_t → result;
}.

(** [settings] *)
Class Settings := {
  SPACING : Qc;
  ROTATIONS : Z;
  BIN_HEIGHT : Qc;
  POPULATION_SIZE : Z;
  MUTA_RATE : Qc;
}.

(** [random]: the generator is a fixed sequence of raw draws, read at a
    cursor that every call advances by one. *)
Class Random := {
  draws : nat → N;
}.

(** ** Geometry *)

Definition cross (p q : point) : Qc := px p * py q - px q * py p.

(** The sum of [cross] over the consecutive pairs of an open path. *)
Fixpoint path_sum (l : ring) : Qc :=
  match l with
  | p :: (q :: _) as t => cross p q + path_sum t
  | _ => 0
  end.

(** Modelled from the spec: [nfp_utls.polygon_area] is not among the
    sources; the spec gives it as the shoelace formula
    [A = ½ Σ (xᵢ·yᵢ₊₁ − xᵢ₊₁·yᵢ)], indices taken around the ring, positive
    for counter-clockwise. The ring is closed by repeating its first
    point. *)
Definition polygon_area (pts : ring) : Qc :=
  Q2Qc (1 # 2) * path_sum (pts ++ take 1 pts).

(** ** Exceptions in pure code *)

Definition obind {A B} (o : outcome A) (k : A → outcome B) : outcome B :=
  match o with
  | Ok a => k a
  | Raise e => Raise e
  | Diverge => Diverge
  end.

Notation "x <-? o ;; k" := (obind o (λ x, k))
  (at level 100, o at next level, right associativity,
   format "'[v' x  <-?  o  ;;  '/' k ']'").

Fixpoint omap_M {A B} (f : A → outcome B) (l : list A) : outcome (list B) :=
  match l with
  | [] => Ok []
  | a :: l' => b <-? f a ;; bs <-? omap_M f l' ;; Ok (b :: bs)
  end.

(** ** [minkowski_difference] *)

Section minkowski.
Context `{!Pyclipper}.

(** [Bc = [[p['x'] * -1, p['y'] * -1] for p in B['points']]] *)
Definition negate (B : ring) : path := (λ p, (px p * -1, py p * -1)) <$> B.

(** One turn of the loop over [solution]; the state is the pair
    [(largest_area, clipper_nfp)], both [None] before the first turn. *)
Definition select_smallest (st : option Qc * option ring) (p : path)
  : option Qc * option ring :=
  let p' := of_path p in
  let sarea := polygon_area p' in
  match st.1 with
  | None => (Some sarea, Some p')
  | Some largest_area =>
      if decide (sarea < largest_area) then (Some sarea, Some p') else st
  end.

(** The closing comprehension: [len(clipper_nfp)] raises on [None];
    [Bc[0]] is read once per vertex. *)
Definition translate_back (Bc : path) (clipper_nfp : option ring)
  : outcome ring :=
  match clipper_nfp with
  | None => Raise TypeError
  | Some nfp =>
      omap_M (λ v, match Bc with
                   | [] => Raise IndexError
                   | b0 :: _ => Ok (Point (px v + b0.1 * -1) (py v + b0.2 * -1))
                   end) nfp
  end.

Definition minkowski_difference (A B : ring) : outcome nfp_value :=
  let Ac := to_path A in
  let Bc := negate B in
  let solution := MinkowskiSum Ac Bc in
  let st := foldl select_smallest (None, None) solution in
  clipper_nfp <-? translate_back Bc st.2 ;;
  Ok [clipper_nfp].
End minkowski.

(** ** [Nester.process_nfp] *)

Section process_nfp.
Context `{!Pyclipper, !NfpUtls}.

(** [if polygon_area(r) > 0: r.reverse()] *)
Definition orient (r : ring) : ring :=
  if decide (0 < polygon_area r) then reverse r else r.

(** The first loop over an outer NFP: does some checked ring have a
    smaller absolute area than [A]? The loop returns [None] at the
    first such ring. *)
Fixpoint area_check_fails (search_edges : bool) (A : ring) (i : nat)
    (nfp : list ring) : bool :=
  match nfp with
  | [] => false
  | r :: rest =>
      if (negb search_edges || bool_decide (i = 0%nat))
         && bool_decide (Qcabs.Qcabs (polygon_area r) < Qcabs.Qcabs (polygon_area A))
      then true
      else area_check_fails search_edges A (S i) rest
  end.

(** The body of the second loop for [i > 0]; [outer] is [nfp[0]] after
    its own turn. *)
Definition orient_hole (outer r : ring) : outcome ring :=
  let r1 := orient r in
  match r1 with
  | [] => Raise IndexError
  | v :: _ =>
      if point_in_polygon v outer
      then Ok (if decide (polygon_area r1 < 0) then reverse r1 else r1)
      else Ok r1
  end.

Definition orient_outer (nfp : list ring) : outcome (list ring) :=
  match nfp with
  | [] => Ok []
  | r0 :: rest =>
      let outer := orient r0 in
      rest' <-? omap_M (orient_hole outer) rest ;;
      Ok (outer :: rest')
  end.

(** The checks of an outer NFP, from [# 检查NFP多边形是否合理] on. *)
Definition check_outer (cfg : config) (key : nfp_key) (A : ring)
    (nfp : option nfp_value) : outcome (option nfp_result) :=
  let search_edges := exploreConcave cfg in
  match nfp with
  | None | Some [] => Ok None
  | Some nfp =>
      if area_check_fails search_edges A 0 nfp then Ok None
      else
        nfp' <-? orient_outer nfp ;;
        Ok (Some (NfpResult key (Some nfp')))
  end.

Definition process_nfp (cfg : config) (pr : option nfp_pair)
  : outcome (option nfp_result) :=
  match pr with
  | None => Ok None
  | Some pr =>
      let search_edges := exploreConcave cfg in
      let key := pair_key pr in
      A <-? match pair_A pr with
            | Some A => Ok (r_points (rotate_polygon A (k_A_rotation key)))
            | None => Raise TypeError
            end ;;
      let B := r_points (rotate_polygon (pair_B pr) (k_B_rotation key)) in
      if k_inside key then
        let nfp :=
          if is_rectangle A (Q2Qc (1 # 10000)) then nfp_rectangle A B
          else nfp_polygon A B true search_edges in
        let nfp :=
          match nfp with
          | Some (_ :: _ as rings) => Some (orient <$> rings)
          | _ => nfp
          end in
        Ok (Some (NfpResult key nfp))
      else
        nfp <-? (if search_edges
                 then Ok (nfp_polygon A B false search_edges)
                 else rings <-? minkowski_difference A B ;; Ok (Some rings)) ;;
        check_outer cfg key A nfp
  end.
End process_nfp.

(** ** Process-wide state: the [random] generator and standard output *)

Inductive output : Set :=
| Line (s : string)
| Report (label : string) (pop : list genome).

Record proc : Set := Proc {
  cursor : nat;
  stdout : list output;
}.

Definition print (o : output) : M proc unit :=
  modify (λ p, Proc (cursor p) (stdout p ++ [o])).

Section random.
Context `{!Random}.

Definition next_draw : M proc N :=
  λ p, (Ok (draws (cursor p)), Proc (S (cursor p)) (stdout p)).

(** [random.random()]: a multiple of [2^-53] in [[0, 1)]. *)
Definition random_random : M proc Qc :=
  n <- next_draw ;;
  ret (Q2Qc (Z.of_N (n mod 2 ^ 53) # 2 ^ 53)).

(** [random.randint(a, b)]: an integer of [[a, b]]; [ValueError] on an
    empty range. *)
Definition random_randint (a b : Z) : M proc Z :=
  if decide (b < a)%Z then raise ValueError
  else n <- next_draw ;; ret (a + Z.of_N n `mod` (b - a + 1))%Z.
End random.

(** ** [genetic_algorithm] *)

Record bin_bounds_t : Set := BinBounds {
  bb_width : Qc;
  bb_height : Qc;
}.

Record ga_t : Set := GeneticAlgorithm {
  bin_bounds : bin_bounds_t;
  ga_config : config;
  bin_polygon : container_t;
  population : list genome;
}.

(** The state a method of [genetic_algorithm] runs in. *)
Record ga_state : Set := GAState {
  ga_self : ga_t;
  ga_proc : proc;
}.

Definition set_population (pop : list genome) (g : ga_t) : ga_t :=
  GeneticAlgorithm (bin_bounds g) (ga_config g) (bin_polygon g) pop.

Definition in_proc {A} (m : M proc A) : M ga_state A :=
  zoom ga_proc (λ p s, GAState (ga_self s) p) m.

Definition get_population : M ga_state (list genome) :=
  gets (λ s, population (ga_self s)).

Definition put_population (pop : list genome) : M ga_state unit :=
  modify (λ s, GAState (set_population pop (ga_self s)) (ga_proc s)).

(** [data[i], data[j] = data[j], data[i]] for indices in range. *)
Definition swap {A} (data : list A) (i j : nat) : list A :=
  match data !! i, data !! j with
  | Some di, Some dj => <[j:=di]> (<[i:=dj]> data)
  | _, _ => data
  end.

(** [l.remove(x)]: the first element equal to [x] is dropped. *)
Fixpoint remove_first `{EqDecision A} (x : A) (l : list A) : list A :=
  match l with
  | [] => []
  | y :: l' => if decide (x = y) then l' else y :: remove_first x l'
  end.

(** [sorted(l, key=k)], a stable sort: an element is inserted before the
    first element of the sorted rest whose key is not smaller. *)
Fixpoint insert_by {A} (k : A → Qc) (a : A) (l : list A) : list A :=
  match l with
  | [] => [a]
  | h :: t => if decide (k a <= k h) then a :: h :: t else h :: insert_by k a t
  end.

Fixpoint sorted_by {A} (k : A → Qc) (l : list A) : list A :=
  match l with
  | [] => []
  | a :: l' => insert_by k a (sorted_by k l')
  end.

Section genetic_algorithm.
Context `{!NfpUtls, !Random}.

(** [range(0, n)] for an integer [n]. *)
Definition range (n : Z) : list nat := seq 0 (Z.to_nat n).

(** The nested [shuffle_array]: [i] runs from [len(data) - 1] down
    to [1]. *)
Fixpoint shuffle_loop (idxs : list nat) (data : list Qc) : M proc (list Qc) :=
  match idxs with
  | [] => ret data
  | i :: idxs' =>
      j <- random_randint 0 (Z.of_nat i) ;;
      shuffle_loop idxs' (swap data i (Z.to_nat j))
  end.

Definition shuffle_array (data : list Qc) : M proc (list Qc) :=
  shuffle_loop (reverse (seq 1 (length data - 1))) data.

(** The test of the last loop of [random_angle]. *)
Definition fits (bb : bin_bounds_t) (s : face) (angle : Qc) : bool :=
  let rotate_part := rotate_polygon (points s.2) angle in
  bool_decide (r_width rotate_part < bb_width bb)
  && bool_decide (r_height rotate_part < bb_height bb).

(** [i * (360 / rotations)] for [i] in [range(0, rotations)]. *)
Definition angle_list_of (rots : Z) : list Qc :=
  (λ i : nat, Q2Qc (inject_Z (Z.of_nat i)) * (Q2Qc 360 / Q2Qc (inject_Z rots)))
    <$> range rots.

(** The value the variable [i] of [random_angle] has after the first
    loop: the last index, or unbound when the loop had no turn. The [i]
    of [shuffle_array] is a variable of that nested function. *)
Definition last_index (rots : Z) : option nat :=
  last (range rots).

Definition random_angle (s : face) : M ga_state Qc :=
  self <- gets ga_self ;;
  let angle_list := angle_list_of (rotations (ga_config self)) in
  let i := last_index (rotations (ga_config self)) in
  angle_list <- in_proc (shuffle_array angle_list) ;;
  match List.find (fits (bin_bounds self) s) angle_list with
  | Some angle =>
      match i with
      | Some i => index angle_list i
      | None => raise UnboundLocalError
      end
  | None => ret 0
  end.

(** [0.01 * self.config['mutationRate']] *)
Definition mutation_threshold (cfg : config) : Qc :=
  Q2Qc (1 # 100) * mutationRate cfg.

(** The first loop of [mutate], over the positions [idxs]. *)
Fixpoint mutate_swaps (t : Qc) (idxs : list nat) (pl : list face)
  : M proc (list face) :=
  match idxs with
  | [] => ret pl
  | i :: idxs' =>
      r <- random_random ;;
      let pl' :=
        if decide (r < t)
        then (if decide (i + 1 < length pl)%nat then swap pl i (i + 1) else pl)
        else pl in
      mutate_swaps t idxs' pl'
  end.

Definition mutate (individual : genome) : M ga_state genome :=
  self <- gets ga_self ;;
  let t := mutation_threshold (ga_config self) in
  let n := length (placement individual) in
  pl <- in_proc (mutate_swaps t (seq 0 n) (placement individual)) ;;
  let rot := rotation individual in
  r <- in_proc random_random ;;
  if decide (r < t) then
    match last (seq 0 n) with
    | None => raise UnboundLocalError
    | Some i =>
        s <- index pl i ;;
        angle <- random_angle s ;;
        if decide (i < length rot)%nat
        then ret (Genome pl (<[i:=angle]> rot) None)
        else raise IndexError
    end
  else ret (Genome pl rot None).

(** The nested [contains] of [mate]. *)
Definition contains (gene : list face) (shape_id : string) : bool :=
  existsb (λ f : face, bool_decide (f.1 = shape_id)) gene.

(** One of the two filling loops of [mate]: [idxs] are the indices of
    the donor, last to first. *)
Fixpoint fill_from (donor : genome) (idxs : list nat)
    (gene : list face) (rot : list Qc) : outcome (list face * list Qc) :=
  match idxs with
  | [] => Ok (gene, rot)
  | i :: idxs' =>
      match placement donor !! i with
      | None => Raise IndexError
      | Some f =>
          if contains gene f.1 then fill_from donor idxs' gene rot
          else
            match rotation donor !! i with
            | None => Raise IndexError
            | Some r => fill_from donor idxs' (gene ++ [f]) (rot ++ [r])
            end
      end
  end.

(** [range(len(l) - 1, -1, -1)] *)
Definition down_range (n : nat) : list nat := reverse (seq 0 n).

(** [mate] for a given cut point. *)
Definition mate_at (cutpoint : nat) (male female : genome)
  : outcome (genome * genome) :=
  let gene1 := take cutpoint (placement male) in
  let rot1 := take cutpoint (rotation male) in
  let gene2 := take cutpoint (placement female) in
  let rot2 := take cutpoint (rotation female) in
  c1 <-? fill_from female (down_range (length (placement female))) gene1 rot1 ;;
  c2 <-? fill_from male (down_range (length (placement male))) gene2 rot2 ;;
  Ok (Genome c1.1 c1.2 None, Genome c2.1 c2.2 None).

Definition mate (male female : genome) : M ga_state (genome * genome) :=
  cutpoint <- in_proc
    (random_randint 0 (Z.of_nat (length (placement male)) - 1)) ;;
  lift_outcome (mate_at (Z.to_nat cutpoint) male female).

(** The loop of [random_weighted_individual] over [pop[i:]]. *)
Fixpoint weighted_pick (rand weight : Qc) (pop_len : nat) (i : nat)
    (lower upper : Qc) (rest : list genome) : option genome :=
  match rest with
  | [] => None
  | g :: rest' =>
      if bool_decide (lower < rand) && bool_decide (rand < upper)
      then Some g
      else weighted_pick rand weight pop_len (S i) upper
             (upper + 2 * weight * Q2Qc (inject_Z (Z.of_nat (pop_len - i)))
                      / Q2Qc (inject_Z (Z.of_nat pop_len)))
             rest'
  end.

(** [pop] is the list object [self.population] itself: the removal is
    made on the stored population. *)
Definition random_weighted_individual (exclude : option genome)
  : M ga_state genome :=
  pop <- get_population ;;
  pop <- match exclude with
         | Some ex =>
             if decide (ex ∈ pop)
             then put_population (remove_first ex pop) ;;;
                  ret (remove_first ex pop)
             else raise ValueError
         | None => ret pop
         end ;;
  rand <- in_proc random_random ;;
  match pop with
  | [] => raise ZeroDivisionError
  | g0 :: _ =>
      let pop_len := length pop in
      let weight := 1 / Q2Qc (inject_Z (Z.of_nat pop_len)) in
      match weighted_pick rand weight pop_len 0 0 weight pop with
      | Some g => ret g
      | None => ret g0
      end
  end.

(** The keys [a['fitness']] that [sorted] computes first. *)
Definition fitness_keys (pop : list genome) : outcome (list (Qc * genome)) :=
  omap_M (λ g, match fitness g with
               | Some f => Ok (f, g)
               | None => Raise KeyError
               end) pop.

(** The [while] loop of [generation]; every turn appends at least one
    genome, so [populationSize] turns are enough. *)
Fixpoint generation_loop (fuel : nat) (size : Z) (new_population : list genome)
  : M ga_state (list genome) :=
  if decide (Z.of_nat (length new_population) < size)%Z then
    match fuel with
    | O => diverge
    | S fuel' =>
        male <- random_weighted_individual None ;;
        female <- random_weighted_individual (Some male) ;;
        children <- mate male female ;;
        m0 <- mutate children.1 ;;
        let new_population := new_population ++ [m0] in
        if decide (Z.of_nat (length new_population) < size)%Z then
          m1 <- mutate children.2 ;;
          generation_loop fuel' size (new_population ++ [m1])
        else generation_loop fuel' size new_population
    end
  else ret new_population.

Definition generation : M ga_state unit :=
  pop <- get_population ;;
  keyed <- lift_outcome (fitness_keys pop) ;;
  let pop := snd <$> sorted_by fst keyed in
  put_population pop ;;;
  best <- index pop 0 ;;
  size <- gets (λ s, populationSize (ga_config (ga_self s))) ;;
  new_population <- generation_loop (Z.to_nat size) size [best] ;;
  in_proc (print (Report "new :" new_population)) ;;;
  put_population new_population.

(** [genetic_algorithm(adam, bin_polygon, config)] *)
Definition genetic_algorithm_init (adam : list face)
    (bin_polygon : container_t) (cfg : config) : M ga_state unit :=
  let shapes := adam in
  angles <- map_M random_angle shapes ;;
  let seed := Genome shapes angles None in
  put_population [seed] ;;;
  for_each (seq 1 (Z.to_nat (populationSize cfg) - 1))
    (λ _, pop <- get_population ;;
          first <- index pop 0 ;;
          mutant <- mutate first ;;
          pop <- get_population ;;
          put_population (pop ++ [mutant])).

Definition genetic_algorithm (adam : list face) (bin_polygon : container_t)
    (cfg : config) : M proc ga_t :=
  λ p,
    let self := GeneticAlgorithm
      (BinBounds (c_width bin_polygon) (c_height bin_polygon))
      cfg bin_polygon [] in
    let '(o, s) := genetic_algorithm_init adam bin_polygon cfg (GAState self p) in
    (match o with Ok _ => Ok (ga_self s) | Raise e => Raise e | Diverge => Diverge end,
     ga_proc s).
End genetic_algorithm.

(** ** [Nester] *)

(** The attributes of a nester. [container] is [None] for both falsy
    values the attribute can have, [None] and the empty dict. *)
Record nester : Type := Nester {
  container : option container_t;
  shapes : option (list shape);
  shapes_max_length : Qc;
  results : list result;
  nfp_cache : gmap nfp_key (option nfp_value);
  n_config : config;
  GA : option ga_t;
  best : option result;
  worker : option worker_t;
  container_bounds : option bounds;
}.

(** The state a method of [Nester] runs in. *)
Record world : Type := World {
  self : nester;
  w_proc : proc;
}.

Definition set_container v (n : nester) : nester :=
  Nester v (shapes n) (shapes_max_length n) (results n) (nfp_cache n)
    (n_config n) (GA n) (best n) (worker n) (container_bounds n).
Definition set_shapes v (n : nester) : nester :=
  Nester (container n) v (shapes_max_length n) (results n) (nfp_cache n)
    (n_config n) (GA n) (best n) (worker n) (container_bounds n).
Definition set_shapes_max_length v (n : nester) : nester :=
  Nester (container n) (shapes n) v (results n) (nfp_cache n)
    (n_config n) (GA n) (best n) (worker n) (container_bounds n).
Definition set_results v (n : nester) : nester :=
  Nester (container n) (shapes n) (shapes_max_length n) v (nfp_cache n)
    (n_config n) (GA n) (best n) (worker n) (container_bounds n).
Definition set_nfp_cache v (n : nester) : nester :=
  Nester (container n) (shapes n) (shapes_max_length n) (results n) v
    (n_config n) (GA n) (best n) (worker n) (container_bounds n).
Definition set_GA v (n : nester) : nester :=
  Nester (container n) (shapes n) (shapes_max_length n) (results n) (nfp_cache n)
    (n_config n) v (best n) (worker n) (container_bounds n).
Definition set_best v (n : nester) : nester :=
  Nester (container n) (shapes n) (shapes_max_length n) (results n) (nfp_cache n)
    (n_config n) (GA n) v (worker n) (container_bounds n).
Definition set_worker v (n : nester) : nester :=
  Nester (container n) (shapes n) (shapes_max_length n) (results n) (nfp_cache n)
    (n_config n) (GA n) (best n) v (container_bounds n).
Definition set_container_bounds v (n : nester) : nester :=
  Nester (container n) (shapes n) (shapes_max_length n) (results n) (nfp_cache n)
    (n_config n) (GA n) (best n) (worker n) v.

Definition update (f : nester → nester) : M world unit :=
  modify (λ w, World (f (self w)) (w_proc w)).

Definition in_world_proc {A} (m : M proc A) : M world A :=
  zoom w_proc (λ p w, World (self w) p) m.

Section nester.
Context `{!Pyclipper, !NfpUtls, !PlacementWorker, !Settings, !Random}.

(** [Nester(container, shapes)] *)
Definition Nester_init (container : option container_t)
    (shapes : option (list shape)) : nester :=
  Nester container shapes 0 [] ∅
    (Config (Q2Qc (3 # 10)) SPACING ROTATIONS POPULATION_SIZE MUTA_RATE
       false false)
    None None None None.

(** The loop of [clean_polygon] over [simple[1:]]; the state is
    [(biggest, biggest_area)]. *)
Definition bigger (st : path * Qc) (s : path) : path * Qc :=
  let a := Qcabs.Qcabs (Area s) in
  if decide (st.2 < a) then (s, a) else st.

Definition clean_polygon (cfg : config) (polygon : path) : option path :=
  match SimplifyPolygon polygon with
  | None | Some [] => None
  | Some (first :: rest) =>
      let biggest := (foldl bigger (first, Area first) rest).1 in
      match CleanPolygon biggest (curveTolerance cfg) with
      | None | Some [] => None
      | Some clean => Some clean
      end
  end.

(** [polygon_offset] on a list of point dicts. *)
Definition polygon_offset (cfg : config) (polygon : ring) (offset : Qc)
  : outcome ring :=
  match polygon with
  | [] => Raise IndexError
  | _ =>
      let miter_limit := 2 in
      match OffsetExecute miter_limit (curveTolerance cfg) (to_path polygon)
              (1 * offset) with
      | [] => Raise IndexError
      | r0 :: _ => Ok (of_path r0)
      end
  end.

(** The shape dict [add_objects] builds from a cleaned polygon; [p_id]
    is never incremented, every shape gets [str(0)]. *)
Definition make_shape (pts : path) : shape :=
  let pts := of_path pts in
  let a := polygon_area pts in
  Shape (Qcabs.Qcabs a) (pretty 0%nat)
    (if decide (0 < a) then reverse pts else pts).

(** The loop of [add_objects]; the accumulator is [total_area]. *)
Fixpoint add_objects_loop (objects : list path) (total_area : Qc)
  : M world Qc :=
  match objects with
  | [] => ret total_area
  | obj :: objects' =>
      cfg <- gets (λ w, n_config (self w)) ;;
      match clean_polygon cfg obj with
      | None => raise TypeError
      | Some pts =>
          let s := make_shape pts in
          update (λ n, set_shapes (Some (default [] (shapes n) ++ [s])) n) ;;;
          add_objects_loop objects' (total_area + area s)
      end
  end.

Definition add_objects (objects : list path) : M world unit :=
  update (λ n, match shapes n with
               | None | Some [] => set_shapes (Some []) n
               | Some _ => n
               end) ;;;
  total_area <- add_objects_loop objects 0 ;;
  if decide (BIN_HEIGHT = 0) then raise ZeroDivisionError
  else update (set_shapes_max_length (total_area / BIN_HEIGHT * Q2Qc 3)).

(** One turn of the loop of [add_container]; the state is
    [(xbinmax, xbinmin, ybinmax, ybinmin)]. *)
Definition widen (st : Qc * Qc * Qc * Qc) (p : point) : Qc * Qc * Qc * Qc :=
  let '(xbinmax, xbinmin, ybinmax, ybinmin) := st in
  let '(xbinmax, xbinmin) :=
    if decide (xbinmax < px p) then (px p, xbinmin)
    else if decide (px p < xbinmin) then (xbinmax, px p)
    else (xbinmax, xbinmin) in
  let '(ybinmax, ybinmin) :=
    if decide (ybinmax < py p) then (py p, ybinmin)
    else if decide (py p < ybinmin) then (ybinmax, py p)
    else (ybinmax, ybinmin) in
  (xbinmax, xbinmin, ybinmax, ybinmin).

Definition add_container (c : path) : M world unit :=
  cfg <- gets (λ w, n_config (self w)) ;;
  match clean_polygon cfg c with
  | None => raise TypeError
  | Some c =>
      let pts := of_path c in
      match pts with
      | [] => raise IndexError
      | p0 :: _ =>
          let '(xbinmax, xbinmin, ybinmax, ybinmin) :=
            foldl widen (px p0, px p0, py p0, py p0) pts in
          update (set_container
            (Some (Container pts "-1" (xbinmax - xbinmin) (ybinmax - ybinmin)))) ;;;
          update (set_container_bounds (Some (get_polygon_bounds pts)))
      end
  end.

(** [clear] *)
Definition clear : M world unit := update (set_shapes None).

(** The keys [find_fitness] asks for part [i] of [place_list]: the inner
    key against the container, then the outer keys against the parts
    placed before it. *)
Definition inner_key (part : placed_face) : nfp_key :=
  Key "-1" part.1.1 true 0 part.2.

Definition outer_key (placed part : placed_face) : nfp_key :=
  Key placed.1.1 part.1.1 false placed.2 part.2.

(** One lookup of [find_fitness]; the state is [(nfp_pairs, new_cache)]. *)
Definition lookup_or_enqueue (cache : gmap nfp_key (option nfp_value))
    (A : option ring) (B : ring) (key : nfp_key)
    (st : list nfp_pair * gmap nfp_key (option nfp_value))
  : list nfp_pair * gmap nfp_key (option nfp_value) :=
  match cache !! key with
  | None => (st.1 ++ [Pair A B key], st.2)
  | Some v => (st.1, <[key:=v]> st.2)
  end.

(** The double loop of [find_fitness]; [before] is [place_list[:i]]. *)
Fixpoint collect_pairs (cache : gmap nfp_key (option nfp_value))
    (cont : option container_t) (before rest : list placed_face)
    (st : list nfp_pair * gmap nfp_key (option nfp_value))
  : list nfp_pair * gmap nfp_key (option nfp_value) :=
  match rest with
  | [] => st
  | part :: rest' =>
      let st := lookup_or_enqueue cache (c_points <$> cont) (points part.1.2)
                  (inner_key part) st in
      let st := foldl (λ st placed,
                         lookup_or_enqueue cache (Some (points placed.1.2))
                           (points part.1.2) (outer_key placed part) st)
                      st before in
      collect_pairs cache cont (before ++ [part]) rest' st
  end.

(** [place_list[i].append(rotations[i])] for every [i]. *)
Fixpoint append_rotations (place_list : list face) (rots : list Qc)
  : outcome (list placed_face) :=
  match place_list, rots with
  | [], _ => Ok []
  | _ :: _, [] => Raise IndexError
  | f :: pl, r :: rs => l <-? append_rotations pl rs ;; Ok ((f, r) :: l)
  end.

(** [generate_nfp] *)
Definition store (cache : gmap nfp_key (option nfp_value))
    (r : option nfp_result) : gmap nfp_key (option nfp_value) :=
  match r with
  | Some r => <[res_key r := res_value r]> cache
  | None => cache
  end.

Definition generate_nfp (nfp : list (option nfp_result)) : M world result :=
  update (λ n, set_nfp_cache (foldl store (nfp_cache n) nfp) n) ;;;
  n <- gets self ;;
  match worker n with
  | None => raise TypeError
  | Some w =>
      let w := Worker (w_container w) (w_place_list w) (w_ids w)
                 (w_rotations w) (w_config w) (nfp_cache n) in
      update (set_worker (Some w)) ;;;
      ret (place_paths w)
  end.

Definition find_fitness (individual : genome) : M world result :=
  let rots := rotation individual in
  let ids := fst <$> placement individual in
  place_list <- lift_outcome (append_rotations (placement individual) rots) ;;
  n <- gets self ;;
  let '(nfp_pairs, new_cache) :=
    collect_pairs (nfp_cache n) (container n) [] place_list ([], ∅) in
  update (set_nfp_cache new_cache) ;;;
  update (set_worker
    (Some (Worker (container n) place_list ids rots (n_config n) new_cache))) ;;;
  pair_list <- map_M (λ pr, lift_outcome (process_nfp (n_config n) (Some pr)))
                 nfp_pairs ;;
  generate_nfp pair_list.

(** Running a method of [self.GA]. *)
Definition in_GA {A} (m : M ga_state A) : M world A :=
  λ w, match GA (self w) with
       | None => (Raise TypeError, w)
       | Some g =>
           let '(o, s) := m (GAState g (w_proc w)) in
           (o, World (set_GA (Some (ga_self s)) (self w)) (ga_proc s))
       end.

(** [self.GA.population[i]['fitness'] = f] *)
Definition set_fitness (i : nat) (f : Qc) (g : ga_t) : ga_t :=
  set_population
    (alter (λ x, Genome (placement x) (rotation x) (Some f)) i (population g)) g.

(** The scan of [self.results] for the lowest fitness. *)
Definition better (best_result p : result) : result :=
  if decide (res_fitness p < res_fitness best_result) then p else best_result.

Definition launch_workers (adam : list face)
  : M world (option (list (list move_step))) :=
  n <- gets self ;;
  match GA n with
  | None =>
      match container n with
      | None => raise TypeError
      | Some c =>
          pts <- lift_outcome (polygon_offset (n_config n) (c_points c)
                                 (spacing (n_config n))) ;;
          let offset_bin := Container pts (c_p_id c) (c_width c) (c_height c) in
          g <- in_world_proc (genetic_algorithm adam offset_bin (n_config n)) ;;
          update (set_GA (Some g))
      end
  | Some _ => in_GA generation
  end ;;;
  size <- in_GA (gets (λ s, populationSize (ga_config (ga_self s)))) ;;
  for_each (range size)
    (λ i, pop <- in_GA get_population ;;
          individual <- index pop i ;;
          res <- find_fitness individual ;;
          in_GA (modify (λ s, GAState (set_fitness i (res_fitness res) (ga_self s))
                                (ga_proc s))) ;;;
          update (λ n, set_results (results n ++ [res]) n)) ;;;
  n <- gets self ;;
  match results n with
  | [] => ret None
  | r0 :: _ =>
      let best_result := foldl better r0 (results n) in
      match best n with
      | None => update (set_best (Some best_result))
      | Some b =>
          if decide (res_fitness best_result < res_fitness b)
          then update (set_best (Some best_result))
          else ret tt
      end ;;;
      ret None
  end.

(** The loop of [run] that builds [faces]. *)
Fixpoint offset_faces (cfg : config) (i : nat) (l : list shape)
  : outcome (list face) :=
  match l with
  | [] => Ok []
  | s :: l' =>
      pts <-? polygon_offset cfg (points s) (spacing cfg) ;;
      faces <-? offset_faces cfg (S i) l' ;;
      Ok ((pretty i, Shape (area s) (p_id s) pts) :: faces)
  end.

Definition run : M world (option (list (list move_step))) :=
  n <- gets self ;;
  match container n with
  | None => in_world_proc (print (Line "Empty container. Aborting")) ;;; ret None
  | Some _ =>
      match shapes n with
      | None | Some [] =>
          in_world_proc (print (Line "Empty shapes. Aborting")) ;;; ret None
      | Some l =>
          faces <- lift_outcome (offset_faces (n_config n) 0 l) ;;
          (* sorted(faces, reverse=True, key=area): stable, largest first *)
          let faces := sorted_by (λ f : face, - area f.2) faces in
          launch_workers faces
      end
  end.
End nester.

(** ** Reference implementations of the interfaces

    Small implementations, exact on the inputs they are used with:
    axis-aligned rectangles, rotations by quarter turns and no spacing.
    They give the concrete runs of this development something to run on. *)

Module Demo.
Definition qmin (a b : Qc) : Qc := if decide (a < b) then a else b.
Definition qmax (a b : Qc) : Qc := if decide (a < b) then b else a.
Definition min_of (l : list Qc) : Qc := foldr qmin (default 0 (head l)) l.
Definition max_of (l : list Qc) : Qc := foldr qmax (default 0 (head l)) l.

Definition xs (r : ring) : list Qc := px <$> r.
Definition ys (r : ring) : list Qc := py <$> r.

Definition bounds_of (r : ring) : bounds :=
  Bounds (min_of (xs r)) (min_of (ys r))
    (max_of (xs r) - min_of (xs r)) (max_of (ys r) - min_of (ys r)).

(** The rectangle [[x0, x1] × [y0, y1]], counter-clockwise. *)
Definition box (x0 y0 x1 y1 : Qc) : ring :=
  [Point x0 y0; Point x1 y0; Point x1 y1; Point x0 y1].

(** The Minkowski sum of two axis-aligned rectangles. *)
Definition box_sum (a b : path) : list path :=
  let a := of_path a in
  let b := of_path b in
  [to_path (box (min_of (xs a) + min_of (xs b)) (min_of (ys a) + min_of (ys b))
                (max_of (xs a) + max_of (xs b)) (max_of (ys a) + max_of (ys b)))].

Definition clipper : Pyclipper := {|
  SimplifyPolygon p := Some [p];
  Area p := polygon_area (of_path p);
  CleanPolygon p _ := Some p;
  OffsetExecute _ _ p _ := [p];
  MinkowskiSum := box_sum;
|}.

(** A quarter turn about the origin, counter-clockwise. *)
Definition quarter_turn (p : point) : point := Point (- py p) (px p).

Definition quarter_turns (angle : Qc) : nat :=
  if decide (angle = Q2Qc 90) then 1
  else if decide (angle = Q2Qc 180) then 2
  else if decide (angle = Q2Qc 270) then 3
  else 0.

Definition rotate (pts : ring) (angle : Qc) : rotated :=
  let pts := Nat.iter (quarter_turns angle) (fmap quarter_turn) pts in
  Rotated pts (b_width (bounds_of pts)) (b_height (bounds_of pts)).

Definition on_box (r : ring) (p : point) : bool :=
  (bool_decide (px p = min_of (xs r)) || bool_decide (px p = max_of (xs r)))
  && (bool_decide (py p = min_of (ys r)) || bool_decide (py p = max_of (ys r))).

(** The inner NFP of a rectangle [A] and a polygon [B]: the positions of
    [B[0]] for which the bounds of [B] stay inside [A]. *)
Definition inner_rectangle (A B : ring) : option nfp_value :=
  match B with
  | [] => None
  | b0 :: _ =>
      if decide (max_of (xs A) - min_of (xs A) < max_of (xs B) - min_of (xs B))
      then None
      else if decide (max_of (ys A) - min_of (ys A) < max_of (ys B) - min_of (ys B))
      then None
      else Some [box (min_of (xs A) - min_of (xs B) + px b0)
                     (min_of (ys A) - min_of (ys B) + py b0)
                     (max_of (xs A) - max_of (xs B) + px b0)
                     (max_of (ys A) - max_of (ys B) + py b0)]
  end.

Definition utls : NfpUtls := {|
  rotate_polygon := rotate;
  get_polygon_bounds := bounds_of;
  is_rectangle r _ := bool_decide (length r = 4%nat) && forallb (on_box r) r;
  nfp_rectangle := inner_rectangle;
  nfp_polygon _ _ _ _ := None;
  point_in_polygon _ _ := false;
|}.

(** Every part at the origin of one bin; the fitness counts the parts. *)
Definition place_all (w : worker_t) : result :=
  Result [(λ f : placed_face, MoveStep f.1.1 f.2 0 0) <$> w_place_list w]
    (Q2Qc (inject_Z (Z.of_nat (length (w_place_list w))))).

Definition placer : PlacementWorker := {| place_paths := place_all |}.

Definition settings : Settings := {|
  SPACING := 0;
  ROTATIONS := 4;
  BIN_HEIGHT := Q2Qc 50;
  POPULATION_SIZE := 3;
  MUTA_RATE := Q2Qc 50;
|}.

(** Draws for which [random.random()] runs through 1/4, 1/2, 3/4, 0 and
    [random.randint(0, i)] returns [n mod (i + 1)] for the draw number
    [n]. *)
Definition spread : Random := {|
  draws n := (N.of_nat (S n) * 2 ^ 51 + N.of_nat n)%N;
|}.

(** Draws that are all [0]: [random.random()] is [0], [randint(a, b)]
    is [a]. *)
Definition zeros : Random := {| draws _ := 0%N |}.

(** Draws that are all [2^52 + 7], which is [-1] modulo 12:
    [random.randint(0, i)] is [i] for [i] up to 3 (the shuffle of four
    angles leaves them in place) and [random.random()] is just above
    1/2. *)
Definition steady : Random := {| draws _ := (2 ^ 52 + 7)%N |}.

Definition pt (x y : Z) : point := Point (Q2Qc (inject_Z x)) (Q2Qc (inject_Z y)).
Definition rect (w h : Z) : ring := [pt 0 0; pt w 0; pt w h; pt 0 h].

Definition cfg : config :=
  Config (Q2Qc (3 # 10)) 0 4 3 (Q2Qc 50) false false.

Definition bin : container_t := Container (rect 100 50) "-1" (Q2Qc 100) (Q2Qc 50).

(** A face: a clockwise rectangle of [w] by [h] under the id [id]. *)
Definition part (id : string) (w h : Z) : face :=
  (id, Shape (Q2Qc (inject_Z (w * h))) "0" (reverse (rect w h))).

Definition f0 : face := part "0" 60 40.
Definition f1 : face := part "1" 30 20.
Definition f2 : face := part "2" 20 10.

(** A genetic algorithm over the bin of 100 by 50, with the population
    [pop], before any draw. *)
Definition ga (pop : list genome) : ga_t :=
  GeneticAlgorithm (BinBounds (Q2Qc 100) (Q2Qc 50)) cfg bin pop.

Definition start (pop : list genome) : ga_state := GAState (ga pop) (Proc 0 []).
End Demo.

(** ** Notions the statements are written in *)

(** [returns m s Q]: from the state [s], [m] returns a value, and the
    value and the final state satisfy [Q]. *)
Definition returns {S A} (m : M S A) (s : S) (Q : A → S → Prop) : Prop :=
  ∃ a s', m s = (Ok a, s') ∧ Q a s'.

(** A ring in clockwise orientation: its signed area is not positive. *)
Definition clockwise (pts : ring) : Prop := polygon_area pts <= 0.

(** The value of [random.random()] and of [random.randint(a, b)] when the
    cursor is at [c]. *)
Definition unit_draw `{!Random} (c : nat) : Qc :=
  Q2Qc (Z.of_N (draws c mod 2 ^ 53) # 2 ^ 53).

Definition int_draw `{!Random} (a b : Z) (c : nat) : Z :=
  (a + Z.of_N (draws c) `mod` (b - a + 1))%Z.

(** The process state after [k] more draws. *)
Definition advance (k : nat) (p : proc) : proc :=
  Proc (k + cursor p) (stdout p).

Definition advance_ga (k : nat) (s : ga_state) : ga_state :=
  GAState (ga_self s) (advance k (ga_proc s)).

(** The shape ids of a placement list, in order. *)
Definition shape_ids (gene : list face) : list string := fst <$> gene.

(** A genome whose rotation list is as long as its placement list. *)
Definition well_formed (g : genome) : Prop :=
  length (rotation g) = length (placement g).

Section shuffle.
Context `{!Random}.

(** The list [shuffle_array] leaves, for the draws from cursor [c] on. *)
Fixpoint shuffle_from (c : nat) (idxs : list nat) (data : list Qc) : list Qc :=
  match idxs with
  | [] => data
  | i :: idxs' =>
      shuffle_from (S c) idxs'
        (swap data i (Z.to_nat (int_draw 0 (Z.of_nat i) c)))
  end.

(** The order in which [random_angle] samples the admissible angles. *)
Definition sampled_angles (rots : Z) (c : nat) : list Qc :=
  let angle_list := angle_list_of rots in
  shuffle_from c (reverse (seq 1 (length angle_list - 1))) angle_list.
End shuffle.

(** Swap with the next position, when there is one. *)
Definition swap_next {A} (pl : list A) (i : nat) : list A :=
  if decide (i + 1 < length pl)%nat then swap pl i (i + 1) else pl.

Section order_mutation.
Context `{!Random}.

(** The turn of position [i]: its own draw, the [i]-th from cursor [c]
    on, is compared with the threshold [t]. *)
Definition mutate_position (t : Qc) (c : nat) (pl : list face) (i : nat)
  : list face :=
  if decide (unit_draw (c + i) < t) then swap_next pl i else pl.

(** The order mutation: every position in turn, first to last. *)
Definition order_mutation (t : Qc) (c : nat) (pl : list face) : list face :=
  foldl (mutate_position t c) pl (seq 0 (length pl)).
End order_mutation.

Section selection_spec.
Context `{!Random}.

(** The population the method works on once [exclude] is handled. *)
Definition after_exclude (exclude : option genome) (pop : list genome)
  : list genome :=
  match exclude with
  | Some ex => remove_first ex pop
  | None => pop
  end.

(** The state [random_weighted_individual] leaves: the stored population
    without [exclude], one draw consumed. *)
Definition selection_state (exclude : option genome) (st : ga_state) : ga_state :=
  GAState (set_population (after_exclude exclude (population (ga_self st)))
             (ga_self st))
          (advance 1 (ga_proc st)).

(** The genome the weights select in [pop] for the draw at cursor [c]. *)
Definition selected (c : nat) (pop : list genome) : outcome genome :=
  match pop with
  | [] => Raise ZeroDivisionError
  | g0 :: _ =>
      let weight := 1 / Q2Qc (inject_Z (Z.of_nat (length pop))) in
      Ok (default g0
            (weighted_pick (unit_draw c) weight (length pop) 0 0 weight pop))
  end.
End selection_spec.

(** A genome the crossover and the mutation accept: it has a part, and
    as many rotations as parts. *)
Definition viable (g : genome) : Prop :=
  placement g ≠ [] ∧ well_formed g.

(** The sort key of [generation], for a genome that carries a fitness. *)
Definition fitness_key (g : genome) : Qc := default 0 (fitness g).

(** The head of the list has the smallest key. *)
Definition head_least {A} (k : A → Qc) (l : list A) : Prop :=
  ∀ x, head l = Some x → ∀ y, y ∈ l → k x <= k y.

(** The keys a genome refers to: for every part the inner key against the
    container, and for every two parts, the one placed before the other,
    their outer key. *)
Definition referenced (g : genome) (key : nfp_key) : Prop :=
  (∃ i f r,
      placement g !! i = Some f ∧ rotation g !! i = Some r
      ∧ key = Key "-1" f.1 true 0 r)
  ∨ (∃ i j fi fj ri rj,
      (i < j)%nat
      ∧ placement g !! i = Some fi ∧ rotation g !! i = Some ri
      ∧ placement g !! j = Some fj ∧ rotation g !! j = Some rj
      ∧ key = Key fi.1 fj.1 false ri rj).

(** One lookup of [find_fitness]: the polygons and the key. *)
Abbreviation job := (option ring * ring * nfp_key)%type.

Section jobs_spec.
Implicit Types (cache nc : gmap nfp_key (option nfp_value)).
Implicit Types (st : list nfp_pair * gmap nfp_key (option nfp_value)).

Definition run_job cache st (j : job) :=
  lookup_or_enqueue cache j.1.1 j.1.2 j.2 st.

(** The lookups of [find_fitness], in the order it makes them. *)
Fixpoint jobs_of (cont : option container_t) (before rest : list placed_face)
  : list job :=
  match rest with
  | [] => []
  | part :: rest' =>
      (c_points <$> cont, points part.1.2, inner_key part)
      :: ((λ placed : placed_face,
             (Some (points placed.1.2), points part.1.2, outer_key placed part))
          <$> before)
      ++ jobs_of cont (before ++ [part]) rest'
  end.

(** What holds of the pairs to compute and of the fresh cache, for keys
    taken from [keys]: only missing keys are enqueued, and only entries
    of the old cache are copied. *)
Definition consistent cache (keys : nfp_key → Prop) st : Prop :=
  (∀ pr, pr ∈ st.1 → cache !! pair_key pr = None ∧ keys (pair_key pr))
  ∧ (∀ k v, st.2 !! k = Some v → cache !! k = Some v ∧ keys k).

(** The keys of the lookups still to make when [before] is done: the
    keys whose later part has an index from [n] on. *)
Definition pending (PL : list placed_face) (n : nat) (k : nfp_key) : Prop :=
  (∃ j p, (n ≤ j)%nat ∧ PL !! j = Some p ∧ k = inner_key p)
  ∨ (∃ i j pi pj,
      (i < j)%nat ∧ (n ≤ j)%nat
      ∧ PL !! i = Some pi ∧ PL !! j = Some pj ∧ k = outer_key pi pj).
End jobs_spec.

Section run_spec.

(** The diagnostic of an aborted [run]. *)
Definition abort_message (n : nester) : string :=
  match container n with
  | None => "Empty container. Aborting"
  | Some _ => "Empty shapes. Aborting"
  end.
End run_spec.

(** ** Notions of the further properties *)

(** The genes of a genome: its parts in order, each with its rotation. *)
Definition genes (g : genome) : list (face * Qc) :=
  zip (placement g) (rotation g).

(** What a child takes from the parent [donor] after the cut: the genes
    whose part is not among the [kept] ones, from the last gene of the
    donor to its first. *)
Definition filled (kept : list face) (donor : genome) : list (face * Qc) :=
  filter (λ fr : face * Qc, fr.1.1 ∉ shape_ids kept) (reverse (genes donor)).

(** A genome that arranges the parts [ids]: it holds each of them as
    often as [ids] does, with a rotation for every part. *)
Definition arranges (ids : list string) (g : genome) : Prop :=
  shape_ids (placement g) ≡ₚ ids ∧ well_formed g.

(** [lo] and [hi] are the least and the greatest value of [l]. *)
Definition spans (lo hi : Qc) (l : list Qc) : Prop :=
  lo ∈ l ∧ hi ∈ l ∧ Forall (λ v, lo <= v ∧ v <= hi) l.

(** One coordinate of [widen]; the state is [(max, min)]. *)
Definition stretch (st : Qc * Qc) (v : Qc) : Qc * Qc :=
  if decide (st.1 < v) then (v, st.2)
  else if decide (v < st.2) then (st.1, v)
  else st.

(** [total_area] after the loop of [add_objects] over the shapes [l]. *)
Definition total_area_of (l : list shape) : Qc :=
  foldl (λ total s, total + area s) 0 l.

(** A clipper for which a path of fewer than three points simplifies to
    no polygon and the Minkowski sum with an empty path has no polygon,
    and which leaves every other path as it is. *)
Module Strict.
Definition clipper : Pyclipper := {|
  SimplifyPolygon p := if decide (length p < 3)%nat then Some [] else Some [p];
  Area p := polygon_area (of_path p);
  CleanPolygon p _ := Some p;
  OffsetExecute _ _ p _ := [p];
  MinkowskiSum a b :=
    if decide (a = [] ∨ b = []) then [] else Demo.box_sum a b;
|}.
End Strict.

(** [g'] is the genome [g] after an evaluation: the same parts and
    rotations, and a fitness if [g] had one. *)
Definition evaluated_from (g g' : genome) : Prop :=
  placement g' = placement g ∧ rotation g' = rotation g
  ∧ (is_Some (fitness g) → is_Some (fitness g')).

(** Two states of a genetic algorithm with the same configuration, bin
    bounds and bin polygon: they differ in the population at most. *)
Definition same_setup (g g' : ga_t) : Prop :=
  ga_config g' = ga_config g
  ∧ bin_bounds g' = bin_bounds g
  ∧ bin_polygon g' = bin_polygon g.

(** Two states of a nester with the same input: the container with its
    bounds, the shapes with their maximal length, and the
    configuration. *)
Definition same_input (n n' : nester) : Prop :=
  container n' = container n
  ∧ container_bounds n' = container_bounds n
  ∧ shapes n' = shapes n
  ∧ shapes_max_length n' = shapes_max_length n
  ∧ n_config n' = n_config n.

(** The genetic algorithm that the first [run] of a nester [n] creates
    from the container [c]: the configuration of the nester, the width
    and the height of the container as [add_container] measured them,
    and the container with its points offset by the spacing. *)
Definition created_for `{!Pyclipper} (n : nester) (ga : ga_t) : Prop :=
  ∃ c pts,
    container n = Some c
    ∧ polygon_offset (n_config n) (c_points c) (spacing (n_config n)) = Ok pts
    ∧ ga_config ga = n_config n
    ∧ bin_bounds ga = BinBounds (c_width c) (c_height c)
    ∧ bin_polygon ga = Container pts (c_p_id c) (c_width c) (c_height c).

(** A ring that [polygon_offset] cannot offset: it has no point, or the
    offset leaves no polygon. *)
Definition vanishes `{!Pyclipper} (cfg : config) (pts : ring) : Prop :=
  pts = []
  ∨ OffsetExecute 2 (curveTolerance cfg) (to_path pts) (1 * spacing cfg) = [].

(** The faces [run] builds from the shapes [l], before it sorts them:
    the shape at position [i] is paired with the id [str(i)] and has its
    points offset by the spacing. *)
Definition faces_of `{!Pyclipper} (cfg : config) (l : list shape)
    (faces : list face) : Prop :=
  length faces = length l
  ∧ ∀ i sh, l !! i = Some sh →
      ∃ pts, polygon_offset cfg (points sh) (spacing cfg) = Ok pts
           ∧ faces !! i = Some (pretty i, Shape (area sh) (p_id sh) pts).

(** A list of faces in order of decreasing area. *)
Definition by_decreasing_area (faces : list face) : Prop :=
  ∀ i j fi fj, (i ≤ j)%nat →
    faces !! i = Some fi → faces !! j = Some fj → area fj.2 <= area fi.2.


(** A genetic algorithm that is ready for [generation]: its population
    is not empty and has [populationSize] genomes, each of which
    arranges the parts [ids] and carries a fitness. *)
Definition ready (ids : list string) (ga : ga_t) : Prop :=
  population ga ≠ []
  ∧ Z.of_nat (length (population ga)) = populationSize (ga_config ga)
  ∧ Forall (arranges ids) (population ga)
  ∧ Forall (λ g, is_Some (fitness g)) (population ga).

(** * Verification *)

(** ** Reasoning in the monad *)

Lemma returns_ret {S A} (a : A) (s : S) (Q : A → S → Prop) :
  Q a s → returns (ret a) s Q.
Proof. intros HQ. by exists a, s. Qed.

Lemma returns_bind {S A B} (m : M S A) (k : A → M S B) s
    (Q : B → S → Prop) :
  returns m s (λ a s', returns (k a) s' Q) → returns (bind m k) s Q.
Proof.
  intros (a & s' & Hm & b & s'' & Hk & HQ).
  exists b, s''. split; [|done]. unfold bind. by rewrite Hm.
Qed.

Lemma returns_mono {S A} (m : M S A) s (Q Q' : A → S → Prop) :
  returns m s Q → (∀ a s', Q a s' → Q' a s') → returns m s Q'.
Proof. intros (a & s' & Hm & HQ) HQQ'. exists a, s'. eauto. Qed.

Lemma returns_gets {S A} (f : S → A) s (Q : A → S → Prop) :
  Q (f s) s → returns (gets f) s Q.
Proof. intros HQ. by exists (f s), s. Qed.

Lemma returns_modify {S} (f : S → S) s (Q : unit → S → Prop) :
  Q tt (f s) → returns (modify f) s Q.
Proof. intros HQ. by exists tt, (f s). Qed.

Lemma returns_lift_outcome {S A} (o : outcome A) a (s : S) (Q : A → S → Prop) :
  o = Ok a → Q a s → returns (lift_outcome o) s Q.
Proof. intros -> HQ. by exists a, s. Qed.

Lemma omap_M_total {A B} (f : A → outcome B) (g : A → B) l :
  (∀ a, a ∈ l → f a = Ok (g a)) → omap_M f l = Ok (g <$> l).
Proof.
  induction l as [|a l IH]; intros Hf; [done|].
  simpl. rewrite Hf by left. simpl. rewrite IH; [done|].
  intros b Hb. apply Hf. by right.
Qed.

(** ** The shoelace area *)

Lemma cross_antisym p q : cross p q = - cross q p.
Proof. unfold cross. ring. Qed.

Lemma path_sum_cons p l :
  path_sum (p :: l) = from_option (cross p) 0 (head l) + path_sum l.
Proof. destruct l as [|q l]; simpl; [ring | done]. Qed.

Lemma path_sum_snoc l a :
  path_sum (l ++ [a]) = path_sum l + from_option (λ b, cross b a) 0 (last l).
Proof.
  induction l as [|p [|q l] IH].
  - simpl. ring.
  - simpl. ring.
  - change (path_sum ((p :: q :: l) ++ [a]))
      with (cross p q + path_sum ((q :: l) ++ [a])).
    rewrite IH. change (path_sum (p :: q :: l)) with (cross p q + path_sum (q :: l)).
    change (last (p :: q :: l)) with (last (q :: l)). ring.
Qed.

Lemma path_sum_reverse l : path_sum (reverse l) = - path_sum l.
Proof.
  induction l as [|p l IH]; [simpl; ring|].
  rewrite reverse_cons, path_sum_snoc, IH, path_sum_cons, last_reverse.
  destruct (head l) as [q|]; simpl; [rewrite (cross_antisym q p)|]; ring.
Qed.

(** The area is half the sum along the ring plus the closing edge. *)
Lemma polygon_area_closed pts :
  polygon_area pts
  = Q2Qc (1 # 2) * (path_sum pts
      + from_option (λ b, from_option (cross b) 0 (head pts)) 0 (last pts)).
Proof.
  unfold polygon_area. f_equal.
  destruct pts as [|p pts]; [simpl; ring|].
  change (take 1 (p :: pts)) with [p]. by rewrite path_sum_snoc.
Qed.

(** Reversing a ring negates its signed area. *)
Lemma polygon_area_reverse pts : polygon_area (reverse pts) = - polygon_area pts.
Proof.
  rewrite !polygon_area_closed, path_sum_reverse, last_reverse, head_reverse.
  destruct (head pts) as [p|], (last pts) as [q|]; simpl;
    [rewrite (cross_antisym p q)| | |]; ring.
Qed.

Lemma Qcopp_nonpos (a : Qc) : 0 < a → - a <= 0.
Proof.
  intros Ha. apply Qclt_le_weak in Ha. apply Qcopp_le_compat in Ha.
  by replace (- 0) with 0 in Ha by ring.
Qed.

(** [orient] leaves a ring clockwise. *)
Lemma orient_clockwise r : polygon_area (orient r) <= 0.
Proof.
  unfold orient. destruct (decide (0 < polygon_area r)) as [Hpos|Hneg].
  - rewrite polygon_area_reverse. by apply Qcopp_nonpos.
  - by apply Qcnot_lt_le.
Qed.

(** ** [minkowski_difference] and the outer branch of [process_nfp] *)

Section minkowski_facts.
Context `{!Pyclipper}.

Lemma Qc_double_negation (a b : Qc) : a + b * -1 * -1 = a + b.
Proof. ring. Qed.

(** Once a polygon is held, the loop keeps one, of the smallest area
    seen. *)
Lemma select_smallest_run sol p :
  ∃ p', foldl select_smallest (Some (polygon_area p), Some p) sol
        = (Some (polygon_area p'), Some p')
      ∧ (p' = p ∨ p' ∈ of_path <$> sol)
      ∧ polygon_area p' <= polygon_area p
      ∧ ∀ q, q ∈ sol → polygon_area p' <= polygon_area (of_path q).
Proof.
  revert p. induction sol as [|q sol IH]; intros p.
  - exists p. split_and!; [done|by left|apply Qcle_refl|].
    intros q Hq. by apply elem_of_nil in Hq.
  - simpl. unfold select_smallest at 2. simpl.
    destruct (decide (polygon_area (of_path q) < polygon_area p)) as [Hlt|Hge].
    + destruct (IH (of_path q)) as (p' & Hrun & Hin & Hle & Hmin).
      exists p'. split_and!; [done| | |].
      * right. destruct Hin as [->|Hin]; [left|by right].
      * eapply Qcle_trans; [done|]. by apply Qclt_le_weak.
      * intros q' [->|Hq']%elem_of_cons; [done|by apply Hmin].
    + destruct (IH p) as (p' & Hrun & Hin & Hle & Hmin).
      exists p'. split_and!; [done| |done|].
      * destruct Hin as [->|Hin]; [by left|right; by right].
      * intros q' [->|Hq']%elem_of_cons; [|by apply Hmin].
        eapply Qcle_trans; [done|]. by apply Qcnot_lt_le.
Qed.

Lemma select_smallest_nonempty sol :
  sol ≠ [] →
  ∃ q, q ∈ sol
     ∧ foldl select_smallest (None, None) sol
       = (Some (polygon_area (of_path q)), Some (of_path q))
     ∧ ∀ q', q' ∈ sol → polygon_area (of_path q) <= polygon_area (of_path q').
Proof.
  destruct sol as [|q0 sol]; [done|]. intros _. simpl.
  unfold select_smallest at 2. simpl.
  destruct (select_smallest_run sol (of_path q0)) as (p' & Hrun & Hin & Hle & Hmin).
  destruct Hin as [->|(q & -> & Hq)%list_elem_of_fmap].
  - exists q0. split_and!; [by left|done|].
    intros q' [->|Hq']%elem_of_cons; [apply Qcle_refl|by apply Hmin].
  - exists q. split_and!; [by right|done|].
    intros q' [->|Hq']%elem_of_cons; [done|by apply Hmin].
Qed.

Lemma select_smallest_empty :
  foldl select_smallest (None, None) [] = (None, None).
Proof. done. Qed.

Lemma translate_back_some B b0 nfp :
  head B = Some b0 →
  translate_back (negate B) (Some nfp)
  = Ok ((λ v, Point (px v + px b0) (py v + py b0)) <$> nfp).
Proof.
  destruct B as [|b B]; [done|]. intros [= ->]. simpl.
  apply omap_M_total. intros v _. by rewrite !Qc_double_negation.
Qed.

Lemma minkowski_difference_selects A B b0 :
  head B = Some b0 →
  MinkowskiSum (to_path A) (negate B) ≠ [] →
  ∃ p, p ∈ MinkowskiSum (to_path A) (negate B)
     ∧ (∀ q, q ∈ MinkowskiSum (to_path A) (negate B) →
             polygon_area (of_path p) <= polygon_area (of_path q))
     ∧ minkowski_difference A B
       = Ok [(λ v, Point (px v + px b0) (py v + py b0)) <$> of_path p].
Proof.
  intros Hb Hsol.
  destruct (select_smallest_nonempty _ Hsol) as (p & Hp & Hrun & Hmin).
  exists p. split_and!; [done..|].
  unfold minkowski_difference. rewrite Hrun. cbn [snd].
  by rewrite (translate_back_some _ _ _ Hb).
Qed.

(** With no summand polygon, [len(None)] raises. *)
Lemma minkowski_difference_empty A B :
  MinkowskiSum (to_path A) (negate B) = [] →
  minkowski_difference A B = Raise TypeError.
Proof. intros Hsol. unfold minkowski_difference. by rewrite Hsol. Qed.
End minkowski_facts.

Section process_nfp_facts.
Context `{!Pyclipper, !NfpUtls}.

Lemma process_nfp_outer cfg A B key :
  k_inside key = false →
  exploreConcave cfg = false →
  process_nfp cfg (Some (Pair (Some A) B key))
  = (rings <-? minkowski_difference
                (r_points (rotate_polygon A (k_A_rotation key)))
                (r_points (rotate_polygon B (k_B_rotation key))) ;;
     check_outer cfg key (r_points (rotate_polygon A (k_A_rotation key)))
       (Some rings)).
Proof.
  intros Hin Hcfg. unfold process_nfp.
  cbn [pair_A pair_B pair_key obind]. rewrite Hin, Hcfg.
  by destruct (minkowski_difference _ _).
Qed.

(** C1. For an outer pair and [exploreConcave = false], [process_nfp]
    takes its NFP from [minkowski_difference] on the rotated polygons:
    the vertices of [B] are negated, the Minkowski sum of [A] and the
    negated [B] is computed, a summand polygon of algebraically smallest
    signed area is selected, each of its vertices is translated by the
    first vertex of [B], and the result is returned as a one-element
    list, on which the checks of [process_nfp] then run. *)
Theorem process_nfp_outer_is_minkowski_difference cfg A B key b0 :
  let A' := r_points (rotate_polygon A (k_A_rotation key)) in
  let B' := r_points (rotate_polygon B (k_B_rotation key)) in
  let solution := MinkowskiSum (to_path A') (negate B') in
  k_inside key = false →
  exploreConcave cfg = false →
  head B' = Some b0 →
  solution ≠ [] →
  ∃ p, p ∈ solution
     ∧ (∀ q, q ∈ solution →
             polygon_area (of_path p) <= polygon_area (of_path q))
     ∧ let nfp := (λ v, Point (px v + px b0) (py v + py b0)) <$> of_path p in
       minkowski_difference A' B' = Ok [nfp]
       ∧ process_nfp cfg (Some (Pair (Some A) B key))
         = check_outer cfg key A' (Some [nfp]).
Proof.
  intros A' B' solution Hin Hcfg Hb Hsol.
  destruct (minkowski_difference_selects A' B' b0 Hb Hsol) as (p & Hp & Hmin & Hmd).
  exists p. split_and!; [done..|].
  rewrite process_nfp_outer by done. fold A' B'. by rewrite Hmd.
Qed.


End process_nfp_facts.

(** A run of C1 on two rectangles. *)
Lemma process_nfp_outer_is_minkowski_difference_witness :
  ∃ nfp, @minkowski_difference Demo.clipper (Demo.rect 20 10) (Demo.rect 10 10)
         = Ok [nfp].
Proof.
  destruct (@process_nfp_outer_is_minkowski_difference Demo.clipper Demo.utls
              Demo.cfg (Demo.rect 20 10) (Demo.rect 10 10)
              (Key "0" "1" false 0 0) (Demo.pt 0 0))
    as (p & _ & _ & Hmd & _).
  - reflexivity.
  - reflexivity.
  - reflexivity.
  - discriminate.
  - eexists. exact Hmd.
Defined.


(** ** Ingestion: [add_objects] and [add_container] *)

Section ingestion.
Context `{!Pyclipper, !NfpUtls, !PlacementWorker, !Settings, !Random}.

(** The shape built from a cleaned polygon is clockwise, whatever the
    winding of the polygon was. *)
Lemma make_shape_clockwise pts : clockwise (points (make_shape pts)).
Proof. apply orient_clockwise. Qed.

Lemma make_shape_area pts :
  area (make_shape pts) = Qcabs.Qcabs (polygon_area (of_path pts)).
Proof. done. Qed.

(** The loop of [add_objects] only appends to the stored shapes, and
    what it appends is clockwise; this holds too when the loop stops on
    an exception. *)
Lemma add_objects_loop_appends objects total w :
  ∃ new,
    default [] (shapes (self (add_objects_loop objects total w).2))
    = default [] (shapes (self w)) ++ new
    ∧ Forall (λ s, clockwise (points s)) new.
Proof.
  revert total w. induction objects as [|obj objects IH]; intros total w.
  - exists []. by rewrite app_nil_r.
  - cbn [add_objects_loop]. unfold bind at 1, gets at 1.
    destruct (clean_polygon _ obj) as [pts|]; [|exists []; by rewrite app_nil_r].
    unfold bind at 1, update at 1, modify at 1.
    match goal with |- context [add_objects_loop objects ?t ?w'] =>
      destruct (IH t w') as (new & Hnew & Hcw) end.
    exists (make_shape pts :: new). split.
    + rewrite Hnew. cbn. by rewrite <- app_assoc.
    + constructor; [apply make_shape_clockwise | done].
Qed.

(** Every shape [add_objects] stores is clockwise. *)
Lemma add_objects_stores_clockwise objects w :
  ∃ new,
    default [] (shapes (self (add_objects objects w).2))
    = default [] (shapes (self w)) ++ new
    ∧ Forall (λ s, clockwise (points s)) new.
Proof.
  unfold add_objects. unfold bind at 1, update at 1, modify at 1.
  set (w1 := World _ _).
  assert (Hw1 : default [] (shapes (self w1)) = default [] (shapes (self w))).
  { subst w1. cbn [self].
    by destruct (shapes (self w)) as [[|]|] eqn:E; cbn; rewrite ?E. }
  destruct (add_objects_loop_appends objects 0 w1) as (new & Hnew & Hcw).
  exists new. split; [|done]. rewrite <- Hw1, <- Hnew.
  unfold bind.
  destruct (add_objects_loop objects 0 w1) as [[total| |] w2]; cbn [snd]; [|done..].
  by destruct (decide (BIN_HEIGHT = 0)).
Qed.

(** [add_container] stores the cleaned polygon as it comes: there is no
    test of the area and no reversal. *)
Lemma add_container_stores_cleaned c clean w :
  clean_polygon (n_config (self w)) c = Some clean →
  c_points <$> container (self (add_container c w).2) = Some (of_path clean)
  ∨ of_path clean = [].
Proof.
  intros Hclean. unfold add_container. unfold bind at 1, gets at 1.
  rewrite Hclean. destruct (of_path clean) as [|p0 pts] eqn:Hpts; [by right|left].
  destruct (foldl widen _ _) as [[[xmax xmin] ymax] ymin]. done.
Qed.
End ingestion.

(** C2. The container is not stored clockwise: [add_container], given the
    counter-clockwise rectangle of 100 by 50 (which cleaning returns
    unchanged), stores these points in the order given, and their signed
    area is positive. [add_objects] does reverse such a polygon
    ([add_objects_stores_clockwise]). *)
Theorem add_container_keeps_counter_clockwise :
  let w0 := World (@Nester_init Demo.settings None None) (Proc 0 []) in
  let w' := (@add_container Demo.clipper Demo.utls
               (to_path (Demo.rect 100 50)) w0).2 in
  c_points <$> container (self w') = Some (Demo.rect 100 50)
  ∧ 0 < polygon_area (Demo.rect 100 50).
Proof.
  split; [reflexivity|].
  apply (bool_decide_unpack _). vm_compute. exact I.
Qed.

(** The same rectangle given to [add_objects] is stored reversed. *)
Lemma add_objects_reverses_counter_clockwise :
  let w0 := World (@Nester_init Demo.settings None None) (Proc 0 []) in
  let w' := (@add_objects Demo.clipper Demo.settings
               [to_path (Demo.rect 100 50)] w0).2 in
  shapes (self w')
  = Some [Shape (Qcabs.Qcabs (polygon_area (Demo.rect 100 50))) "0"
            (reverse (Demo.rect 100 50))].
Proof. reflexivity. Qed.

(** ** The [random] module *)

Lemma advance_0 p : advance 0 p = p.
Proof. by destruct p. Qed.

Lemma advance_advance j k p : advance j (advance k p) = advance (j + k) p.
Proof. unfold advance. cbn. f_equal. lia. Qed.

Lemma advance_ga_0 s : advance_ga 0 s = s.
Proof. destruct s. unfold advance_ga. cbn. by rewrite advance_0. Qed.

Lemma advance_ga_advance_ga j k s :
  advance_ga j (advance_ga k s) = advance_ga (j + k) s.
Proof. unfold advance_ga. cbn. by rewrite advance_advance. Qed.

Section random_facts.
Context `{!Random}.

Lemma random_random_run p :
  random_random p = (Ok (unit_draw (cursor p)), advance 1 p).
Proof. done. Qed.

Lemma int_draw_range a b c : (a ≤ b)%Z → (a ≤ int_draw a b c ≤ b)%Z.
Proof.
  intros Hab. unfold int_draw.
  pose proof (Z.mod_pos_bound (Z.of_N (draws c)) (b - a + 1)). lia.
Qed.

Lemma random_randint_run a b p :
  (a ≤ b)%Z → random_randint a b p = (Ok (int_draw a b (cursor p)), advance 1 p).
Proof.
  intros Hab. unfold random_randint. by destruct (decide (b < a)%Z); [lia|].
Qed.

Lemma random_randint_empty a b p :
  (b < a)%Z → random_randint a b p = (Raise ValueError, p).
Proof.
  intros Hab. unfold random_randint. by destruct (decide (b < a)%Z); [|lia].
Qed.

Lemma in_proc_run {A} (m : M proc A) s :
  in_proc m s = ((m (ga_proc s)).1, GAState (ga_self s) (m (ga_proc s)).2).
Proof. unfold in_proc, zoom. by destruct (m (ga_proc s)). Qed.
End random_facts.

(** ** Crossover: [mate] *)

Section mate.
Context `{!NfpUtls, !Random}.

Lemma contains_spec gene shape_id :
  contains gene shape_id = true ↔ shape_id ∈ shape_ids gene.
Proof.
  unfold contains, shape_ids. rewrite existsb_exists, list_elem_of_fmap.
  split.
  - intros (f & Hf%list_elem_of_In & Heq%bool_decide_eq_true). by exists f.
  - intros (f & -> & Hf). exists f.
    split; [by apply list_elem_of_In | by apply bool_decide_eq_true].
Qed.

Lemma elem_of_down_range i n : i ∈ down_range n ↔ (i < n)%nat.
Proof. unfold down_range. rewrite elem_of_reverse, elem_of_seq. lia. Qed.

(** A filling loop returns when its indices are in range; it keeps the
    ids distinct, adds exactly the ids of the donor that were missing,
    and appends as many rotations as faces. *)
Lemma fill_from_spec donor idxs gene rot :
  (∀ i, i ∈ idxs → (i < length (placement donor))%nat) →
  (length (placement donor) ≤ length (rotation donor))%nat →
  ∃ gene' rot',
    fill_from donor idxs gene rot = Ok (gene', rot')
    ∧ (NoDup (shape_ids gene) → NoDup (shape_ids gene'))
    ∧ (∀ x, x ∈ shape_ids gene' ↔
            x ∈ shape_ids gene
            ∨ ∃ i f, i ∈ idxs ∧ placement donor !! i = Some f ∧ f.1 = x)
    ∧ (length rot = length gene → length rot' = length gene').
Proof.
  intros Hidx Hlen. revert gene rot Hidx.
  induction idxs as [|i idxs IH]; intros gene rot Hidx.
  - exists gene, rot. split_and!; [done..| |done].
    intros x. split; [by left|]. intros [?|(i & f & []%elem_of_nil & _)]. done.
  - assert (Hi : (i < length (placement donor))%nat) by (apply Hidx; left).
    destruct (lookup_lt_is_Some_2 (placement donor) i Hi) as [f Hf].
    destruct (lookup_lt_is_Some_2 (rotation donor) i ltac:(lia)) as [r Hr].
    cbn [fill_from]. rewrite Hf.
    destruct (contains gene f.1) eqn:Hc.
    + destruct (IH gene rot) as (gene' & rot' & Hrun & Hnd & Hin & Hl).
      { intros j Hj. apply Hidx. by right. }
      exists gene', rot'. split_and!; [done..| |done].
      intros x. rewrite Hin. split.
      * intros [?|(j & g & Hj & Hg & Hx)]; [by left|].
        right. exists j, g. split; [by right|done].
      * intros [?|(j & g & [->|Hj]%elem_of_cons & Hg & Hx)]; [by left| |].
        -- left. apply contains_spec. congruence.
        -- right. by exists j, g.
    + rewrite Hr.
      destruct (IH (gene ++ [f]) (rot ++ [r])) as (gene' & rot' & Hrun & Hnd & Hin & Hl).
      { intros j Hj. apply Hidx. by right. }
      assert (Hf1 : f.1 ∉ shape_ids gene).
      { intros Hin'%contains_spec. congruence. }
      exists gene', rot'. split_and!; [done| | |].
      * intros Hg. apply Hnd. unfold shape_ids. rewrite fmap_app.
        apply NoDup_app. split_and!; [done| |apply NoDup_singleton].
        intros x Hx Hx'%list_elem_of_singleton. simpl in Hx'. by subst.
      * intros x. rewrite Hin. unfold shape_ids. rewrite fmap_app, elem_of_app.
        split.
        -- intros [[?|Hx%list_elem_of_singleton]|(j & g & Hj & Hg & Hx)].
           ++ by left.
           ++ right. exists i, f. split; [by left|done].
           ++ right. exists j, g. split; [by right|done].
        -- intros [?|(j & g & [->|Hj]%elem_of_cons & Hg & Hx)].
           ++ left. by left.
           ++ left. right. apply list_elem_of_singleton. simpl. congruence.
           ++ right. by exists j, g.
      * intros Hrg. apply Hl. rewrite !length_app. simpl. lia.
Qed.

(** Filling from the whole donor adds exactly its missing ids. *)
Lemma fill_from_all donor gene rot :
  (length (placement donor) ≤ length (rotation donor))%nat →
  ∃ gene' rot',
    fill_from donor (down_range (length (placement donor))) gene rot
    = Ok (gene', rot')
    ∧ (NoDup (shape_ids gene) → NoDup (shape_ids gene'))
    ∧ (∀ x, x ∈ shape_ids gene' ↔
            x ∈ shape_ids gene ∨ x ∈ shape_ids (placement donor))
    ∧ (length rot = length gene → length rot' = length gene').
Proof.
  intros Hlen.
  destruct (fill_from_spec donor (down_range (length (placement donor))) gene rot)
    as (gene' & rot' & Hrun & Hnd & Hin & Hl); [|done|].
  { intros i. by rewrite elem_of_down_range. }
  exists gene', rot'. split_and!; [done..| |done].
  intros x. rewrite Hin. apply or_iff_compat_l. unfold shape_ids.
  rewrite list_elem_of_fmap. split.
  - intros (i & f & _ & Hf & <-). exists f. split; [done|].
    by eapply list_elem_of_lookup_2.
  - intros (f & -> & (i & Hi)%list_elem_of_lookup_1). exists i, f.
    split_and!; [|done..]. apply elem_of_down_range. by eapply lookup_lt_Some.
Qed.

(** What [mate] builds for a cut point, for well-formed parents. *)
Lemma mate_at_spec cutpoint male female :
  well_formed male → well_formed female →
  ∃ c1 c2,
    mate_at cutpoint male female = Ok (c1, c2)
    ∧ well_formed c1 ∧ well_formed c2
    ∧ fitness c1 = None ∧ fitness c2 = None
    ∧ (NoDup (shape_ids (placement male)) → NoDup (shape_ids (placement c1)))
    ∧ (NoDup (shape_ids (placement female)) → NoDup (shape_ids (placement c2)))
    ∧ (∀ x, x ∈ shape_ids (placement c1) ↔
            x ∈ shape_ids (take cutpoint (placement male))
            ∨ x ∈ shape_ids (placement female))
    ∧ (∀ x, x ∈ shape_ids (placement c2) ↔
            x ∈ shape_ids (take cutpoint (placement female))
            ∨ x ∈ shape_ids (placement male)).
Proof.
  unfold well_formed. intros Hm Hf. unfold mate_at.
  destruct (fill_from_all female (take cutpoint (placement male))
              (take cutpoint (rotation male)))
    as (g1 & r1 & -> & Hnd1 & Hin1 & Hl1); [lia|].
  destruct (fill_from_all male (take cutpoint (placement female))
              (take cutpoint (rotation female)))
    as (g2 & r2 & -> & Hnd2 & Hin2 & Hl2); [lia|].
  eexists _, _. split; [reflexivity|]. cbn.
  split_and!; [| |done|done| | |done|done].
  - apply Hl1. rewrite !length_take. lia.
  - apply Hl2. rewrite !length_take. lia.
  - intros Hnd. apply Hnd1. unfold shape_ids in *. rewrite fmap_take.
    eapply sublist_NoDup; [done|apply sublist_take].
  - intros Hnd. apply Hnd2. unfold shape_ids in *. rewrite fmap_take.
    eapply sublist_NoDup; [done|apply sublist_take].
Qed.

Lemma shape_ids_take_subseteq n gene x :
  x ∈ shape_ids (take n gene) → x ∈ shape_ids gene.
Proof.
  unfold shape_ids. rewrite fmap_take. intros Hx.
  eapply elem_of_sublist; [done|apply sublist_take].
Qed.

(** With parents over the same distinct ids, a child is a permutation
    of them. *)
Lemma child_is_permutation cutpoint (male female child : list face) :
  NoDup (shape_ids male) →
  NoDup (shape_ids child) →
  shape_ids female ≡ₚ shape_ids male →
  (∀ x, x ∈ shape_ids child ↔
        x ∈ shape_ids (take cutpoint male) ∨ x ∈ shape_ids female) →
  shape_ids child ≡ₚ shape_ids male.
Proof.
  intros Hm Hc Hperm Hin. apply NoDup_Permutation; [done..|].
  intros x. rewrite Hin, Hperm. split; [|by right].
  intros [?%shape_ids_take_subseteq|?]; done.
Qed.

Lemma child_is_permutation' cutpoint (male female child : list face) :
  NoDup (shape_ids male) →
  NoDup (shape_ids child) →
  shape_ids female ≡ₚ shape_ids male →
  (∀ x, x ∈ shape_ids child ↔
        x ∈ shape_ids (take cutpoint female) ∨ x ∈ shape_ids male) →
  shape_ids child ≡ₚ shape_ids male.
Proof.
  intros Hm Hc Hperm Hin. apply NoDup_Permutation; [done..|].
  intros x. rewrite Hin. split; [|by right].
  intros [?%shape_ids_take_subseteq|?]; [by rewrite <- Hperm|done].
Qed.

(** [mate] draws its cut point and returns, when the male has a part. *)
Lemma mate_run male female s :
  placement male ≠ [] →
  mate male female s
  = ((c <-? mate_at (Z.to_nat (int_draw 0 (Z.of_nat (length (placement male)) - 1)
                                 (cursor (ga_proc s)))) male female ;; Ok c),
     advance_ga 1 s).
Proof.
  intros Hne. unfold mate, bind. rewrite in_proc_run, random_randint_run.
  - cbn [fst snd]. unfold lift_outcome.
    by destruct (mate_at _ male female).
  - destruct (placement male); [done|]. cbn [length]. lia.
Qed.

(** Without a part in the male, [randint(0, -1)] raises. *)
Lemma mate_empty male female s :
  placement male = [] → mate male female s = (Raise ValueError, s).
Proof.
  intros He. unfold mate, bind. rewrite in_proc_run, random_randint_empty.
  - by destruct s.
  - rewrite He. cbn. lia.
Qed.

(** C5. For parents whose placement lists are permutations of the same
    distinct shape ids (and whose rotation lists have the length of
    their placement lists), [mate] returns two children as soon as the
    lists are not empty, and each child [mate] returns holds every
    shape id exactly once, with a rotation list of the length of its
    placement list. *)
Theorem mate_children_are_permutations male female s :
  NoDup (shape_ids (placement male)) →
  shape_ids (placement female) ≡ₚ shape_ids (placement male) →
  well_formed male → well_formed female →
  (placement male ≠ [] → ∃ c1 c2 s', mate male female s = (Ok (c1, c2), s'))
  ∧ ∀ c1 c2 s', mate male female s = (Ok (c1, c2), s') →
      shape_ids (placement c1) ≡ₚ shape_ids (placement male)
      ∧ shape_ids (placement c2) ≡ₚ shape_ids (placement male)
      ∧ NoDup (shape_ids (placement c1))
      ∧ NoDup (shape_ids (placement c2))
      ∧ length (rotation c1) = length (placement c1)
      ∧ length (rotation c2) = length (placement c2).
Proof.
  intros Hnd Hperm Hwm Hwf.
  assert (Hndf : NoDup (shape_ids (placement female))) by by rewrite Hperm.
  split.
  - intros Hne. rewrite mate_run by done.
    destruct (mate_at_spec
      (Z.to_nat (int_draw 0 (Z.of_nat (length (placement male)) - 1)
                   (cursor (ga_proc s)))) male female Hwm Hwf)
      as (c1 & c2 & -> & _). by eexists _, _, _.
  - intros c1 c2 s'. destruct (decide (placement male = [])) as [He|Hne].
    { by rewrite mate_empty. }
    rewrite mate_run by done.
    destruct (mate_at_spec
      (Z.to_nat (int_draw 0 (Z.of_nat (length (placement male)) - 1)
                   (cursor (ga_proc s)))) male female Hwm Hwf)
      as (d1 & d2 & -> & Hw1 & Hw2 & _ & _ & Hnd1 & Hnd2 & Hin1 & Hin2).
    intros [= <- <- <-].
    split_and!; [| |by apply Hnd1|by apply Hnd2|done|done].
    + eapply child_is_permutation; [done|by apply Hnd1|done|done].
    + eapply child_is_permutation'; [done|by apply Hnd2|done|done].
Qed.
End mate.

(** A run of C5: two parents over the ids 0, 1 and 2. *)
Lemma mate_children_are_permutations_witness :
  let male := Genome [Demo.f0; Demo.f1; Demo.f2] [0; 0; 0] None in
  let female := Genome [Demo.f2; Demo.f0; Demo.f1] [0; Q2Qc 90; 0] None in
  ∃ c1 c2 s',
    @mate Demo.spread male female (Demo.start []) = (Ok (c1, c2), s')
    ∧ shape_ids (placement c1) ≡ₚ ["0"; "1"; "2"]
    ∧ shape_ids (placement c2) ≡ₚ ["0"; "1"; "2"].
Proof.
  intros male female.
  destruct (@mate_children_are_permutations Demo.spread male female (Demo.start []))
    as [Hret Hperm].
  - by apply (bool_decide_unpack _).
  - cbn. by rewrite (Permutation_cons_append ["0"; "1"] "2").
  - reflexivity.
  - reflexivity.
  - destruct Hret as (c1 & c2 & s' & Hrun); [discriminate|].
    exists c1, c2, s'. split; [done|].
    by destruct (Hperm c1 c2 s' Hrun) as (H1 & H2 & _).
Defined.

(** ** [random_angle] *)

Lemma length_swap {A} (data : list A) i j : length (swap data i j) = length data.
Proof.
  unfold swap. destruct (data !! i), (data !! j); [|done..].
  by rewrite !length_insert.
Qed.

Lemma swap_cons {A} (x : A) data i j :
  swap (x :: data) (S i) (S j) = x :: swap data i j.
Proof. unfold swap. cbn. by destruct (data !! i), (data !! j). Qed.

(** Swapping a position with the next one permutes the list. *)
Lemma swap_next_Permutation {A} (data : list A) i :
  swap data i (i + 1) ≡ₚ data.
Proof.
  revert i. induction data as [|x data IH]; intros i; [done|].
  destruct i as [|i].
  - destruct data as [|y data]; [done|]. cbn. apply perm_swap.
  - cbn [Nat.add]. rewrite swap_cons. by f_equiv.
Qed.

Section random_angle_facts.
Context `{!NfpUtls, !Random}.

Lemma shuffle_loop_run idxs data p :
  shuffle_loop idxs data p
  = (Ok (shuffle_from (cursor p) idxs data), advance (length idxs) p).
Proof.
  revert data p. induction idxs as [|i idxs IH]; intros data p.
  - cbn. by rewrite advance_0.
  - cbn [shuffle_loop shuffle_from length]. unfold bind.
    rewrite random_randint_run by lia. rewrite IH. cbn [cursor advance].
    rewrite advance_advance. do 2 f_equal. lia.
Qed.

Lemma length_shuffle_from c idxs data :
  length (shuffle_from c idxs data) = length data.
Proof.
  revert c data. induction idxs as [|i idxs IH]; intros c data; [done|].
  cbn. by rewrite IH, length_swap.
Qed.

Lemma length_angle_list_of rots : length (angle_list_of rots) = Z.to_nat rots.
Proof. unfold angle_list_of, range. by rewrite length_fmap, length_seq. Qed.

Lemma length_sampled_angles rots c :
  length (sampled_angles rots c) = Z.to_nat rots.
Proof.
  unfold sampled_angles. by rewrite length_shuffle_from, length_angle_list_of.
Qed.

Lemma shuffle_array_run data p :
  shuffle_array data p
  = (Ok (shuffle_from (cursor p) (reverse (seq 1 (length data - 1))) data),
     advance (length data - 1) p).
Proof.
  unfold shuffle_array. rewrite shuffle_loop_run.
  by rewrite length_reverse, length_seq.
Qed.

Lemma last_index_spec rots :
  last_index rots = if decide (0 < Z.to_nat rots)%nat
                    then Some (Z.to_nat rots - 1)%nat else None.
Proof.
  unfold last_index, range. destruct (Z.to_nat rots) as [|n]; [done|].
  rewrite seq_S, last_snoc. cbn. f_equal. lia.
Qed.

(** [random_angle] always returns. When some sampled angle fits, what
    it returns is [angle_list[i]] for the [i] the first loop left
    behind, the last index: the last sampled angle, not the one found
    to fit. *)
Lemma random_angle_run (s : face) st :
  let L := sampled_angles (rotations (ga_config (ga_self st)))
             (cursor (ga_proc st)) in
  random_angle s st
  = (Ok (match List.find (fits (bin_bounds (ga_self st)) s) L with
         | Some _ => default 0 (last L)
         | None => 0
         end),
     advance_ga (Z.to_nat (rotations (ga_config (ga_self st))) - 1) st).
Proof.
  intros L. unfold random_angle, bind at 1, gets at 1.
  unfold bind. rewrite in_proc_run, shuffle_array_run. cbn [fst snd].
  fold (sampled_angles (rotations (ga_config (ga_self st))) (cursor (ga_proc st))).
  fold L. rewrite length_angle_list_of.
  fold (advance_ga (Z.to_nat (rotations (ga_config (ga_self st))) - 1) st).
  destruct (List.find _ L) as [angle|] eqn:Hfind; [|done].
  assert (HL : length L = Z.to_nat (rotations (ga_config (ga_self st)))).
  { apply length_sampled_angles. }
  assert (Hpos : (0 < length L)%nat).
  { apply find_some in Hfind as [Hin _]. destruct L; [done|cbn; lia]. }
  rewrite last_index_spec, <- HL. destruct (decide (0 < length L)%nat); [|lia].
  unfold index. rewrite last_lookup.
  replace (pred (length L)) with (length L - 1)%nat by lia.
  by destruct (lookup_lt_is_Some_2 L (length L - 1) ltac:(lia)) as [a ->].
Qed.
End random_angle_facts.

(** C7. [random_angle] does not return the first sampled angle that fits.
    For a part of 80 by 40 in the bin of 100 by 50 with four rotations,
    when the shuffle leaves the angles in the order 0, 90, 180, 270, the
    first sampled angle whose rotated bounds fit is 0, yet [random_angle]
    returns 270, the last sampled angle, whose rotated bounds (40 by 80)
    do not fit. *)
Theorem random_angle_returns_last_sampled :
  let st := Demo.start [] in
  let s := Demo.part "0" 80 40 in
  let sampled := @sampled_angles Demo.steady 4 0 in
  sampled = [0; Q2Qc 90; Q2Qc 180; Q2Qc 270]
  ∧ List.find (@fits Demo.utls (bin_bounds (ga_self st)) s) sampled = Some 0
  ∧ (@random_angle Demo.utls Demo.steady s st).1 = Ok (Q2Qc 270)
  ∧ @fits Demo.utls (bin_bounds (ga_self st)) s (Q2Qc 270) = false.
Proof.
  intros st s sampled.
  assert (Hs : sampled = [0; Q2Qc 90; Q2Qc 180; Q2Qc 270]).
  { apply (bool_decide_unpack _). vm_compute. exact I. }
  assert (Hfind : List.find (@fits Demo.utls (bin_bounds (ga_self st)) s) sampled
                  = Some 0).
  { rewrite Hs. apply (bool_decide_unpack _). vm_compute. exact I. }
  split_and!; [done|done| |].
  - rewrite (@random_angle_run Demo.utls Demo.steady s st). cbn [fst].
    change (sampled_angles _ _) with sampled. rewrite Hfind, Hs. reflexivity.
  - apply (bool_decide_unpack _). vm_compute. exact I.
Qed.

(** ** [mutate] *)

Lemma length_swap_next {A} (pl : list A) i : length (swap_next pl i) = length pl.
Proof. unfold swap_next. case_decide; [apply length_swap|done]. Qed.

Lemma swap_next_Permutation' {A} (pl : list A) i : swap_next pl i ≡ₚ pl.
Proof. unfold swap_next. case_decide; [apply swap_next_Permutation|done]. Qed.

Section mutate_facts.
Context `{!NfpUtls, !Random}.

Lemma length_mutate_position t c pl i :
  length (mutate_position t c pl i) = length pl.
Proof. unfold mutate_position. case_decide; [apply length_swap_next|done]. Qed.

Lemma mutate_position_Permutation t c pl i : mutate_position t c pl i ≡ₚ pl.
Proof.
  unfold mutate_position. case_decide; [apply swap_next_Permutation'|done].
Qed.

Lemma length_foldl_mutate_position t c idxs pl :
  length (foldl (mutate_position t c) pl idxs) = length pl.
Proof.
  revert pl. induction idxs as [|i idxs IH]; intros pl; [done|].
  cbn. by rewrite IH, length_mutate_position.
Qed.

Lemma foldl_mutate_position_Permutation t c idxs pl :
  foldl (mutate_position t c) pl idxs ≡ₚ pl.
Proof.
  revert pl. induction idxs as [|i idxs IH]; intros pl; [done|].
  cbn. by rewrite IH, mutate_position_Permutation.
Qed.

Lemma length_order_mutation t c pl : length (order_mutation t c pl) = length pl.
Proof. apply length_foldl_mutate_position. Qed.

Lemma order_mutation_Permutation t c pl : order_mutation t c pl ≡ₚ pl.
Proof. apply foldl_mutate_position_Permutation. Qed.

(** The first loop of [mutate] consumes one draw per position. *)
Lemma mutate_swaps_run t c m k pl p :
  cursor p = (c + k)%nat →
  mutate_swaps t (seq k m) pl p
  = (Ok (foldl (mutate_position t c) pl (seq k m)), advance m p).
Proof.
  revert k pl p. induction m as [|m IH]; intros k pl p Hc.
  - cbn. by rewrite advance_0.
  - cbn [seq mutate_swaps foldl]. unfold bind. rewrite random_random_run.
    rewrite (IH (S k)); [|cbn; lia].
    rewrite advance_advance, Hc. unfold mutate_position at 2, swap_next.
    do 2 f_equal. lia.
Qed.

(** [mutate] after its draws: [n] for the positions and one more. *)
Lemma mutate_unfold (g : genome) (st : ga_state) :
  let t := mutation_threshold (ga_config (ga_self st)) in
  let c := cursor (ga_proc st) in
  let n := length (placement g) in
  let pl := order_mutation t c (placement g) in
  mutate g st
  = (if decide (unit_draw (c + n) < t) then
       match last (seq 0 n) with
       | Some i =>
           s <- index pl i ;;
           angle <- random_angle s ;;
           if decide (i < length (rotation g))%nat
           then ret (Genome pl (<[i:=angle]> (rotation g)) None)
           else raise IndexError
       | None => raise UnboundLocalError
       end
     else ret (Genome pl (rotation g) None)) (advance_ga (n + 1) st).
Proof.
  intros t c n pl.
  unfold mutate, bind at 1, gets at 1.
  unfold bind at 1. rewrite in_proc_run.
  rewrite (mutate_swaps_run _ c _ 0) by lia. cbn [fst snd].
  unfold bind at 1. rewrite in_proc_run, random_random_run. cbn [fst snd ga_proc ga_self].
  replace (GAState (ga_self st) (advance 1 (advance (length (placement g)) (ga_proc st))))
    with (advance_ga (n + 1) st)
    by (unfold advance_ga; rewrite advance_advance; do 2 f_equal; lia).
  replace (cursor (advance (length (placement g)) (ga_proc st)))
    with (c + n)%nat by (cbn; lia).
  reflexivity.
Qed.

(** What [mutate] returns, by the draws it makes. *)
Lemma mutate_run (g : genome) (st : ga_state) :
  let t := mutation_threshold (ga_config (ga_self st)) in
  let c := cursor (ga_proc st) in
  let n := length (placement g) in
  let pl := order_mutation t c (placement g) in
  placement g ≠ [] →
  well_formed g →
  pl ≡ₚ placement g
  ∧ if decide (unit_draw (c + n) < t) then
      ∃ s angle st',
        pl !! (n - 1)%nat = Some s
        ∧ random_angle s (advance_ga (n + 1) st) = (Ok angle, st')
        ∧ ga_self st' = ga_self st
        ∧ mutate g st
          = (Ok (Genome pl (<[(n - 1)%nat := angle]> (rotation g)) None), st')
    else
      mutate g st = (Ok (Genome pl (rotation g) None), advance_ga (n + 1) st).
Proof.
  intros t c n pl Hne Hwf. split; [apply order_mutation_Permutation|].
  assert (Hn : (0 < n)%nat).
  { subst n. destruct (placement g); [done|cbn; lia]. }
  pose proof (mutate_unfold g st) as Hrun. cbv zeta in Hrun.
  fold t c n pl in Hrun. rewrite Hrun. clear Hrun.
  destruct (decide (unit_draw (c + n) < t)) as [Hhit|Hmiss]; [|done].
  assert (Hlast : last (seq 0 n) = Some (n - 1)%nat).
  { destruct n as [|n']; [lia|]. rewrite seq_S, last_snoc. f_equal. lia. }
  rewrite Hlast.
  destruct (lookup_lt_is_Some_2 pl (n - 1)) as [s Hs].
  { subst pl. rewrite length_order_mutation. lia. }
  exists s.
  pose proof (random_angle_run s (advance_ga (n + 1) st)) as Hra.
  cbv zeta in Hra. eexists _, _. split; [done|]. split; [exact Hra|].
  split; [done|].
  unfold bind, index. rewrite Hs. unfold ret at 1. rewrite Hra.
  destruct (decide (n - 1 < length (rotation g))%nat) as [|Hge]; [done|].
  unfold well_formed in Hwf. lia.
Qed.

(** [mutate] returns, leaves the stored population alone, and what it
    returns has a part and as many rotations as parts. *)
Lemma mutate_returns g st :
  placement g ≠ [] → well_formed g →
  ∃ g' k, mutate g st = (Ok g', advance_ga k st)
        ∧ placement g' ≠ [] ∧ well_formed g'.
Proof.
  intros Hne Hwf. destruct (mutate_run g st Hne Hwf) as [Hperm Hrun].
  assert (Hlen : length (order_mutation
                   (mutation_threshold (ga_config (ga_self st)))
                   (cursor (ga_proc st)) (placement g))
                 = length (placement g)) by apply length_order_mutation.
  assert (Hpl : order_mutation (mutation_threshold (ga_config (ga_self st)))
                  (cursor (ga_proc st)) (placement g) ≠ []).
  { intros He. rewrite He in Hlen. destruct (placement g); done. }
  destruct (decide _) as [Hhit|Hmiss].
  - destruct Hrun as (s & angle & st' & _ & Hra & _ & ->).
    rewrite random_angle_run in Hra. injection Hra as _ <-.
    rewrite advance_ga_advance_ga. eexists _, _. split; [done|].
    split; [done|]. unfold well_formed in *. cbn.
    by rewrite length_insert, Hlen.
  - rewrite Hrun. eexists _, _. split; [done|]. split; [done|].
    unfold well_formed in *. cbn. by rewrite Hlen.
Qed.

(** C8. For a genome with a non-empty placement list (and a rotation
    list of the same length), [mutate] makes an order mutation in which
    every position, on its own draw, is swapped with the next position
    when the draw is below [0.01 × mutationRate]; on one more draw
    below that threshold it replaces one rotation entry, the last, by
    what [random_angle] returns for the part then in the last position.
    The placement list is only permuted, no other rotation entry
    changes, and the genome given is not touched. *)
Theorem mutate_spec (g : genome) (st : ga_state) :
  let t := mutation_threshold (ga_config (ga_self st)) in
  let c := cursor (ga_proc st) in
  let n := length (placement g) in
  let pl := order_mutation t c (placement g) in
  placement g ≠ [] →
  well_formed g →
  pl ≡ₚ placement g
  ∧ if decide (unit_draw (c + n) < t) then
      ∃ s angle st',
        pl !! (n - 1)%nat = Some s
        ∧ random_angle s (advance_ga (n + 1) st) = (Ok angle, st')
        ∧ ga_self st' = ga_self st
        ∧ mutate g st
          = (Ok (Genome pl (<[(n - 1)%nat := angle]> (rotation g)) None), st')
    else
      mutate g st = (Ok (Genome pl (rotation g) None), advance_ga (n + 1) st).
Proof. apply mutate_run. Qed.
End mutate_facts.

(** A run of C8: the draws 1/4, 1/2, 3/4, 0 against the threshold 1/2. *)
Lemma mutate_spec_witness :
  let g := Genome [Demo.f0; Demo.f1; Demo.f2] [0; 0; 0] None in
  ∃ angle st',
    @mutate Demo.utls Demo.spread g (Demo.start [])
    = (Ok (Genome [Demo.f1; Demo.f0; Demo.f2] [0; 0; angle] None), st').
Proof.
  intros g.
  destruct (@mutate_spec Demo.utls Demo.spread g (Demo.start []))
    as [_ Hrun]; [discriminate|reflexivity|].
  destruct (decide _) as [Hhit|Hmiss] in Hrun.
  - destruct Hrun as (s & angle & st' & _ & _ & _ & Hrun).
    exists angle, st'. exact Hrun.
  - exfalso. apply Hmiss. apply (bool_decide_unpack _). vm_compute. exact I.
Defined.

(** ** Parent selection: [random_weighted_individual] *)

Lemma bind_ok {S A B} (m : M S A) (k : A → M S B) s a s' :
  m s = (Ok a, s') → bind m k s = k a s'.
Proof. intros Hm. unfold bind. by rewrite Hm. Qed.

Lemma bind_raise {S A B} (m : M S A) (k : A → M S B) s e s' :
  m s = (Raise e, s') → bind m k s = (Raise e, s').
Proof. intros Hm. unfold bind. by rewrite Hm. Qed.

Lemma remove_first_sublist `{EqDecision A} (x : A) l :
  remove_first x l `sublist_of` l.
Proof.
  induction l as [|y l IH]; [done|]. cbn.
  case_decide; [by apply sublist_cons|by apply sublist_skip].
Qed.

Lemma length_remove_first `{EqDecision A} (x : A) l :
  x ∈ l → S (length (remove_first x l)) = length l.
Proof.
  induction l as [|y l IH]; [by intros ?%elem_of_nil|].
  intros Hx. cbn. case_decide as Hxy; [done|].
  apply elem_of_cons in Hx as [?|Hx]; [done|]. cbn. by rewrite IH.
Qed.

Lemma set_population_id g : set_population (population g) g = g.
Proof. by destruct g. Qed.

Section selection.
Context `{!NfpUtls, !Random}.

Lemma weighted_pick_elem_of rand weight pop_len i lower upper rest g :
  weighted_pick rand weight pop_len i lower upper rest = Some g → g ∈ rest.
Proof.
  revert i lower upper. induction rest as [|h rest IH]; intros i lower upper; [done|].
  cbn. destruct (_ && _).
  - intros [= ->]. by left.
  - intros Hg. right. by eapply IH.
Qed.

Lemma random_weighted_individual_unfold exclude st :
  (∀ ex, exclude = Some ex → ex ∈ population (ga_self st)) →
  random_weighted_individual exclude st
  = (selected (cursor (ga_proc st))
       (after_exclude exclude (population (ga_self st))),
     selection_state exclude st).
Proof.
  intros Hex. unfold random_weighted_individual.
  unfold bind at 1, get_population at 1, gets at 1.
  set (pop := population (ga_self st)).
  assert (Hstep :
    (match exclude with
     | Some ex =>
         if decide (ex ∈ pop)
         then put_population (remove_first ex pop) ;;; ret (remove_first ex pop)
         else raise ValueError
     | None => ret pop
     end) st
    = (Ok (after_exclude exclude pop),
       GAState (set_population (after_exclude exclude pop) (ga_self st))
         (ga_proc st))).
  { destruct exclude as [ex|]; cbn.
    - rewrite decide_True by by apply Hex. done.
    - unfold ret. subst pop. rewrite set_population_id. by destruct st. }
  rewrite (bind_ok _ _ _ _ _ Hstep). clear Hstep.
  unfold bind at 1. rewrite in_proc_run, random_random_run. cbn [fst snd ga_self ga_proc].
  unfold selection_state, selected. fold pop.
  destruct (after_exclude exclude pop) as [|g0 rest]; [done|].
  cbv zeta. by destruct (weighted_pick _ _ _ _ _ _ _).
Qed.

Lemma selected_elem_of c pop g : selected c pop = Ok g → g ∈ pop.
Proof.
  unfold selected. destruct pop as [|g0 rest]; [done|]. cbv zeta.
  destruct (weighted_pick _ _ _ _ _ _ _) as [g'|] eqn:Hpick; intros [= <-].
  - by eapply weighted_pick_elem_of.
  - by left.
Qed.

Lemma selected_nonempty c pop : pop ≠ [] → ∃ g, selected c pop = Ok g.
Proof. destruct pop; [done|]. intros _. by eexists. Qed.

Lemma random_weighted_individual_run exclude st :
  (∀ ex, exclude = Some ex → ex ∈ population (ga_self st)) →
  after_exclude exclude (population (ga_self st)) ≠ [] →
  ∃ g, g ∈ after_exclude exclude (population (ga_self st))
     ∧ random_weighted_individual exclude st
       = (Ok g, selection_state exclude st).
Proof.
  intros Hex Hne. rewrite random_weighted_individual_unfold by done.
  destruct (selected_nonempty (cursor (ga_proc st)) _ Hne) as [g Hg].
  exists g. split; [by eapply selected_elem_of|]. by rewrite Hg.
Qed.

(** Without [exclude] the stored population is left as it is. *)
Lemma random_weighted_individual_keeps st :
  population (ga_self (random_weighted_individual None st).2)
  = population (ga_self st).
Proof. by rewrite random_weighted_individual_unfold. Qed.

(** C10. A call of [random_weighted_individual] with an [exclude] that
    is in the population removes it from the stored population: after
    the call, whatever its outcome, [self.population] is the list
    without the first genome equal to [exclude], one genome shorter. *)
Theorem random_weighted_individual_removes_exclude ex st :
  ex ∈ population (ga_self st) →
  population (ga_self (random_weighted_individual (Some ex) st).2)
  = remove_first ex (population (ga_self st))
  ∧ S (length (population (ga_self (random_weighted_individual (Some ex) st).2)))
    = length (population (ga_self st)).
Proof.
  intros Hex.
  rewrite random_weighted_individual_unfold by by intros ? [= <-].
  cbn. split; [done|]. by apply length_remove_first.
Qed.
End selection.

(** A run of C10: the male is gone from the stored population. *)
Lemma random_weighted_individual_removes_exclude_witness :
  let male := Genome [Demo.f0; Demo.f1] [0; 0] (Some 1) in
  let other := Genome [Demo.f1; Demo.f0] [0; 0] (Some 2) in
  population (ga_self (@random_weighted_individual Demo.spread (Some male)
                         (Demo.start [male; other])).2)
  = [other].
Proof.
  intros male other.
  destruct (@random_weighted_individual_removes_exclude Demo.spread male
              (Demo.start [male; other])) as [Hpop _].
  - by left.
  - rewrite Hpop. cbn. by rewrite decide_True.
Defined.

(** ** [generation] *)

Section sorting.
Context {A : Type} (k : A → Qc).

Lemma insert_by_Permutation a l : insert_by k a l ≡ₚ a :: l.
Proof.
  induction l as [|h t IH]; [done|]. cbn. case_decide; [done|].
  rewrite IH. apply perm_swap.
Qed.

Lemma sorted_by_Permutation l : sorted_by k l ≡ₚ l.
Proof.
  induction l as [|a l IH]; [done|]. cbn.
  by rewrite insert_by_Permutation, IH.
Qed.

Lemma insert_by_head_least a l : head_least k l → head_least k (insert_by k a l).
Proof.
  destruct l as [|h t]; intros Hl x.
  - cbn. intros [= <-] y ->%list_elem_of_singleton. apply Qcle_refl.
  - cbn. case_decide as Hah; cbn; intros [= <-] y Hy.
    + apply elem_of_cons in Hy as [->|Hy]; [apply Qcle_refl|].
      eapply Qcle_trans; [exact Hah|]. by apply Hl.
    + rewrite insert_by_Permutation in Hy.
      apply elem_of_cons in Hy as [->|[->|Hy]%elem_of_cons].
      * apply Qcle_refl.
      * apply Qclt_le_weak. by apply Qcnot_le_lt.
      * apply Hl; [done|by right].
Qed.

Lemma sorted_by_head_least l : head_least k (sorted_by k l).
Proof.
  induction l as [|a l IH]; [by intros x|]. by apply insert_by_head_least.
Qed.
End sorting.

Lemma decorated_keys {A} (k : A → Qc) l :
  Forall (λ p : Qc * A, p.1 = k p.2) (sorted_by fst ((λ a, (k a, a)) <$> l)).
Proof.
  rewrite sorted_by_Permutation. apply Forall_fmap, Forall_forall. done.
Qed.

Lemma insert_by_decorated {A} (k : A → Qc) a (d : list (Qc * A)) :
  Forall (λ p, p.1 = k p.2) d →
  snd <$> insert_by fst (k a, a) d = insert_by k a (snd <$> d).
Proof.
  intros Hd. induction Hd as [|[q b] d Hq Hd IH]; [done|].
  cbn in *. subst q. case_decide; [done|]. cbn. by rewrite IH.
Qed.

(** Sorting the pairs of key and element and dropping the keys is sorting
    the elements by their key. *)
Lemma sorted_by_decorated {A} (k : A → Qc) l :
  snd <$> sorted_by fst ((λ a, (k a, a)) <$> l) = sorted_by k l.
Proof.
  induction l as [|a l IH]; [done|]. cbn. rewrite <- IH.
  apply insert_by_decorated, decorated_keys.
Qed.

Section generation_facts.
Context `{!NfpUtls, !Random}.

Lemma fitness_keys_run pop :
  Forall (λ g, is_Some (fitness g)) pop →
  fitness_keys pop = Ok ((λ g, (fitness_key g, g)) <$> pop).
Proof.
  intros Hfit. apply omap_M_total. intros g Hg.
  rewrite Forall_forall in Hfit. destruct (Hfit g Hg) as [f Hf].
  unfold fitness_key. by rewrite Hf.
Qed.

Lemma generation_loop_unfold fuel size new_population :
  generation_loop fuel size new_population
  = if decide (Z.of_nat (length new_population) < size)%Z then
      match fuel with
      | O => diverge
      | S fuel' =>
          male <- random_weighted_individual None ;;
          female <- random_weighted_individual (Some male) ;;
          children <- mate male female ;;
          m0 <- mutate children.1 ;;
          let new_population := new_population ++ [m0] in
          if decide (Z.of_nat (length new_population) < size)%Z then
            m1 <- mutate children.2 ;;
            generation_loop fuel' size (new_population ++ [m1])
          else generation_loop fuel' size new_population
      end
    else ret new_population.
Proof. by destruct fuel. Qed.

(** The children of viable parents are viable. *)
Lemma mate_viable male female st :
  viable male → viable female →
  ∃ c1 c2, mate male female st = (Ok (c1, c2), advance_ga 1 st)
         ∧ viable c1 ∧ viable c2.
Proof.
  intros [Hm Hwm] [Hf Hwf]. rewrite mate_run by done.
  destruct (mate_at_spec
    (Z.to_nat (int_draw 0 (Z.of_nat (length (placement male)) - 1)
                 (cursor (ga_proc st)))) male female Hwm Hwf)
    as (c1 & c2 & -> & Hw1 & Hw2 & _ & _ & _ & _ & Hin1 & Hin2).
  exists c1, c2. split; [done|]. split; (split; [|done]).
  - destruct (placement female) as [|f fs] eqn:Hpf; [done|].
    intros Hc1. specialize (Hin1 f.1). rewrite Hc1 in Hin1.
    apply (elem_of_nil f.1), Hin1. right. by left.
  - destruct (placement male) as [|f fs] eqn:Hpm; [done|].
    intros Hc2. specialize (Hin2 f.1). rewrite Hc2 in Hin2.
    apply (elem_of_nil f.1), Hin2. right. by left.
Qed.

(** The loop of [generation] returns: it never raises and never runs
    out of fuel, it only appends, and it stops at [size] genomes. *)
Lemma generation_loop_run fuel size new_population st :
  Forall viable (population (ga_self st)) →
  (size ≤ Z.of_nat fuel + Z.of_nat (length new_population))%Z →
  ((Z.of_nat (length new_population) < size)%Z →
   (2 * size + 1 ≤ 2 * Z.of_nat (length (population (ga_self st)))
                   + Z.of_nat (length new_population))%Z) →
  ∃ more st',
    generation_loop fuel size new_population st
    = (Ok (new_population ++ more), st')
    ∧ ((Z.of_nat (length new_population) ≤ size)%Z →
       Z.of_nat (length (new_population ++ more)) = size)
    ∧ Forall viable more
    ∧ population (ga_self st') `sublist_of` population (ga_self st).
Proof.
  revert new_population st.
  induction fuel as [|fuel IH]; intros new_population st Hv Hfuel Hinv;
    rewrite generation_loop_unfold;
    (destruct (decide (Z.of_nat (length new_population) < size)%Z) as [Hlt|Hge];
     [|exists [], st; rewrite app_nil_r; split_and!; [done|lia|done|done]]).
  { lia. }
  specialize (Hinv Hlt).
  set (pop := population (ga_self st)) in *.
  assert (Hpop : (2 ≤ length pop)%nat) by lia.
  (* male *)
  destruct (random_weighted_individual_run None st) as (male & Hmale & Hrun1).
  { done. }
  { cbn. fold pop. destruct pop; [cbn in Hpop; lia|done]. }
  cbn [after_exclude] in Hmale. fold pop in Hmale.
  rewrite (bind_ok _ _ _ _ _ Hrun1). clear Hrun1.
  set (st1 := selection_state None st).
  assert (Hpop1 : population (ga_self st1) = pop) by done.
  (* female *)
  destruct (random_weighted_individual_run (Some male) st1)
    as (female & Hfemale & Hrun2).
  { intros ? [= <-]. exact Hmale. }
  { rewrite Hpop1. cbn [after_exclude].
    pose proof (length_remove_first male pop Hmale).
    destruct (remove_first male pop); [cbn in *; lia|done]. }
  rewrite Hpop1 in Hfemale. cbn [after_exclude] in Hfemale.
  rewrite (bind_ok _ _ _ _ _ Hrun2). clear Hrun2.
  set (st2 := selection_state (Some male) st1).
  assert (Hpop2 : population (ga_self st2) = remove_first male pop).
  { done. }
  assert (Hfemale' : female ∈ pop).
  { eapply elem_of_sublist; [done|apply remove_first_sublist]. }
  rewrite Forall_forall in Hv.
  (* children *)
  destruct (mate_viable male female st2) as (c1 & c2 & Hrun3 & Hc1 & Hc2);
    [by apply Hv..|].
  rewrite (bind_ok _ _ _ _ _ Hrun3). clear Hrun3. cbn [fst snd].
  destruct Hc1 as [Hne1 Hw1], Hc2 as [Hne2 Hw2].
  destruct (mutate_returns c1 (advance_ga 1 st2) Hne1 Hw1)
    as (m0 & k0 & Hrun4 & Hm0).
  rewrite (bind_ok _ _ _ _ _ Hrun4). clear Hrun4. cbv zeta.
  rewrite advance_ga_advance_ga.
  assert (Hsub : remove_first male pop `sublist_of` pop)
    by apply remove_first_sublist.
  assert (Hv' : Forall viable (remove_first male pop)).
  { apply Forall_forall. intros g Hg. apply Hv. by eapply elem_of_sublist. }
  pose proof (length_remove_first male pop Hmale) as Hlen.
  destruct (decide (Z.of_nat (length (new_population ++ [m0])) < size)%Z)
    as [Hlt'|Hge'].
  - destruct (mutate_returns c2 (advance_ga (k0 + 1) st2) Hne2 Hw2)
      as (m1 & k1 & Hrun5 & Hm1).
    rewrite (bind_ok _ _ _ _ _ Hrun5). clear Hrun5.
    rewrite advance_ga_advance_ga.
    destruct (IH ((new_population ++ [m0]) ++ [m1]) (advance_ga (k1 + (k0 + 1)) st2))
      as (more & st' & Hrun & Hsize & Hmore & Hsub').
    { cbn [advance_ga ga_self]. by rewrite Hpop2. }
    { rewrite !length_app in *. cbn [length] in *. lia. }
    { intros _. cbn [advance_ga ga_self]. rewrite Hpop2.
      rewrite !length_app in *. cbn [length] in *. lia. }
    exists (m0 :: m1 :: more), st'. split_and!.
    + rewrite Hrun. by rewrite <- !app_assoc.
    + intros _. rewrite <- Hsize.
      * by rewrite <- !app_assoc.
      * rewrite !length_app in *. cbn [length] in *. lia.
    + constructor; [exact Hm0|]. constructor; [exact Hm1|done].
    + etrans; [exact Hsub'|]. cbn [advance_ga ga_self]. by rewrite Hpop2.
  - destruct (IH (new_population ++ [m0]) (advance_ga (k0 + 1) st2))
      as (more & st' & Hrun & Hsize & Hmore & Hsub').
    { cbn [advance_ga ga_self]. by rewrite Hpop2. }
    { rewrite !length_app in *. cbn [length] in *. lia. }
    { lia. }
    exists (m0 :: more), st'. split_and!.
    + rewrite Hrun. by rewrite <- !app_assoc.
    + intros _. rewrite <- Hsize.
      * by rewrite <- !app_assoc.
      * rewrite !length_app in *. cbn [length] in *. lia.
    + constructor; [exact Hm0|done].
    + etrans; [exact Hsub'|]. cbn [advance_ga ga_self]. by rewrite Hpop2.
Qed.

(** C6. For a population in which every genome carries a fitness (and
    which has [populationSize] genomes, each with a part and as many
    rotations as parts, as the constructor and [generation] leave it),
    [generation] returns, and the new population starts with a genome
    of the previous population of the lowest fitness, as it was, and
    has exactly [populationSize] genomes. *)
Theorem generation_keeps_best_and_size st :
  let pop := population (ga_self st) in
  let size := populationSize (ga_config (ga_self st)) in
  Forall (λ g, is_Some (fitness g)) pop →
  Forall viable pop →
  pop ≠ [] →
  Z.of_nat (length pop) = size →
  ∃ best rest st',
    generation st = (Ok tt, st')
    ∧ population (ga_self st') = best :: rest
    ∧ Z.of_nat (length (best :: rest)) = size
    ∧ best ∈ pop
    ∧ (∃ f, fitness best = Some f
          ∧ ∀ g fg, g ∈ pop → fitness g = Some fg → f <= fg)
    ∧ Forall viable (best :: rest).
Proof.
  intros pop size Hfit Hv Hne Hsize.
  set (sorted := sorted_by fitness_key pop).
  assert (Hperm : sorted ≡ₚ pop) by apply sorted_by_Permutation.
  destruct sorted as [|best others] eqn:Hsorted.
  { apply Permutation_nil_l in Hperm. by rewrite <- Hperm in Hne. }
  assert (Hbest : best ∈ pop).
  { rewrite <- Hperm. by left. }
  assert (Hleast : ∀ g, g ∈ pop → fitness_key best <= fitness_key g).
  { intros g Hg. pose proof (sorted_by_head_least fitness_key pop) as Hl.
    fold sorted in Hl. rewrite Hsorted in Hl. apply (Hl best eq_refl).
    by rewrite Hperm. }
  set (st1 := GAState (set_population (best :: others) (ga_self st)) (ga_proc st)).
  destruct (generation_loop_run (Z.to_nat size) size [best] st1)
    as (more & st2 & Hloop & Hlen & Hmore & _).
  { change (population (ga_self st1)) with (best :: others). by rewrite Hperm. }
  { cbn [length]. lia. }
  { intros _. change (population (ga_self st1)) with (best :: others).
    rewrite Hperm. cbn [length]. lia. }
  exists best, more,
    (GAState (set_population (best :: more) (ga_self st2))
       (Proc (cursor (ga_proc st2))
          (stdout (ga_proc st2) ++ [Report "new :" (best :: more)]))).
  split_and!.
  - unfold generation. unfold bind at 1, get_population at 1, gets at 1.
    fold pop. unfold bind at 1, lift_outcome at 1.
    rewrite fitness_keys_run by done.
    rewrite sorted_by_decorated. fold sorted. rewrite Hsorted.
    unfold bind at 1, put_population at 1, modify at 1.
    fold st1. unfold bind at 1, index at 1. cbn [lookup list_lookup ret].
    unfold bind at 1, gets at 1. cbn [ga_self st1 set_population ga_config].
    fold size. rewrite (bind_ok _ _ _ _ _ Hloop).
    unfold bind at 1. rewrite in_proc_run. cbn [fst snd print modify].
    reflexivity.
  - done.
  - apply Hlen. apply Permutation_length in Hperm. cbn [length] in *. lia.
  - done.
  - rewrite Forall_forall in Hfit. destruct (Hfit best Hbest) as [f Hf].
    exists f. split; [done|]. intros g fg Hg Hfg.
    specialize (Hleast g Hg). unfold fitness_key in Hleast.
    by rewrite Hf, Hfg in Hleast.
  - constructor; [|done]. rewrite Forall_forall in Hv. by apply Hv.
Qed.
End generation_facts.

(** A run of C6: three genomes with the fitnesses 3, 1 and 2. *)
Lemma generation_keeps_best_and_size_witness :
  let g1 := Genome [Demo.f0; Demo.f1; Demo.f2] [0; 0; 0] (Some (Q2Qc 3)) in
  let g2 := Genome [Demo.f1; Demo.f0; Demo.f2] [0; 0; 0] (Some 1) in
  let g3 := Genome [Demo.f2; Demo.f1; Demo.f0] [0; 0; 0] (Some 2) in
  ∃ best rest st',
    @generation Demo.utls Demo.spread (Demo.start [g1; g2; g3]) = (Ok tt, st')
    ∧ population (ga_self st') = best :: rest
    ∧ length (best :: rest) = 3%nat
    ∧ best ∈ [g1; g2; g3].
Proof.
  intros g1 g2 g3.
  destruct (@generation_keeps_best_and_size Demo.utls Demo.spread
              (Demo.start [g1; g2; g3]))
    as (best & rest & st' & Hrun & Hpop & Hlen & Hbest & _).
  - repeat constructor; by eexists.
  - repeat constructor; discriminate.
  - discriminate.
  - reflexivity.
  - exists best, rest, st'. split_and!; [done|done| |done].
    change (populationSize _) with 3%Z in Hlen. lia.
Defined.

(** ** The constructor of [genetic_algorithm] *)

Section genetic_algorithm_facts.
Context `{!NfpUtls, !Random}.

(** The first loop of the constructor: one angle for each part. *)
Lemma map_M_random_angle_run (adam : list face) st :
  ∃ angles k,
    map_M random_angle adam st = (Ok angles, advance_ga k st)
    ∧ length angles = length adam.
Proof.
  revert st. induction adam as [|s adam IH]; intros st.
  - exists [], 0%nat. by rewrite advance_ga_0.
  - cbn [map_M]. erewrite bind_ok by apply random_angle_run.
    destruct (IH (advance_ga
                    (Z.to_nat (rotations (ga_config (ga_self st))) - 1) st))
      as (angles & k & Hrun & Hlen).
    erewrite bind_ok by exact Hrun. rewrite advance_ga_advance_ga.
    eexists _, _. split; [reflexivity|]. cbn. by rewrite Hlen.
Qed.

(** The second loop of the constructor appends one mutant of the first
    genome at every turn. *)
Lemma genetic_algorithm_loop {A} (turns : list A) st :
  population (ga_self st) ≠ [] →
  Forall viable (population (ga_self st)) →
  ∃ st',
    for_each turns
      (λ _, pop <- get_population ;;
            first <- index pop 0 ;;
            mutant <- mutate first ;;
            pop <- get_population ;;
            put_population (pop ++ [mutant])) st = (Ok tt, st')
    ∧ length (population (ga_self st'))
      = (length (population (ga_self st)) + length turns)%nat
    ∧ Forall viable (population (ga_self st'))
    ∧ ga_config (ga_self st') = ga_config (ga_self st).
Proof.
  revert st. induction turns as [|a turns IH]; intros st Hne Hall.
  - exists st. cbn. split_and!; [done|lia|done|done].
  - destruct (population (ga_self st)) as [|g pop] eqn:Hpop; [done|].
    apply Forall_cons in Hall as Hg. destruct Hg as [[Hg1 Hg2] _].
    destruct (mutate_returns g st Hg1 Hg2) as (g' & k & Hmut & Hg1' & Hg2').
    set (st1 := GAState (set_population ((g :: pop) ++ [g']) (ga_self st))
                  (ga_proc (advance_ga k st))).
    destruct (IH st1) as (st' & Hrun & Hlen & Hall' & Hcfg).
    { done. }
    { cbn. apply Forall_cons. split; [by apply Forall_cons in Hall as [? _]|].
      apply Forall_app. split; [by apply Forall_cons in Hall as [_ ?]|].
      by apply Forall_singleton. }
    exists st'. split_and!; [|cbn in Hlen; rewrite Hlen, length_app; cbn; lia
                            |done|by rewrite Hcfg].
    cbn [for_each]. unfold bind at 1.
    unfold bind at 1, get_population at 1, gets at 1. rewrite Hpop.
    unfold bind at 1, index at 1. cbn [lookup list_lookup ret].
    unfold bind at 1. rewrite Hmut.
    unfold bind at 1, get_population at 1, gets at 1.
    unfold put_population, modify. cbn [ga_self advance_ga]. rewrite Hpop.
    exact Hrun.
Qed.

(** The constructor returns, and leaves a population of
    [populationSize] genomes that each have a part and as many
    rotations as parts: what [generation] and [mate] rely on. *)
Lemma genetic_algorithm_population adam bin_polygon cfg p :
  adam ≠ [] →
  (1 <= populationSize cfg)%Z →
  ∃ ga p',
    genetic_algorithm adam bin_polygon cfg p = (Ok ga, p')
    ∧ Z.of_nat (length (population ga)) = populationSize cfg
    ∧ Forall viable (population ga)
    ∧ ga_config ga = cfg.
Proof.
  intros Hne Hsize. unfold genetic_algorithm.
  set (self := GeneticAlgorithm _ cfg bin_polygon []).
  destruct (map_M_random_angle_run adam (GAState self p))
    as (angles & k & Hangles & Hlen).
  set (seed := Genome adam angles None).
  set (st1 := GAState (set_population [seed] self) (advance k p)).
  destruct (genetic_algorithm_loop
              (seq 1 (Z.to_nat (populationSize cfg) - 1)) st1)
    as (st' & Hrun & Hlen' & Hall & Hcfg).
  { done. }
  { apply Forall_singleton. split; [done|]. exact Hlen. }
  assert (Hinit : genetic_algorithm_init adam bin_polygon cfg (GAState self p)
                  = (Ok tt, st')).
  { unfold genetic_algorithm_init. erewrite bind_ok by exact Hangles.
    unfold bind at 1, put_population at 1, modify at 1. exact Hrun. }
  rewrite Hinit. exists (ga_self st'), (ga_proc st').
  split_and!; [done| |done|by rewrite Hcfg].
  rewrite Hlen', length_seq. cbn. lia.
Qed.
End genetic_algorithm_facts.

(** ** The NFP cache: [find_fitness] and [generate_nfp] *)

Section jobs.
Context `{!Pyclipper, !NfpUtls, !PlacementWorker}.

Implicit Types (cache nc : gmap nfp_key (option nfp_value)).
Implicit Types (st : list nfp_pair * gmap nfp_key (option nfp_value)).

Lemma collect_pairs_jobs cache cont before rest st :
  collect_pairs cache cont before rest st
  = foldl (run_job cache) st (jobs_of cont before rest).
Proof.
  revert before st. induction rest as [|part rest IH]; intros before st; [done|].
  cbn [collect_pairs jobs_of foldl]. rewrite foldl_app, IH. f_equal.
  rewrite foldl_fmap. done.
Qed.

Lemma run_job_consistent cache keys st j :
  keys j.2 → consistent cache keys st → consistent cache keys (run_job cache st j).
Proof.
  intros Hj [Hp Hc]. unfold run_job, lookup_or_enqueue.
  destruct (cache !! j.2) as [v|] eqn:Hv; split; cbn.
  - done.
  - intros k v'. rewrite lookup_insert. case_decide as Hk.
    + intros [= <-]. by subst k.
    + by apply Hc.
  - intros pr [Hpr|Hpr%list_elem_of_singleton]%elem_of_app; [by apply Hp|].
    by subst pr.
  - done.
Qed.

Lemma run_job_keeps cache keys st j k v :
  consistent cache keys st →
  st.2 !! k = Some v → (run_job cache st j).2 !! k = Some v.
Proof.
  intros [_ Hc] Hk. unfold run_job, lookup_or_enqueue.
  destruct (cache !! j.2) as [v'|] eqn:Hv; cbn; [|done].
  rewrite lookup_insert. case_decide as Hjk; [|done].
  subst k. destruct (Hc _ _ Hk) as [Hv' _]. congruence.
Qed.

Lemma run_job_hit cache st j v :
  cache !! j.2 = Some v → (run_job cache st j).2 !! j.2 = Some v.
Proof.
  intros Hv. unfold run_job, lookup_or_enqueue. rewrite Hv. cbn.
  by rewrite lookup_insert_eq.
Qed.

Lemma run_jobs_spec cache keys jobs st :
  (∀ j, j ∈ jobs → keys j.2) →
  consistent cache keys st →
  consistent cache keys (foldl (run_job cache) st jobs)
  ∧ (∀ k v, st.2 !! k = Some v →
            (foldl (run_job cache) st jobs).2 !! k = Some v)
  ∧ (∀ j v, j ∈ jobs → cache !! j.2 = Some v →
            (foldl (run_job cache) st jobs).2 !! j.2 = Some v).
Proof.
  revert st. induction jobs as [|j jobs IH]; intros st Hkeys Hst.
  - split_and!; [done|done|]. by intros j v ?%elem_of_nil.
  - cbn [foldl].
    destruct (IH (run_job cache st j)) as (Hcons & Hkeep & Hhit).
    { intros j' Hj'. apply Hkeys. by right. }
    { apply run_job_consistent; [apply Hkeys; by left|done]. }
    split_and!; [done| |].
    + intros k v Hk. apply Hkeep. by eapply run_job_keeps.
    + intros j' v [->|Hj']%elem_of_cons Hv; [|by apply Hhit].
      apply Hkeep. by apply run_job_hit.
Qed.

Lemma pending_weaken PL n m k : (n ≤ m)%nat → pending PL m k → pending PL n k.
Proof.
  intros Hnm [(j & p & Hj & Hp & ->)|(i & j & pi & pj & Hij & Hj & Hi & Hpj & ->)].
  - left. exists j, p. split_and!; [lia|done..].
  - right. exists i, j, pi, pj. split_and!; [done|lia|done..].
Qed.

Lemma jobs_of_keys cont before rest k :
  k ∈ (snd <$> jobs_of cont before rest)
  ↔ pending (before ++ rest) (length before) k.
Proof.
  revert before. induction rest as [|part rest IH]; intros before.
  - cbn. rewrite app_nil_r. split; [by intros ?%elem_of_nil|].
    intros [(j & p & Hj & Hp & _)|(i & j & pi & pj & _ & Hj & _ & Hp & _)];
      apply lookup_lt_Some in Hp; lia.
  - cbn [jobs_of]. rewrite fmap_cons, fmap_app, elem_of_cons, elem_of_app, IH.
    rewrite <- list_fmap_compose.
    replace ((before ++ [part]) ++ rest) with (before ++ part :: rest)
      by by rewrite <- app_assoc.
    rewrite length_app. cbn [length].
    set (PL := before ++ part :: rest). set (n := length before).
    assert (Hn : PL !! n = Some part) by apply list_lookup_middle, eq_refl.
    assert (Hb : ∀ i, (i < n)%nat → PL !! i = before !! i).
    { intros i Hi. by apply lookup_app_l. }
    split.
    + intros [->|[Hk|Hk]].
      * left. by exists n, part.
      * apply list_elem_of_fmap in Hk as (placed & -> & Hin).
        apply list_elem_of_lookup in Hin as [i Hi].
        pose proof (lookup_lt_Some _ _ _ Hi) as Hlt.
        right. exists i, n, placed, part.
        split_and!; [done|done| |done|done]. by rewrite Hb.
      * eapply pending_weaken; [|done]. lia.
    + intros [(j & p & Hj & Hp & ->)|(i & j & pi & pj & Hij & Hj & Hi & Hpj & ->)].
      * destruct (decide (j = n)) as [->|Hne].
        -- left. rewrite Hn in Hp. by injection Hp as ->.
        -- right; right. left. exists j, p. split_and!; [lia|done..].
      * destruct (decide (j = n)) as [->|Hne].
        -- right; left. apply list_elem_of_fmap. exists pi.
           rewrite Hn in Hpj. injection Hpj as ->. split; [done|].
           apply list_elem_of_lookup. exists i. by rewrite <- Hb.
        -- right; right. right. exists i, j, pi, pj.
           split_and!; [done|lia|done..].
Qed.

(** [place_list] pairs every face with its rotation. *)
Lemma append_rotations_zip place_list rots :
  (length place_list ≤ length rots)%nat →
  append_rotations place_list rots = Ok (zip place_list rots).
Proof.
  revert rots. induction place_list as [|f pl IH]; intros [|r rs] Hlen;
    cbn in *; [done|done|lia|].
  rewrite IH by lia. done.
Qed.

Lemma append_rotations_short place_list rots :
  (length rots < length place_list)%nat →
  append_rotations place_list rots = Raise IndexError.
Proof.
  revert rots. induction place_list as [|f pl IH]; intros [|r rs] Hlen;
    cbn in *; [lia|lia|done|].
  rewrite IH by lia. done.
Qed.

Lemma referenced_pending g k :
  referenced g k ↔ pending (zip (placement g) (rotation g)) 0 k.
Proof.
  unfold referenced, pending. split.
  - intros [(i & f & r & Hf & Hr & ->)|(i & j & fi & fj & ri & rj & Hij & Hfi & Hri & Hfj & Hrj & ->)].
    + left. exists i, (f, r). split_and!; [lia| |done].
      by apply lookup_zip_Some.
    + right. exists i, j, (fi, ri), (fj, rj).
      split_and!; [done|lia| | |done]; by apply lookup_zip_Some.
  - intros [(j & [f r] & _ & Hp & ->)|(i & j & [fi ri] & [fj rj] & Hij & _ & Hi & Hj & ->)].
    + apply lookup_zip_Some in Hp as [Hf Hr]. left. by exists j, f, r.
    + apply lookup_zip_Some in Hi as [Hfi Hri].
      apply lookup_zip_Some in Hj as [Hfj Hrj].
      right. by exists i, j, fi, fj, ri, rj.
Qed.

(** The pairs to compute and the fresh cache of [find_fitness]. *)
Lemma collect_pairs_spec cache cont g :
  let st := collect_pairs cache cont [] (zip (placement g) (rotation g)) ([], ∅) in
  consistent cache (referenced g) st
  ∧ ∀ k v, referenced g k → cache !! k = Some v → st.2 !! k = Some v.
Proof.
  intros st. subst st. rewrite collect_pairs_jobs.
  destruct (run_jobs_spec cache (referenced g)
              (jobs_of cont [] (zip (placement g) (rotation g))) ([], ∅))
    as (Hcons & _ & Hhit).
  - intros j Hj. apply referenced_pending, (jobs_of_keys cont []).
    apply list_elem_of_fmap. by exists j.
  - split; [by intros pr ?%elem_of_nil|]. intros k v. cbn.
    by rewrite lookup_empty.
  - split; [done|]. intros k v Hk Hv.
    apply referenced_pending, (jobs_of_keys cont []) in Hk.
    apply list_elem_of_fmap in Hk as (j & -> & Hj). by apply Hhit.
Qed.

(** [process_nfp] answers under the key it was asked for. *)
Lemma process_nfp_key cfg pr res :
  process_nfp cfg (Some pr) = Ok (Some res) → res_key res = pair_key pr.
Proof.
  unfold process_nfp. destruct (pair_A pr) as [A|]; [|done]. cbn [obind].
  destruct (k_inside (pair_key pr)).
  - by intros [= <-].
  - destruct (if exploreConcave cfg then _ else _) as [nfp| |]; [|done..].
    cbn [obind]. unfold check_outer.
    destruct nfp as [[|r rs]|]; [done| |done].
    destruct (area_check_fails _ _ _ _); [done|].
    destruct (orient_outer _) as [nfp'| |]; [|done..]. by intros [= <-].
Qed.

Lemma map_M_lift_outcome {S A B} (f : A → outcome B) (l : list A) (s : S) :
  map_M (λ a, lift_outcome (f a)) l s = (omap_M f l, s).
Proof.
  induction l as [|a l IH]; [done|]. cbn [map_M omap_M].
  unfold bind at 1, lift_outcome at 1. destruct (f a) as [b| |]; [|done..].
  unfold bind. rewrite IH. cbn [obind]. by destruct (omap_M f l).
Qed.

Lemma omap_M_Forall2 {A B} (f : A → outcome B) l rs :
  omap_M f l = Ok rs → Forall2 (λ a r, f a = Ok r) l rs.
Proof.
  revert rs. induction l as [|a l IH]; intros rs; cbn.
  - intros [= <-]. constructor.
  - destruct (f a) as [b| |] eqn:Hb; [|done..]. cbn.
    destruct (omap_M f l) as [bs| |]; [|done..]. cbn. intros [= <-].
    constructor; [done|]. by apply IH.
Qed.

Lemma foldl_store_lookup nc rs k v :
  foldl store nc rs !! k = Some v →
  nc !! k = Some v ∨ ∃ res, Some res ∈ rs ∧ res_key res = k.
Proof.
  revert nc. induction rs as [|r rs IH]; intros nc; [by left|].
  cbn [foldl]. intros [Hnc|(res & Hres & Hk)]%IH.
  - destruct r as [res|]; cbn in Hnc; [|by left].
    rewrite lookup_insert in Hnc. case_decide as Hrk.
    + right. exists res. split; [by left|done].
    + by left.
  - right. exists res. split; [by right|done].
Qed.

Lemma foldl_store_keep nc rs k :
  (∀ res, Some res ∈ rs → res_key res ≠ k) →
  foldl store nc rs !! k = nc !! k.
Proof.
  revert nc. induction rs as [|r rs IH]; intros nc Hrs; [done|].
  cbn [foldl]. rewrite IH by (intros res Hres; apply Hrs; by right).
  destruct r as [res|]; [|done]. cbn.
  apply lookup_insert_ne, Hrs. by left.
Qed.
End jobs.

Section find_fitness_facts.
Context `{!Pyclipper, !NfpUtls, !PlacementWorker}.

Lemma omap_M_returns {A B} (f : A → outcome B) l :
  (∀ a, a ∈ l → ∃ b, f a = Ok b) → ∃ bs, omap_M f l = Ok bs.
Proof.
  induction l as [|a l IH]; intros Hf; [by exists []|].
  destruct (Hf a) as [b Hb]; [by left|].
  destruct IH as [bs Hbs]; [intros a' Ha'; apply Hf; by right|].
  exists (b :: bs). cbn. by rewrite Hb, Hbs.
Qed.

(** [find_fitness] after its lookups: the cache is the fresh cache, to
    which [generate_nfp], when it is reached, has added results of
    [process_nfp] for enqueued pairs. *)
Lemma find_fitness_unfold g w :
  (length (placement g) ≤ length (rotation g))%nat →
  let st := collect_pairs (nfp_cache (self w)) (container (self w)) []
              (zip (placement g) (rotation g)) ([], ∅) in
  let w1 := World
    (set_worker
       (Some (Worker (container (self w)) (zip (placement g) (rotation g))
                (fst <$> placement g) (rotation g) (n_config (self w)) st.2))
       (set_nfp_cache st.2 (self w)))
    (w_proc w) in
  find_fitness g w
  = match omap_M (λ pr, process_nfp (n_config (self w)) (Some pr)) st.1 with
    | Ok pair_list => generate_nfp pair_list w1
    | Raise e => (Raise e, w1)
    | Diverge => (Diverge, w1)
    end.
Proof.
  intros Hlen st w1. unfold find_fitness.
  unfold bind at 1, lift_outcome at 1. rewrite append_rotations_zip by done.
  unfold bind at 1, gets at 1. fold st. destruct st as [pairs nc] eqn:Hst.
  unfold bind at 1, update at 1, modify at 1.
  unfold bind at 1, update at 1, modify at 1. cbn [self w_proc].
  unfold bind at 1. rewrite map_M_lift_outcome. done.
Qed.

Lemma generate_nfp_run pair_list w wk :
  worker (self w) = Some wk →
  ∃ res w',
    generate_nfp pair_list w = (Ok res, w')
    ∧ nfp_cache (self w') = foldl store (nfp_cache (self w)) pair_list.
Proof.
  intros Hwk. unfold generate_nfp.
  unfold bind at 1, update at 1, modify at 1.
  unfold bind at 1, gets at 1. cbn [self set_nfp_cache worker].
  rewrite Hwk. unfold bind, update, modify, ret. by eexists _, _.
Qed.

Lemma find_fitness_cache_after g w :
  (length (placement g) ≤ length (rotation g))%nat →
  let st := collect_pairs (nfp_cache (self w)) (container (self w)) []
              (zip (placement g) (rotation g)) ([], ∅) in
  ∃ rs,
    nfp_cache (self (find_fitness g w).2) = foldl store st.2 rs
    ∧ ∀ res, Some res ∈ rs → ∃ pr, pr ∈ st.1 ∧ res_key res = pair_key pr.
Proof.
  intros Hlen st. rewrite find_fitness_unfold by done. fold st.
  destruct (omap_M _ st.1) as [pair_list| |] eqn:Hmap.
  - edestruct (generate_nfp_run pair_list) as (res & w' & -> & Hcache); [done|].
    exists pair_list. split; [done|].
    intros r [i Hi]%list_elem_of_lookup.
    apply omap_M_Forall2 in Hmap.
    destruct (Forall2_lookup_r _ _ _ _ _ Hmap Hi) as (pr & Hpr & Hproc).
    exists pr. split; [by eapply list_elem_of_lookup_2|].
    by eapply process_nfp_key.
  - exists []. split; [done|]. by intros res ?%elem_of_nil.
  - exists []. split; [done|]. by intros res ?%elem_of_nil.
Qed.

(** [find_fitness] returns when [process_nfp] returns for every pair. *)
Lemma find_fitness_returns g w :
  (length (placement g) ≤ length (rotation g))%nat →
  (∀ pr, ∃ r, process_nfp (n_config (self w)) (Some pr) = Ok r) →
  ∃ res w', find_fitness g w = (Ok res, w').
Proof.
  intros Hlen Hproc. rewrite find_fitness_unfold by done.
  edestruct (omap_M_returns (λ pr, process_nfp (n_config (self w)) (Some pr)))
    as [pair_list ->]; [by intros pr _|].
  edestruct (generate_nfp_run pair_list) as (res & w' & -> & _); [done|].
  by eexists _, _.
Qed.

(** C4. After [find_fitness] on a genome (with a rotation for every
    part), the NFP cache holds only keys the genome refers to, the
    inner key of a part and the outer key of two parts in their order
    of placement, and every such key that had a value before the call
    has the same value after it. This holds in whatever way the
    evaluation ends. *)
Theorem find_fitness_cache g w :
  (length (placement g) ≤ length (rotation g))%nat →
  let cache := nfp_cache (self w) in
  let cache' := nfp_cache (self (find_fitness g w).2) in
  (∀ key, is_Some (cache' !! key) → referenced g key)
  ∧ (∀ key v, referenced g key → cache !! key = Some v → cache' !! key = Some v).
Proof.
  intros Hlen cache cache'.
  destruct (find_fitness_cache_after g w Hlen) as (rs & Hcache & Hrs).
  destruct (collect_pairs_spec cache (container (self w)) g)
    as ([Hpairs Hnc] & Hhit).
  subst cache'. rewrite Hcache. fold cache in Hrs |- *.
  set (st := collect_pairs cache (container (self w)) []
               (zip (placement g) (rotation g)) ([], ∅)) in *.
  split.
  - intros key [v [Hv|(res & Hres & <-)]%foldl_store_lookup].
    + by apply (Hnc key v).
    + destruct (Hrs res Hres) as (pr & Hpr & ->). by apply Hpairs.
  - intros key v Href Hv. rewrite foldl_store_keep; [by apply Hhit|].
    intros res Hres Hkey. destruct (Hrs res Hres) as (pr & Hpr & Heq).
    destruct (Hpairs pr Hpr) as [Hnone _]. congruence.
Qed.
End find_fitness_facts.

(** A run of C4: two parts, an empty cache, a nester with the bin; the
    evaluation completes. *)
Lemma find_fitness_cache_witness :
  let g := Genome [Demo.f0; Demo.f1] [0; 0] None in
  let w := World (set_container (Some Demo.bin)
                    (@Nester_init Demo.settings None None)) (Proc 0 []) in
  let r := @find_fitness Demo.clipper Demo.utls Demo.placer g w in
  is_ok r.1 = true
  ∧ ∀ key, is_Some (nfp_cache (self r.2) !! key) → referenced g key.
Proof.
  intros g w r. split; [vm_compute; reflexivity|].
  destruct (@find_fitness_cache Demo.clipper Demo.utls Demo.placer g w) as [Honly _].
  - cbn. lia.
  - exact Honly.
Defined.

(** ** [run] *)

Section run_facts.
Context `{!Pyclipper, !NfpUtls, !PlacementWorker, !Settings, !Random}.

(** C9. When the container is missing or empty, or the shape list is
    missing or empty, [run] prints one diagnostic line and returns
    [None]: no exception is raised, and the nester is left as it was. In
    particular no genome is evaluated, nothing is appended to the
    results, no genetic algorithm is created and no random number is
    drawn. *)
Theorem run_aborts_on_empty_input w :
  container (self w) = None
  ∨ shapes (self w) = None
  ∨ shapes (self w) = Some [] →
  run w
  = (Ok None,
     World (self w)
       (Proc (cursor (w_proc w))
          (stdout (w_proc w) ++ [Line (abort_message (self w))]))).
Proof.
  intros Hempty. unfold run, abort_message.
  unfold bind at 1, gets at 1.
  destruct (container (self w)) as [c|] eqn:Hc.
  - destruct (shapes (self w)) as [[|s l]|] eqn:Hs.
    + by destruct w.
    + by destruct Hempty as [?|[?|?]].
    + by destruct w.
  - by destruct w.
Qed.

(** With a container and a shape, [run] goes on to [launch_workers]. *)
Lemma run_proceeds w c s l :
  container (self w) = Some c →
  shapes (self w) = Some (s :: l) →
  run w
  = (faces <- lift_outcome (offset_faces (n_config (self w)) 0 (s :: l)) ;;
     launch_workers (sorted_by (λ f : face, - area f.2) faces)) w.
Proof.
  intros Hc Hs. unfold run. unfold bind at 1, gets at 1. by rewrite Hc, Hs.
Qed.
End run_facts.

(** A run of C9: a fresh nester, with no container and no shapes. *)
Lemma run_aborts_on_empty_input_witness :
  let w := World (@Nester_init Demo.settings None None) (Proc 0 []) in
  @run Demo.clipper Demo.utls Demo.placer Demo.spread w
  = (Ok None, World (self w) (Proc 0 [Line "Empty container. Aborting"])).
Proof.
  intros w.
  rewrite (@run_aborts_on_empty_input Demo.clipper Demo.utls Demo.placer
             Demo.spread w); [reflexivity|].
  by left.
Defined.

(** * Further properties of the code

    ** The shuffle of [random_angle] *)

Lemma insert_Permutation_cons {A} (data : list A) j d x :
  data !! j = Some d → d :: <[j:=x]> data ≡ₚ x :: data.
Proof.
  revert j. induction data as [|y data IH]; intros [|j] Hj; try done.
  - cbn in Hj. injection Hj as ->. cbn. apply perm_swap.
  - cbn in Hj. cbn. rewrite (perm_swap y d), (IH j Hj). apply perm_swap.
Qed.

Lemma swap_Permutation {A} (data : list A) i j : swap data i j ≡ₚ data.
Proof.
  revert i j. induction data as [|x data IH]; intros i j; [by destruct i, j|].
  destruct i as [|i], j as [|j].
  - done.
  - unfold swap. cbn. destruct (data !! j) as [dj|] eqn:Hj; [|done].
    cbn. by apply insert_Permutation_cons.
  - unfold swap. cbn. destruct (data !! i) as [di|] eqn:Hi; [|done].
    cbn. by apply insert_Permutation_cons.
  - rewrite swap_cons. by rewrite IH.
Qed.

Section shuffle_facts.
Context `{!NfpUtls, !Random}.

Lemma shuffle_from_Permutation c idxs data : shuffle_from c idxs data ≡ₚ data.
Proof.
  revert c data. induction idxs as [|i idxs IH]; intros c data; [done|].
  cbn. rewrite IH. apply swap_Permutation.
Qed.

(** X1. The nested [shuffle_array] of [random_angle] never raises: for a
    list of [n] items it makes [n - 1] draws and returns the items it was
    given, each as often as before, in some order. *)
Theorem shuffle_array_permutes (data : list Qc) (p : proc) :
  ∃ data',
    shuffle_array data p = (Ok data', advance (length data - 1) p)
    ∧ data' ≡ₚ data.
Proof.
  eexists. split; [apply shuffle_array_run|apply shuffle_from_Permutation].
Qed.

Lemma sampled_angles_Permutation rots c :
  sampled_angles rots c ≡ₚ angle_list_of rots.
Proof. apply shuffle_from_Permutation. Qed.

(** X2. [random_angle] returns for every part: it makes
    [rotations - 1] draws (none when [rotations] is at most 1), changes
    no attribute of the genetic algorithm, and what it returns is [0] or
    one of the admissible angles [i * (360 / rotations)]. *)
Theorem random_angle_admissible (s : face) (st : ga_state) :
  let rots := rotations (ga_config (ga_self st)) in
  ∃ angle,
    random_angle s st = (Ok angle, advance_ga (Z.to_nat rots - 1) st)
    ∧ (angle = 0
       ∨ ∃ i : nat, (Z.of_nat i < rots)%Z
           ∧ angle = Q2Qc (inject_Z (Z.of_nat i))
                     * (Q2Qc 360 / Q2Qc (inject_Z rots))).
Proof.
  intros rots. rewrite random_angle_run. fold rots.
  eexists. split; [reflexivity|].
  destruct (List.find _ _) as [a|]; [|by left].
  destruct (last (sampled_angles rots (cursor (ga_proc st)))) as [b|] eqn:Hlast;
    [|by left].
  right. apply last_Some in Hlast as [l' Hl'].
  assert (Hb : b ∈ angle_list_of rots).
  { rewrite <- (sampled_angles_Permutation rots (cursor (ga_proc st))), Hl'.
    apply elem_of_app. right. by left. }
  unfold angle_list_of, range in Hb.
  apply list_elem_of_fmap in Hb as (i & -> & Hi).
  apply elem_of_seq in Hi. exists i. split; [lia|done].
Qed.
End shuffle_facts.


(** ** The crossover *)

Lemma filter_ext_in {A} (P1 P2 : A → Prop)
    `{!∀ x, Decision (P1 x), !∀ x, Decision (P2 x)} (l : list A) :
  (∀ x, x ∈ l → P1 x ↔ P2 x) → filter P1 l = filter P2 l.
Proof.
  induction l as [|a l IH]; intros HP; [done|].
  rewrite !filter_cons, IH.
  - destruct (decide (P1 a)) as [H1|H1], (decide (P2 a)) as [H2|H2];
      try done; exfalso; apply (HP a) in H1 || apply (HP a) in H2;
      try done; by left.
  - intros x Hx. apply HP. by right.
Qed.

Section crossover.
Context `{!NfpUtls, !Random}.

(** A filling loop of [mate] over the first [n] genes of the donor, last
    to first, appends the genes whose part the child does not hold. *)
Lemma fill_from_filter donor n gene rot :
  (n ≤ length (placement donor))%nat →
  well_formed donor →
  NoDup (shape_ids (take n (placement donor))) →
  let F := filter (λ fr : face * Qc, fr.1.1 ∉ shape_ids gene)
             (reverse (take n (genes donor))) in
  fill_from donor (reverse (seq 0 n)) gene rot
  = Ok (gene ++ F.*1, rot ++ F.*2).
Proof.
  intros Hn Hwf. revert gene rot.
  induction n as [|n IH]; intros gene rot Hnd F.
  { subst F. cbn. by rewrite !app_nil_r. }
  assert (Hlt : (n < length (placement donor))%nat) by lia.
  destruct (lookup_lt_is_Some_2 (placement donor) n Hlt) as [f Hf].
  destruct (lookup_lt_is_Some_2 (rotation donor) n) as [r Hr].
  { unfold well_formed in Hwf. lia. }
  assert (Hg : genes donor !! n = Some (f, r)).
  { unfold genes. by rewrite lookup_zip_with, Hf, Hr. }
  assert (Hnd' : NoDup (shape_ids (take n (placement donor)))).
  { rewrite (take_S_r _ _ _ Hf) in Hnd. unfold shape_ids in *.
    rewrite fmap_app in Hnd. by apply NoDup_app in Hnd as [? _]. }
  assert (Hfresh : ∀ fr, fr ∈ take n (genes donor) → fr.1.1 ≠ f.1).
  { intros fr Hfr He. rewrite (take_S_r _ _ _ Hf) in Hnd.
    unfold shape_ids in Hnd. rewrite fmap_app in Hnd.
    apply NoDup_app in Hnd as (_ & Hdis & _). apply (Hdis f.1); [|by left].
    rewrite <- He. unfold genes in Hfr. rewrite zip_with_take in Hfr.
    apply elem_of_zip_with in Hfr as (x & y & -> & Hx & _).
    apply list_elem_of_fmap. by exists x. }
  subst F. rewrite (take_S_r _ _ _ Hg), reverse_snoc, seq_S, reverse_snoc.
  cbn [fill_from Nat.add]. rewrite Hf.
  destruct (contains gene f.1) eqn:Hc.
  - apply contains_spec in Hc. rewrite filter_cons_False by (cbn; tauto).
    by apply IH; [lia|].
  - assert (Hnc : f.1 ∉ shape_ids gene).
    { intros Hin%contains_spec. congruence. }
    rewrite Hr, filter_cons_True by done.
    rewrite (IH ltac:(lia) (gene ++ [f]) (rot ++ [r]) Hnd'). cbn zeta.
    rewrite (filter_ext_in
               (λ fr : face * Qc, fr.1.1 ∉ shape_ids (gene ++ [f]))
               (λ fr : face * Qc, fr.1.1 ∉ shape_ids gene)).
    + cbn. by rewrite <- !app_assoc.
    + intros fr Hfr. rewrite elem_of_reverse in Hfr. unfold shape_ids. rewrite fmap_app.
      rewrite elem_of_app. change (fst <$> [f]) with [f.1].
      rewrite list_elem_of_singleton.
      specialize (Hfresh fr Hfr). tauto.
Qed.

Lemma fill_from_filled donor kept rot :
  well_formed donor →
  NoDup (shape_ids (placement donor)) →
  length rot = length kept →
  ∃ c, fill_from donor (down_range (length (placement donor))) kept rot = Ok c
     ∧ zip c.1 c.2 = zip kept rot ++ filled kept donor.
Proof.
  intros Hwf Hnd Hlen. unfold down_range.
  rewrite fill_from_filter; [|done|done|by rewrite firstn_all].
  eexists. split; [done|]. cbn [fst snd].
  rewrite zip_with_app by done. rewrite zip_fst_snd. f_equal.
  unfold filled. do 2 f_equal. apply take_ge. unfold genes.
  rewrite length_zip_with. unfold well_formed in Hwf. lia.
Qed.

(** X3. The crossover of [mate], for parents that each hold distinct
    parts and a rotation for every part: the cut point is the draw of
    [randint(0, len - 1)], the first child keeps the genes of the male
    before the cut and then takes from the female, from her last gene
    to her first, the genes whose part it does not hold yet; the second
    child is made the same way with the parents exchanged. A rotation
    stays with its part, and no child carries a fitness. *)
Theorem mate_crossover (male female : genome) (st : ga_state) :
  let cut := Z.to_nat (int_draw 0 (Z.of_nat (length (placement male)) - 1)
                         (cursor (ga_proc st))) in
  placement male ≠ [] →
  well_formed male → well_formed female →
  NoDup (shape_ids (placement male)) →
  NoDup (shape_ids (placement female)) →
  ∃ c1 c2,
    mate male female st = (Ok (c1, c2), advance_ga 1 st)
    ∧ (cut < length (placement male))%nat
    ∧ genes c1 = take cut (genes male) ++ filled (take cut (placement male)) female
    ∧ genes c2 = take cut (genes female) ++ filled (take cut (placement female)) male
    ∧ fitness c1 = None ∧ fitness c2 = None.
Proof.
  intros cut Hne Hwm Hwf Hndm Hndf. rewrite mate_run by done. fold cut.
  unfold mate_at.
  destruct (fill_from_filled female (take cut (placement male))
              (take cut (rotation male)) Hwf Hndf) as (d1 & -> & Hd1).
  { rewrite !length_take. unfold well_formed in Hwm. lia. }
  destruct (fill_from_filled male (take cut (placement female))
              (take cut (rotation female)) Hwm Hndm) as (d2 & -> & Hd2).
  { rewrite !length_take. unfold well_formed in Hwf. lia. }
  cbn [obind]. eexists _, _. split; [reflexivity|].
  split.
  { subst cut.
    pose proof (int_draw_range 0 (Z.of_nat (length (placement male)) - 1)
                  (cursor (ga_proc st))) as Hr.
    destruct (placement male); [done|]. cbn [length] in *. lia. }
  unfold genes at 1 3. cbn [placement rotation fitness].
  rewrite Hd1, Hd2. unfold genes. by rewrite !zip_with_take.
Qed.
End crossover.

(** A run of X3: with the cut at 0 each child is the other parent, last
    gene first. *)
Lemma mate_crossover_witness :
  let male := Genome [Demo.f0; Demo.f1; Demo.f2] [0; Q2Qc 90; 0] None in
  let female := Genome [Demo.f2; Demo.f0; Demo.f1] [Q2Qc 180; 0; 0] None in
  ∃ c1 c2 st',
    @mate Demo.zeros male female (Demo.start []) = (Ok (c1, c2), st')
    ∧ genes c1 = [(Demo.f1, 0); (Demo.f0, 0); (Demo.f2, Q2Qc 180)]
    ∧ genes c2 = [(Demo.f2, 0); (Demo.f1, Q2Qc 90); (Demo.f0, 0)].
Proof.
  intros male female.
  destruct (@mate_crossover Demo.zeros male female (Demo.start []))
    as (c1 & c2 & Hrun & _ & Hg1 & Hg2 & _); try done.
  - apply (bool_decide_unpack _). vm_compute. exact I.
  - apply (bool_decide_unpack _). vm_compute. exact I.
  - exists c1, c2, (advance_ga 1 (Demo.start [])).
    split; [exact Hrun|]. rewrite Hg1, Hg2. split; reflexivity.
Defined.


(** ** Edge cases of the genetic operators *)

Lemma remove_first_NoDup `{EqDecision A} (x : A) l g :
  NoDup l → g ∈ remove_first x l → g ∈ l ∧ g ≠ x.
Proof.
  induction l as [|y l IH]; intros Hnd Hg; [by apply elem_of_nil in Hg|].
  apply NoDup_cons in Hnd as [Hy Hnd]. cbn in Hg.
  destruct (decide (x = y)) as [->|Hxy].
  - split; [by right|]. by intros ->.
  - apply elem_of_cons in Hg as [->|Hg]; [split; [by left|done]|].
    destruct (IH Hnd Hg). split; [by right|done].
Qed.

Section operator_edges.
Context `{!NfpUtls, !Random}.

(** X4. [mutate] on a genome without parts makes one draw: when the draw
    is below [0.01 × mutationRate] the rotation step reads the loop
    variable [i], which no turn of the loop has bound, and the call
    raises; otherwise the copy is returned. *)
Theorem mutate_empty_placement (g : genome) (st : ga_state) :
  placement g = [] →
  mutate g st
  = (if decide (unit_draw (cursor (ga_proc st))
                < mutation_threshold (ga_config (ga_self st)))
     then Raise UnboundLocalError
     else Ok (Genome [] (rotation g) None),
     advance_ga 1 st).
Proof.
  intros He. pose proof (mutate_unfold g st) as Hrun. cbv zeta in Hrun.
  rewrite Hrun, He. cbn [length seq last order_mutation foldl].
  rewrite Nat.add_0_r. change (0 + 1)%nat with 1%nat.
  unfold order_mutation. cbn [length seq foldl].
  clear Hrun. by destruct (decide _).
Qed.

(** X5. The ways [random_weighted_individual] raises. An [exclude] that
    is not in the population raises [ValueError] ([pop.index]) before
    anything changes. When [exclude] is the only genome, it is removed,
    the draw is made and the division by [len(pop)] raises
    [ZeroDivisionError]: the stored population is left empty. An empty
    population raises the same without [exclude]. *)
Theorem random_weighted_individual_raises (ex : genome) (st : ga_state) :
  (ex ∉ population (ga_self st) →
   random_weighted_individual (Some ex) st = (Raise ValueError, st))
  ∧ (population (ga_self st) = [ex] →
     random_weighted_individual (Some ex) st
     = (Raise ZeroDivisionError,
        GAState (set_population [] (ga_self st)) (advance 1 (ga_proc st))))
  ∧ (population (ga_self st) = [] →
     random_weighted_individual None st
     = (Raise ZeroDivisionError, advance_ga 1 st)).
Proof.
  split_and!.
  - intros Hex. unfold random_weighted_individual.
    unfold bind at 1, get_population at 1, gets at 1.
    unfold bind at 1. by rewrite decide_False.
  - intros Hpop. rewrite random_weighted_individual_unfold.
    + unfold selection_state, after_exclude, selected. rewrite Hpop. cbn.
      by rewrite decide_True.
    + intros ? [= <-]. rewrite Hpop. by left.
  - intros Hpop. rewrite random_weighted_individual_unfold by done.
    unfold selection_state, after_exclude, selected. rewrite Hpop.
    rewrite <- Hpop, set_population_id. done.
Qed.

(** X6. In a population without equal genomes that holds [exclude] and
    one genome more, [random_weighted_individual(exclude)] returns, on
    one draw, a genome of the population other than [exclude]. *)
Theorem random_weighted_individual_other (ex : genome) (st : ga_state) :
  NoDup (population (ga_self st)) →
  ex ∈ population (ga_self st) →
  (2 ≤ length (population (ga_self st)))%nat →
  ∃ g, random_weighted_individual (Some ex) st
       = (Ok g, selection_state (Some ex) st)
     ∧ g ∈ population (ga_self st)
     ∧ g ≠ ex.
Proof.
  intros Hnd Hex Hlen.
  destruct (random_weighted_individual_run (Some ex) st) as (g & Hg & Hrun).
  - by intros ? [= <-].
  - cbn. intros He. apply length_remove_first in Hex. rewrite He in Hex.
    cbn in Hex. lia.
  - exists g. split; [done|]. by apply remove_first_NoDup in Hg.
Qed.

Lemma fitness_keys_raise pop :
  Exists (λ g, fitness g = None) pop → fitness_keys pop = Raise KeyError.
Proof.
  unfold fitness_keys. induction 1 as [g pop Hg|g pop _ IH]; cbn.
  - by rewrite Hg.
  - destruct (fitness g); [|done]. cbn. by rewrite IH.
Qed.

(** X7. [generation] on a population in which some genome carries no
    fitness raises [KeyError] (the sort key), and on an empty population
    [IndexError]; in both cases nothing has changed and no draw was
    made. *)
Theorem generation_raises (st : ga_state) :
  (Exists (λ g, fitness g = None) (population (ga_self st)) →
   generation st = (Raise KeyError, st))
  ∧ (population (ga_self st) = [] → generation st = (Raise IndexError, st)).
Proof.
  split.
  - intros Hex. unfold generation.
    unfold bind at 1, get_population at 1, gets at 1.
    unfold bind at 1, lift_outcome at 1. by rewrite fitness_keys_raise.
  - intros Hpop. unfold generation.
    unfold bind at 1, get_population at 1, gets at 1. rewrite Hpop.
    unfold bind at 1, lift_outcome at 1. cbn [fitness_keys omap_M].
    cbn [sorted_by fmap list_fmap].
    unfold bind at 1, put_population at 1, modify at 1.
    rewrite <- Hpop, set_population_id. rewrite Hpop.
    unfold bind at 1, index at 1. cbn. by destruct st.
Qed.
End operator_edges.

(** A run of X4: the draw [0] is below the threshold. *)
Lemma mutate_empty_placement_witness :
  @mutate Demo.utls Demo.zeros (Genome [] [] None) (Demo.start [])
  = (Raise UnboundLocalError, advance_ga 1 (Demo.start [])).
Proof.
  rewrite (@mutate_empty_placement Demo.utls Demo.zeros) by reflexivity.
  reflexivity.
Defined.

(** Runs of X5. *)
Lemma random_weighted_individual_raises_witness :
  let only := Genome [Demo.f0] [0] (Some 1) in
  let other := Genome [Demo.f1] [0] (Some 1) in
  (@random_weighted_individual Demo.zeros (Some other) (Demo.start [only])).1
  = Raise ValueError
  ∧ population (ga_self (@random_weighted_individual Demo.zeros (Some only)
                           (Demo.start [only])).2) = [].
Proof.
  intros only other.
  destruct (@random_weighted_individual_raises Demo.zeros other
              (Demo.start [only])) as (Hv & _ & _).
  destruct (@random_weighted_individual_raises Demo.zeros only
              (Demo.start [only])) as (_ & Hz & _).
  split.
  - rewrite Hv; [done|]. intros Hin. apply list_elem_of_singleton in Hin.
    discriminate Hin.
  - by rewrite Hz.
Defined.

(** A run of X6. *)
Lemma random_weighted_individual_other_witness :
  let male := Genome [Demo.f0; Demo.f1] [0; 0] (Some 1) in
  let other := Genome [Demo.f1; Demo.f0] [0; 0] (Some 2) in
  ∃ g, (@random_weighted_individual Demo.spread (Some male)
          (Demo.start [male; other])).1 = Ok g
     ∧ g ≠ male.
Proof.
  intros male other.
  destruct (@random_weighted_individual_other Demo.spread male
              (Demo.start [male; other])) as (g & Hrun & _ & Hne).
  - apply (bool_decide_unpack _). vm_compute. exact I.
  - by left.
  - cbn. lia.
  - exists g. by rewrite Hrun.
Defined.

(** A run of X7: the second genome was never evaluated. *)
Lemma generation_raises_witness :
  let g1 := Genome [Demo.f0] [0] (Some 1) in
  let g2 := Genome [Demo.f0] [0] None in
  @generation Demo.utls Demo.spread (Demo.start [g1; g2])
  = (Raise KeyError, Demo.start [g1; g2]).
Proof.
  intros g1 g2.
  destruct (@generation_raises Demo.utls Demo.spread (Demo.start [g1; g2]))
    as [Hk _].
  apply Hk. right. by left.
Defined.


(** ** The weights of the selection *)






Section weights.
Context `{!Random}.





End weights.



(** ** The population across the constructor and [generation] *)

Section population.
Context `{!NfpUtls, !Random}.

Lemma arranges_viable ids g : ids ≠ [] → arranges ids g → viable g.
Proof.
  intros Hne [Hperm Hwf]. split; [|done]. intros He. rewrite He in Hperm.
  by apply Permutation_nil_l in Hperm.
Qed.

(** A mutant arranges the parts its original arranges. *)
Lemma mutate_arranges ids g st :
  ids ≠ [] → arranges ids g →
  ∃ g' k, mutate g st = (Ok g', advance_ga k st) ∧ arranges ids g'.
Proof.
  intros Hne Hg. destruct (arranges_viable _ _ Hne Hg) as [Hpl Hwf].
  destruct Hg as [Hperm _].
  destruct (mutate_run g st Hpl Hwf) as [Hp Hrun].
  destruct (decide _) as [Hhit|Hmiss].
  - destruct Hrun as (s & angle & st' & _ & Hra & _ & ->).
    rewrite random_angle_run in Hra. injection Hra as _ <-.
    rewrite advance_ga_advance_ga. eexists _, _. split; [done|].
    split; cbn.
    + unfold shape_ids. by rewrite Hp.
    + unfold well_formed in *. cbn.
      by rewrite length_insert, length_order_mutation.
  - rewrite Hrun. eexists _, _. split; [done|]. split; cbn.
    + unfold shape_ids. by rewrite Hp.
    + unfold well_formed in *. cbn. by rewrite length_order_mutation.
Qed.

(** The children arrange the parts their parents arrange. *)
Lemma mate_arranges ids male female st :
  ids ≠ [] → NoDup ids →
  arranges ids male → arranges ids female →
  ∃ c1 c2, mate male female st = (Ok (c1, c2), advance_ga 1 st)
         ∧ arranges ids c1 ∧ arranges ids c2.
Proof.
  intros Hne Hnd Hm Hf.
  destruct (arranges_viable _ _ Hne Hm) as [Hpm Hwm].
  destruct Hm as [Hm _], Hf as [Hf Hwf].
  assert (Hndm : NoDup (shape_ids (placement male))) by by rewrite Hm.
  assert (Hndf : NoDup (shape_ids (placement female))) by by rewrite Hf.
  assert (Hfm : shape_ids (placement female) ≡ₚ shape_ids (placement male))
    by by rewrite Hm, Hf.
  rewrite mate_run by done.
  destruct (mate_at_spec
    (Z.to_nat (int_draw 0 (Z.of_nat (length (placement male)) - 1)
                 (cursor (ga_proc st)))) male female Hwm Hwf)
    as (c1 & c2 & -> & Hw1 & Hw2 & _ & _ & Hnd1 & Hnd2 & Hin1 & Hin2).
  exists c1, c2. split; [done|]. split; (split; [|done]); rewrite <- Hm.
  - eapply child_is_permutation; [done|by apply Hnd1|done|done].
  - eapply child_is_permutation'; [done|by apply Hnd2|done|done].
Qed.

(** The loop of [generation] only appends genomes that arrange the
    parts of the population, and leaves the configuration alone. *)
Lemma generation_loop_arranges ids fuel size new_population st res st' :
  ids ≠ [] → NoDup ids →
  Forall (arranges ids) (population (ga_self st)) →
  generation_loop fuel size new_population st = (Ok res, st') →
  ∃ more, res = new_population ++ more ∧ Forall (arranges ids) more
        ∧ ga_config (ga_self st') = ga_config (ga_self st).
Proof.
  intros Hne Hnd. revert new_population st.
  induction fuel as [|fuel IH]; intros new_population st Hpop;
    rewrite generation_loop_unfold;
    (destruct (decide (Z.of_nat (length new_population) < size)%Z) as [Hlt|Hge];
     [|unfold ret; intros [= <- <-]; exists []; by rewrite app_nil_r]).
  { intros Hd. discriminate Hd. }
  set (pop := population (ga_self st)) in *.
  rewrite Forall_forall in Hpop.
  unfold bind at 1. rewrite random_weighted_individual_unfold by done.
  cbn [after_exclude]. fold pop.
  destruct (selected (cursor (ga_proc st)) pop) as [male| |] eqn:Hmale; [|done..].
  apply selected_elem_of in Hmale.
  set (st1 := selection_state None st).
  unfold bind at 1. rewrite random_weighted_individual_unfold
    by (intros ? [= <-]; exact Hmale).
  change (population (ga_self st1)) with pop. cbn [after_exclude].
  destruct (selected (cursor (ga_proc st1)) (remove_first male pop))
    as [female| |] eqn:Hfemale; [|done..].
  apply selected_elem_of in Hfemale.
  assert (Hfemale' : female ∈ pop).
  { eapply elem_of_sublist; [done|apply remove_first_sublist]. }
  set (st2 := selection_state (Some male) st1).
  destruct (mate_arranges ids male female st2 Hne Hnd)
    as (c1 & c2 & Hrun3 & Hc1 & Hc2); [by apply Hpop..|].
  rewrite (bind_ok _ _ _ _ _ Hrun3). clear Hrun3. cbn [fst snd].
  destruct (mutate_arranges ids c1 (advance_ga 1 st2) Hne Hc1)
    as (m0 & k0 & Hrun4 & Hm0).
  rewrite (bind_ok _ _ _ _ _ Hrun4). clear Hrun4. cbv zeta.
  assert (Hpop' : Forall (arranges ids) (remove_first male pop)).
  { apply Forall_forall. intros g Hg. apply Hpop.
    eapply elem_of_sublist; [done|apply remove_first_sublist]. }
  destruct (decide (Z.of_nat (length (new_population ++ [m0])) < size)%Z).
  - destruct (mutate_arranges ids c2 (advance_ga k0 (advance_ga 1 st2)) Hne Hc2)
      as (m1 & k1 & Hrun5 & Hm1).
    rewrite (bind_ok _ _ _ _ _ Hrun5). clear Hrun5. intros Hrun.
    apply IH in Hrun as (more & -> & Hmore & Hcfg); [|done].
    exists (m0 :: m1 :: more). split; [by rewrite <- !app_assoc|].
    split; [constructor; [done|by constructor]|by rewrite Hcfg].
  - intros Hrun. apply IH in Hrun as (more & -> & Hmore & Hcfg); [|done].
    exists (m0 :: more). split; [by rewrite <- !app_assoc|].
    split; [by constructor|by rewrite Hcfg].
Qed.

(** [generation] on a population that arranges [ids]. *)
Lemma generation_arranged (ids : list string) (st : ga_state) :
  let pop := population (ga_self st) in
  let size := populationSize (ga_config (ga_self st)) in
  ids ≠ [] → NoDup ids →
  pop ≠ [] →
  Z.of_nat (length pop) = size →
  Forall (arranges ids) pop →
  Forall (λ g, is_Some (fitness g)) pop →
  ∃ st',
    generation st = (Ok tt, st')
    ∧ Z.of_nat (length (population (ga_self st'))) = size
    ∧ Forall (arranges ids) (population (ga_self st'))
    ∧ ga_config (ga_self st') = ga_config (ga_self st).
Proof.
  intros pop size Hne Hnd Hpne Hsize Harr Hfit.
  set (sorted := sorted_by fitness_key pop).
  assert (Hperm : sorted ≡ₚ pop) by apply sorted_by_Permutation.
  destruct sorted as [|best others] eqn:Hsorted.
  { apply Permutation_nil_l in Hperm. by rewrite <- Hperm in Hpne. }
  assert (Harr' : Forall (arranges ids) (best :: others)) by by rewrite Hperm.
  set (st1 := GAState (set_population (best :: others) (ga_self st)) (ga_proc st)).
  destruct (generation_loop_run (Z.to_nat size) size [best] st1)
    as (more & st2 & Hloop & Hlen & _ & _).
  { change (population (ga_self st1)) with (best :: others).
    eapply Forall_impl; [exact Harr'|]. intros g. by apply arranges_viable. }
  { cbn [length]. lia. }
  { intros _. change (population (ga_self st1)) with (best :: others).
    rewrite Hperm. cbn [length]. lia. }
  pose proof Hloop as Hclosed.
  apply (generation_loop_arranges ids) in Hclosed as (more' & Heq & Hmore & Hcfg);
    [|done..].
  apply app_inv_head in Heq as <-.
  exists (GAState (set_population (best :: more) (ga_self st2))
            (Proc (cursor (ga_proc st2))
               (stdout (ga_proc st2) ++ [Report "new :" (best :: more)]))).
  split_and!.
  - unfold generation. unfold bind at 1, get_population at 1, gets at 1.
    fold pop. unfold bind at 1, lift_outcome at 1.
    rewrite fitness_keys_run by done.
    rewrite sorted_by_decorated. fold sorted. rewrite Hsorted.
    unfold bind at 1, put_population at 1, modify at 1.
    fold st1. unfold bind at 1, index at 1. cbn [lookup list_lookup ret].
    unfold bind at 1, gets at 1. cbn [ga_self st1 set_population ga_config].
    fold size. rewrite (bind_ok _ _ _ _ _ Hloop).
    unfold bind at 1. rewrite in_proc_run. cbn [fst snd print modify].
    reflexivity.
  - cbn [ga_self set_population population]. apply Hlen.
    apply Permutation_length in Hperm. cbn [length] in *. lia.
  - cbn [ga_self set_population population]. constructor; [|done].
    by apply Forall_cons in Harr' as [? _].
  - cbn [ga_self set_population ga_config]. by rewrite Hcfg.
Qed.

(** X9. [generation] keeps the population an arrangement of the same
    parts: when every genome of the [populationSize] genomes holds each
    of the distinct parts [ids] once, has a rotation for every part and
    carries a fitness, [generation] returns, and the new population has
    [populationSize] genomes that each hold every part of [ids] once,
    with a rotation for every part. *)
Theorem generation_keeps_arrangements (ids : list string) (st : ga_state) :
  let pop := population (ga_self st) in
  let size := populationSize (ga_config (ga_self st)) in
  ids ≠ [] → NoDup ids →
  pop ≠ [] →
  Z.of_nat (length pop) = size →
  Forall (arranges ids) pop →
  Forall (λ g, is_Some (fitness g)) pop →
  ∃ st',
    generation st = (Ok tt, st')
    ∧ Z.of_nat (length (population (ga_self st'))) = size
    ∧ Forall (arranges ids) (population (ga_self st'))
    ∧ ga_config (ga_self st') = ga_config (ga_self st).
Proof. apply generation_arranged. Qed.

(** The second loop of the constructor, for genomes that arrange [ids]. *)
Lemma genetic_algorithm_loop_arranges {A} ids (turns : list A) st :
  ids ≠ [] →
  population (ga_self st) ≠ [] →
  Forall (arranges ids) (population (ga_self st)) →
  ∃ st',
    for_each turns
      (λ _, pop <- get_population ;;
            first <- index pop 0 ;;
            mutant <- mutate first ;;
            pop <- get_population ;;
            put_population (pop ++ [mutant])) st = (Ok tt, st')
    ∧ length (population (ga_self st'))
      = (length (population (ga_self st)) + length turns)%nat
    ∧ Forall (arranges ids) (population (ga_self st'))
    ∧ head (population (ga_self st')) = head (population (ga_self st))
    ∧ ga_config (ga_self st') = ga_config (ga_self st)
    ∧ bin_bounds (ga_self st') = bin_bounds (ga_self st)
    ∧ bin_polygon (ga_self st') = bin_polygon (ga_self st)
    ∧ stdout (ga_proc st') = stdout (ga_proc st).
Proof.
  intros Hids. revert st. induction turns as [|a turns IH]; intros st Hne Hall.
  - exists st. cbn. split_and!; [done|lia|done..].
  - destruct (population (ga_self st)) as [|g pop] eqn:Hpop; [done|].
    apply Forall_cons in Hall as Hg. destruct Hg as [Hg _].
    destruct (mutate_arranges ids g st Hids Hg) as (g' & k & Hmut & Hg').
    set (st1 := GAState (set_population ((g :: pop) ++ [g']) (ga_self st))
                  (ga_proc (advance_ga k st))).
    destruct (IH st1) as (st' & Hrun & Hlen & Hall' & Hhd & Hcfg & Hbb & Hbp & Hout).
    { done. }
    { cbn. apply Forall_cons. split; [done|].
      apply Forall_app. split; [by apply Forall_cons in Hall as [_ ?]|].
      by apply Forall_singleton. }
    exists st'. split_and!;
      [|cbn in Hlen; rewrite Hlen, length_app; cbn; lia
       |done|by rewrite Hhd|by rewrite Hcfg|by rewrite Hbb|by rewrite Hbp
       |by rewrite Hout].
    cbn [for_each]. unfold bind at 1.
    unfold bind at 1, get_population at 1, gets at 1. rewrite Hpop.
    unfold bind at 1, index at 1. cbn [lookup list_lookup ret].
    unfold bind at 1. rewrite Hmut.
    unfold bind at 1, get_population at 1, gets at 1.
    unfold put_population, modify. cbn [ga_self advance_ga]. rewrite Hpop.
    exact Hrun.
Qed.

(** The constructor on a non-empty list of parts. *)
Lemma genetic_algorithm_seeded (adam : list face) (bin_polygon : container_t)
    (cfg : config) (p : proc) :
  adam ≠ [] →
  ∃ ga p',
    genetic_algorithm adam bin_polygon cfg p = (Ok ga, p')
    ∧ Z.of_nat (length (population ga)) = Z.max 1 (populationSize cfg)
    ∧ Forall (arranges (shape_ids adam)) (population ga)
    ∧ (∃ angles, head (population ga) = Some (Genome adam angles None))
    ∧ ga_config ga = cfg
    ∧ bin_bounds ga = BinBounds (c_width bin_polygon) (c_height bin_polygon)
    ∧ stdout p' = stdout p.
Proof.
  intros Hne. unfold genetic_algorithm.
  set (self := GeneticAlgorithm _ cfg bin_polygon []).
  destruct (map_M_random_angle_run adam (GAState self p))
    as (angles & k & Hangles & Hlen).
  set (seed := Genome adam angles None).
  set (st1 := GAState (set_population [seed] self) (advance k p)).
  assert (Hids : shape_ids adam ≠ []) by by destruct adam.
  destruct (genetic_algorithm_loop_arranges (shape_ids adam)
              (seq 1 (Z.to_nat (populationSize cfg) - 1)) st1 Hids)
    as (st' & Hrun & Hlen' & Hall & Hhd & Hcfg & Hbb & _ & Hout).
  { done. }
  { apply Forall_singleton. split; [done|]. exact Hlen. }
  assert (Hinit : genetic_algorithm_init adam bin_polygon cfg (GAState self p)
                  = (Ok tt, st')).
  { unfold genetic_algorithm_init. erewrite bind_ok by exact Hangles.
    unfold bind at 1, put_population at 1, modify at 1. exact Hrun. }
  rewrite Hinit. exists (ga_self st'), (ga_proc st').
  split_and!; [done| |done|by exists angles|by rewrite Hcfg|by rewrite Hbb
              |by rewrite Hout].
  rewrite Hlen', length_seq. cbn. lia.
Qed.

(** X10. The constructor of [genetic_algorithm], for a non-empty list of
    parts [adam]: it returns, prints nothing, takes the bounds and the
    configuration as given, and leaves a population of [populationSize]
    genomes (one genome when [populationSize] is below 1). The first
    genome holds [adam] in the order given, and every genome holds the
    parts of [adam], each as often as [adam] does, with a rotation for
    every part. *)
Theorem genetic_algorithm_seeds (adam : list face) (bin_polygon : container_t)
    (cfg : config) (p : proc) :
  adam ≠ [] →
  ∃ ga p',
    genetic_algorithm adam bin_polygon cfg p = (Ok ga, p')
    ∧ Z.of_nat (length (population ga)) = Z.max 1 (populationSize cfg)
    ∧ Forall (arranges (shape_ids adam)) (population ga)
    ∧ (∃ angles, head (population ga) = Some (Genome adam angles None))
    ∧ ga_config ga = cfg
    ∧ bin_bounds ga = BinBounds (c_width bin_polygon) (c_height bin_polygon)
    ∧ stdout p' = stdout p.
Proof. apply genetic_algorithm_seeded. Qed.
End population.

(** A run of X9: three evaluated genomes over the parts 0, 1 and 2. *)
Lemma generation_keeps_arrangements_witness :
  let g1 := Genome [Demo.f0; Demo.f1; Demo.f2] [0; 0; 0] (Some (Q2Qc 3)) in
  let g2 := Genome [Demo.f0; Demo.f1; Demo.f2] [Q2Qc 90; 0; 0] (Some 1) in
  let g3 := Genome [Demo.f0; Demo.f1; Demo.f2] [0; Q2Qc 90; 0] (Some 2) in
  ∃ st',
    @generation Demo.utls Demo.spread (Demo.start [g1; g2; g3]) = (Ok tt, st')
    ∧ length (population (ga_self st')) = 3%nat
    ∧ Forall (arranges ["0"; "1"; "2"]) (population (ga_self st')).
Proof.
  intros g1 g2 g3.
  destruct (@generation_keeps_arrangements Demo.utls Demo.spread
              ["0"; "1"; "2"] (Demo.start [g1; g2; g3]))
    as (st' & Hrun & Hlen & Harr & _).
  - discriminate.
  - apply (bool_decide_unpack _). vm_compute. exact I.
  - discriminate.
  - reflexivity.
  - repeat (constructor; [by split|]). constructor.
  - repeat (constructor; [by eexists|]). constructor.
  - exists st'. split_and!; [done| |done].
    change (populationSize _) with 3%Z in Hlen. lia.
Defined.

(** A run of X10: three parts, a population of three. *)
Lemma genetic_algorithm_seeds_witness :
  ∃ ga p',
    @genetic_algorithm Demo.utls Demo.spread [Demo.f0; Demo.f1; Demo.f2]
      Demo.bin Demo.cfg (Proc 0 []) = (Ok ga, p')
    ∧ length (population ga) = 3%nat
    ∧ Forall (arranges ["0"; "1"; "2"]) (population ga).
Proof.
  destruct (@genetic_algorithm_seeds Demo.utls Demo.spread
              [Demo.f0; Demo.f1; Demo.f2] Demo.bin Demo.cfg (Proc 0 []))
    as (ga & p' & Hrun & Hlen & Harr & _).
  - discriminate.
  - exists ga, p'. split_and!; [done| |done].
    change (populationSize _) with 3%Z in Hlen. lia.
Defined.


(** ** What the genetic operators leave alone *)

Lemma same_setup_refl g : same_setup g g.
Proof. by split_and!. Qed.

Lemma same_setup_trans g1 g2 g3 :
  same_setup g1 g2 → same_setup g2 g3 → same_setup g1 g3.
Proof. intros (?&?&?) (?&?&?). split_and!; congruence. Qed.

Lemma same_setup_set_population pop g : same_setup g (set_population pop g).
Proof. by split_and!. Qed.

(** A sequence that returns: both of its steps have returned. *)
Lemma bind_Ok_inv {S A B} (m : M S A) (k : A → M S B) s b s'' :
  bind m k s = (Ok b, s'') →
  ∃ a s', m s = (Ok a, s') ∧ k a s' = (Ok b, s'').
Proof.
  unfold bind. destruct (m s) as [[a| |] s']; [|done..]. by exists a, s'.
Qed.

Section frames.
Context `{!NfpUtls, !Random}.

(** A mutation that returns has made draws and nothing else. *)
Lemma mutate_frame g st g' st' :
  mutate g st = (Ok g', st') → ∃ k, st' = advance_ga k st.
Proof.
  pose proof (mutate_unfold g st) as Hrun. cbv zeta in Hrun. rewrite Hrun.
  clear Hrun. destruct (decide _); [|intros [= _ <-]; by eexists].
  destruct (last (seq 0 (length (placement g)))) as [i|]; [|done].
  intros H1. apply bind_Ok_inv in H1 as (s & st1 & Hs & H1).
  unfold index in Hs. destruct (_ !! i); [|done]. injection Hs as _ <-.
  apply bind_Ok_inv in H1 as (angle & st2 & Ha & H1).
  rewrite random_angle_run in Ha. injection Ha as _ <-.
  destruct (decide _); [|done]. injection H1 as _ <-.
  rewrite advance_ga_advance_ga. by eexists.
Qed.

(** A crossover that returns has made one draw and nothing else. *)
Lemma mate_frame male female st c st' :
  mate male female st = (Ok c, st') → st' = advance_ga 1 st.
Proof.
  destruct (decide (placement male = [])) as [He|Hne].
  - by rewrite mate_empty.
  - rewrite mate_run by done. by intros [= _ <-].
Qed.

(** A selection that returns has taken [exclude] out of the population
    and made one draw. *)
Lemma random_weighted_individual_frame exclude st g st' :
  random_weighted_individual exclude st = (Ok g, st') →
  st' = selection_state exclude st.
Proof.
  destruct exclude as [ex|].
  - destruct (decide (ex ∈ population (ga_self st))) as [Hin|Hout].
    + rewrite random_weighted_individual_unfold by by intros ? [= <-].
      by intros [= _ <-].
    + unfold random_weighted_individual.
      unfold bind at 1, get_population at 1, gets at 1. unfold bind at 1.
      by rewrite decide_False.
  - rewrite random_weighted_individual_unfold by done. by intros [= _ <-].
Qed.

Lemma generation_loop_frame fuel size new_population st res st' :
  generation_loop fuel size new_population st = (Ok res, st') →
  same_setup (ga_self st) (ga_self st')
  ∧ stdout (ga_proc st') = stdout (ga_proc st).
Proof.
  revert new_population st. induction fuel as [|fuel IH];
    intros new_population st; rewrite generation_loop_unfold;
    (destruct (decide (Z.of_nat (length new_population) < size)%Z);
     [|unfold ret; intros [= _ <-]; split; [apply same_setup_refl|done]]).
  { intros Hd. discriminate Hd. }
  intros Hrun.
  apply bind_Ok_inv in Hrun as (male & st1 & H1 & Hrun).
  apply random_weighted_individual_frame in H1 as ->.
  apply bind_Ok_inv in Hrun as (female & st2 & H2 & Hrun).
  apply random_weighted_individual_frame in H2 as ->.
  apply bind_Ok_inv in Hrun as (children & st3 & H3 & Hrun).
  apply mate_frame in H3 as ->.
  apply bind_Ok_inv in Hrun as (m0 & st4 & H4 & Hrun).
  apply mutate_frame in H4 as [k0 ->]. cbv zeta in Hrun.
  destruct (decide _).
  - apply bind_Ok_inv in Hrun as (m1 & st5 & H5 & Hrun).
    apply mutate_frame in H5 as [k1 ->].
    apply IH in Hrun as [Hsame Hout]. split; [|by rewrite Hout].
    eapply same_setup_trans; [|exact Hsame]. done.
  - apply IH in Hrun as [Hsame Hout]. split; [|by rewrite Hout].
    eapply same_setup_trans; [|exact Hsame]. done.
Qed.

(** What [generation] has left alone when it returns. *)
Lemma generation_returned (st st' : ga_state) :
  generation st = (Ok tt, st') →
  same_setup (ga_self st) (ga_self st')
  ∧ stdout (ga_proc st')
    = stdout (ga_proc st) ++ [Report "new :" (population (ga_self st'))].
Proof.
  unfold generation. intros Hrun.
  apply bind_Ok_inv in Hrun as (pop & st0 & Hs0 & Hrun).
  unfold get_population, gets in Hs0. injection Hs0 as <- <-.
  apply bind_Ok_inv in Hrun as (keyed & st1 & Hs1 & Hrun).
  unfold lift_outcome in Hs1. injection Hs1 as _ <-.
  apply bind_Ok_inv in Hrun as ([] & st2 & Hs2 & Hrun).
  unfold put_population, modify in Hs2. injection Hs2 as <-.
  apply bind_Ok_inv in Hrun as (best & st3 & Hs3 & Hrun).
  unfold index in Hs3. destruct (_ !! 0%nat); [|done]. injection Hs3 as _ <-.
  apply bind_Ok_inv in Hrun as (size & st4 & Hs4 & Hrun).
  unfold gets in Hs4. injection Hs4 as _ <-.
  apply bind_Ok_inv in Hrun as (new & st5 & Hs5 & Hrun).
  apply generation_loop_frame in Hs5 as [Hsame Hout].
  apply bind_Ok_inv in Hrun as ([] & st6 & Hs6 & Hrun).
  rewrite in_proc_run in Hs6. cbn in Hs6. injection Hs6 as <-.
  unfold put_population, modify in Hrun. injection Hrun as <-.
  cbn [ga_self ga_proc stdout set_population population] in *.
  split; [|by rewrite Hout].
  eapply same_setup_trans; [|apply same_setup_set_population].
  eapply same_setup_trans; [|exact Hsame]. apply same_setup_set_population.
Qed.

(** X11. Whenever [generation] returns, it has changed the population
    and nothing else of the genetic algorithm: the configuration, the
    bin bounds and the bin polygon are as before, and it has printed
    one line, the new population. *)
Theorem generation_frame (st st' : ga_state) :
  generation st = (Ok tt, st') →
  same_setup (ga_self st) (ga_self st')
  ∧ stdout (ga_proc st')
    = stdout (ga_proc st) ++ [Report "new :" (population (ga_self st'))].
Proof. apply generation_returned. Qed.

(** The second loop of the constructor changes the population only. *)
Lemma genetic_algorithm_loop_frame {A} (turns : list A) st st' :
  for_each turns
    (λ _, pop <- get_population ;;
          first <- index pop 0 ;;
          mutant <- mutate first ;;
          pop <- get_population ;;
          put_population (pop ++ [mutant])) st = (Ok tt, st') →
  same_setup (ga_self st) (ga_self st')
  ∧ stdout (ga_proc st') = stdout (ga_proc st)
  ∧ (population (ga_self st) ≠ [] →
     head (population (ga_self st')) = head (population (ga_self st))).
Proof.
  revert st. induction turns as [|a turns IH]; intros st Hrun.
  { cbn in Hrun. injection Hrun as <-.
    split_and!; [apply same_setup_refl|done|done]. }
  cbn [for_each] in Hrun.
  apply bind_Ok_inv in Hrun as ([] & st1 & Hturn & Hrun).
  apply IH in Hrun as (Hsame & Hout & Hhead).
  apply bind_Ok_inv in Hturn as (pop & sa & Ha & Hturn).
  unfold get_population, gets in Ha. injection Ha as <- <-.
  apply bind_Ok_inv in Hturn as (first & sb & Hb & Hturn).
  unfold index in Hb.
  destruct (population (ga_self st)) as [|g0 pop] eqn:Hpop; [done|].
  injection Hb as _ <-.
  apply bind_Ok_inv in Hturn as (mutant & sc & Hc & Hturn).
  apply mutate_frame in Hc as [k ->].
  apply bind_Ok_inv in Hturn as (pop' & sd & Hd & Hturn).
  unfold get_population, gets in Hd. injection Hd as <- <-.
  unfold put_population, modify in Hturn. injection Hturn as <-.
  cbn [ga_self advance_ga set_population population] in *. rewrite Hpop in *.
  split_and!; [|by rewrite Hout|intros _; by rewrite Hhead].
  eapply same_setup_trans; [|exact Hsame]. apply same_setup_set_population.
Qed.

(** Whenever the constructor returns, the genetic algorithm has the
    configuration and the bin it was given. *)
Lemma genetic_algorithm_frame adam bin cfg p g p' :
  genetic_algorithm adam bin cfg p = (Ok g, p') →
  ga_config g = cfg
  ∧ bin_bounds g = BinBounds (c_width bin) (c_height bin)
  ∧ bin_polygon g = bin
  ∧ stdout p' = stdout p
  ∧ ∃ angles, head (population g) = Some (Genome adam angles None)
            ∧ length angles = length adam.
Proof.
  unfold genetic_algorithm.
  set (self := GeneticAlgorithm _ cfg bin []).
  destruct (genetic_algorithm_init adam bin cfg (GAState self p))
    as [[[]| |] st'] eqn:Hinit; [|done..].
  intros [= <- <-]. unfold genetic_algorithm_init in Hinit.
  destruct (map_M_random_angle_run adam (GAState self p))
    as (angles & k & Hangles & Hlen).
  rewrite (bind_ok _ _ _ _ _ Hangles) in Hinit.
  apply bind_Ok_inv in Hinit as ([] & st1 & Hput & Hloop).
  unfold put_population, modify in Hput. injection Hput as <-.
  apply genetic_algorithm_loop_frame in Hloop as ((Hc & Hb & Hp) & Hout & Hhead).
  cbn [ga_self ga_proc set_population ga_config bin_bounds bin_polygon
       advance_ga advance stdout population] in *.
  rewrite Hc, Hb, Hp, Hout. split_and!; [done..|].
  exists angles. split; [by apply Hhead|done].
Qed.
End frames.

(** A run of X11: three evaluated genomes. *)
Lemma generation_frame_witness :
  let g1 := Genome [Demo.f0; Demo.f1; Demo.f2] [0; 0; 0] (Some (Q2Qc 3)) in
  let g2 := Genome [Demo.f1; Demo.f0; Demo.f2] [0; 0; 0] (Some 1) in
  let g3 := Genome [Demo.f2; Demo.f1; Demo.f0] [0; 0; 0] (Some 2) in
  let st' := (@generation Demo.utls Demo.spread (Demo.start [g1; g2; g3])).2 in
  ga_config (ga_self st') = Demo.cfg
  ∧ stdout (ga_proc st') = [Report "new :" (population (ga_self st'))].
Proof.
  intros g1 g2 g3 st'.
  assert (Hok : is_ok (@generation Demo.utls Demo.spread
                         (Demo.start [g1; g2; g3])).1 = true)
    by (vm_compute; reflexivity).
  subst st'.
  destruct (@generation Demo.utls Demo.spread (Demo.start [g1; g2; g3]))
    as [[[]| |] st'] eqn:Hrun; [|discriminate Hok..].
  destruct (@generation_frame Demo.utls Demo.spread _ _ Hrun)
    as [(Hcfg & _ & _) Hout].
  split; [exact Hcfg|exact Hout].
Defined.


(** ** Ingestion: [clean_polygon], [add_container], [add_objects] *)

Section clean_polygon_facts.
Context `{!Pyclipper}.

(** The loop of [clean_polygon]: the area it ends with is at least the
    absolute area of every polygon it has seen. *)
Lemma foldl_bigger rest first a0 :
  let r := foldl bigger (first, a0) rest in
  (r = (first, a0) ∨ r.1 ∈ rest ∧ r.2 = Qcabs.Qcabs (Area r.1))
  ∧ a0 <= r.2
  ∧ ∀ s, s ∈ rest → Qcabs.Qcabs (Area s) <= r.2.
Proof.
  revert first a0. induction rest as [|s rest IH]; intros first a0 r.
  { subst r. cbn. split_and!; [by left|apply Qcle_refl|].
    intros s Hs. by apply elem_of_nil in Hs. }
  subst r. cbn [foldl].
  assert (Hstep : bigger (first, a0) s
                  = if decide (a0 < Qcabs.Qcabs (Area s))
                    then (s, Qcabs.Qcabs (Area s)) else (first, a0)) by done.
  rewrite Hstep. clear Hstep.
  destruct (decide (a0 < Qcabs.Qcabs (Area s))) as [Hlt|Hge].
  - destruct (IH s (Qcabs.Qcabs (Area s))) as (Hr & Hle & Hall).
    split_and!.
    + right. destruct Hr as [->|[Hin ->]]; cbn; [split; [by left|done]|].
      split; [by right|done].
    + eapply Qcle_trans; [apply Qclt_le_weak, Hlt|exact Hle].
    + intros s' [->|Hs']%elem_of_cons; [done|by apply Hall].
  - apply Qcnot_lt_le in Hge.
    destruct (IH first a0) as (Hr & Hle & Hall).
    split_and!.
    + destruct Hr as [->|[Hin ->]]; [by left|]. right. split; [by right|done].
    + done.
    + intros s' [->|Hs']%elem_of_cons; [|by apply Hall].
      eapply Qcle_trans; [exact Hge|exact Hle].
Qed.

(** X12. What [clean_polygon] cleans, when it returns a polygon: a
    polygon [biggest] of the simplified ones, whose absolute area is at
    least the absolute area of every simplified polygon after the first
    and at least the signed area of the first (the first polygon enters
    the comparison with its signed area). The cleaned polygon has a
    point. *)
Theorem clean_polygon_biggest (cfg : config) (polygon clean : path) :
  clean_polygon cfg polygon = Some clean →
  ∃ first rest biggest,
    SimplifyPolygon polygon = Some (first :: rest)
    ∧ biggest ∈ first :: rest
    ∧ CleanPolygon biggest (curveTolerance cfg) = Some clean
    ∧ clean ≠ []
    ∧ Area first <= Qcabs.Qcabs (Area biggest)
    ∧ ∀ s, s ∈ rest → Qcabs.Qcabs (Area s) <= Qcabs.Qcabs (Area biggest).
Proof.
  unfold clean_polygon.
  destruct (SimplifyPolygon polygon) as [[|first rest]|]; [done| |done].
  pose proof (foldl_bigger rest first (Area first)) as (Hr & Hle & Hall).
  destruct (foldl bigger (first, Area first) rest) as [biggest a] eqn:Hfold.
  cbn [fst snd] in *.
  destruct (CleanPolygon biggest (curveTolerance cfg)) as [[|c0 cs]|] eqn:Hclean;
    [done| |done].
  intros [= <-]. exists first, rest, biggest.
  assert (Ha : a <= Qcabs.Qcabs (Area biggest)).
  { destruct Hr as [[= -> ->]|[_ ->]]; [apply Qcabs.Qcle_Qcabs|apply Qcle_refl]. }
  split_and!; [done| |done|done| |].
  - destruct Hr as [[= -> ->]|[Hin _]]; [by left|by right].
  - by eapply Qcle_trans.
  - intros s Hs. eapply Qcle_trans; [by apply Hall|done].
Qed.
End clean_polygon_facts.

(** A run of X12. *)
Lemma clean_polygon_biggest_witness :
  ∃ biggest,
    @CleanPolygon Demo.clipper biggest (curveTolerance Demo.cfg)
    = Some (to_path (Demo.rect 100 50)).
Proof.
  destruct (@clean_polygon_biggest Demo.clipper Demo.cfg
              (to_path (Demo.rect 100 50)) (to_path (Demo.rect 100 50)))
    as (first & rest & biggest & _ & _ & Hclean & _); [reflexivity|].
  by exists biggest.
Defined.

(** The two coordinates of [widen] do not meet. *)
Lemma foldl_widen pts xmax xmin ymax ymin :
  foldl widen (xmax, xmin, ymax, ymin) pts
  = ((foldl stretch (xmax, xmin) (px <$> pts)).1,
     (foldl stretch (xmax, xmin) (px <$> pts)).2,
     (foldl stretch (ymax, ymin) (py <$> pts)).1,
     (foldl stretch (ymax, ymin) (py <$> pts)).2).
Proof.
  revert xmax xmin ymax ymin.
  induction pts as [|p pts IH]; intros xmax xmin ymax ymin; [done|].
  cbn [foldl fmap list_fmap].
  assert (Hstep : widen (xmax, xmin, ymax, ymin) p
                  = ((stretch (xmax, xmin) (px p)).1,
                     (stretch (xmax, xmin) (px p)).2,
                     (stretch (ymax, ymin) (py p)).1,
                     (stretch (ymax, ymin) (py p)).2)).
  { unfold widen, stretch. cbn [fst snd].
    by destruct (decide (xmax < px p)), (decide (px p < xmin)),
                (decide (ymax < py p)), (decide (py p < ymin)). }
  rewrite Hstep, IH. by rewrite <- !surjective_pairing.
Qed.

(** One coordinate: from a state [(hi, lo)] with [lo <= hi], the loop
    ends with the least and the greatest of [lo], [hi] and the values. *)
Lemma foldl_stretch l hi lo :
  lo <= hi →
  let r := foldl stretch (hi, lo) l in
  r.2 <= lo ∧ hi <= r.1
  ∧ Forall (λ v, r.2 <= v ∧ v <= r.1) l
  ∧ (r.2 = lo ∨ r.2 ∈ l) ∧ (r.1 = hi ∨ r.1 ∈ l).
Proof.
  revert hi lo. induction l as [|v l IH]; intros hi lo Hle r.
  { subst r. cbn. split_and!; try apply Qcle_refl; by constructor || left. }
  subst r. cbn [foldl].
  assert (Hstep : stretch (hi, lo) v
                  = if decide (hi < v) then (v, lo)
                    else if decide (v < lo) then (hi, v) else (hi, lo)) by done.
  rewrite Hstep. clear Hstep.
  destruct (decide (hi < v)) as [Hhi|Hhi].
  - destruct (IH v lo) as (H1 & H2 & H3 & H4 & H5).
    { eapply Qcle_trans; [exact Hle|by apply Qclt_le_weak]. }
    split_and!.
    + done.
    + eapply Qcle_trans; [apply Qclt_le_weak, Hhi|done].
    + constructor; [|done]. split; [|done].
      eapply Qcle_trans; [exact H1|].
      eapply Qcle_trans; [exact Hle|by apply Qclt_le_weak].
    + destruct H4 as [->|?]; [by left|right; by right].
    + right. destruct H5 as [->|?]; [by left|by right].
  - apply Qcnot_lt_le in Hhi. destruct (decide (v < lo)) as [Hlo|Hlo].
    + destruct (IH hi v) as (H1 & H2 & H3 & H4 & H5); [done|].
      split_and!.
      * eapply Qcle_trans; [exact H1|by apply Qclt_le_weak].
      * done.
      * constructor; [|done]. split; [done|].
        eapply Qcle_trans; [exact Hhi|done].
      * right. destruct H4 as [->|?]; [by left|by right].
      * destruct H5 as [->|?]; [by left|right; by right].
    + apply Qcnot_lt_le in Hlo.
      destruct (IH hi lo Hle) as (H1 & H2 & H3 & H4 & H5).
      split_and!; [done|done| | |].
      * constructor; [|done].
        split; eapply Qcle_trans; [exact H1|exact Hlo|exact Hhi|exact H2].
      * destruct H4 as [->|?]; [by left|right; by right].
      * destruct H5 as [->|?]; [by left|right; by right].
Qed.

Lemma foldl_stretch_spans v l :
  let r := foldl stretch (v, v) (v :: l) in spans r.2 r.1 (v :: l).
Proof.
  intros r. destruct (foldl_stretch (v :: l) v v (Qcle_refl v))
    as (_ & _ & H3 & H4 & H5). fold r in H3, H4, H5.
  split_and!.
  - destruct H4 as [->|?]; [by left|done].
  - destruct H5 as [->|?]; [by left|done].
  - done.
Qed.

Section add_container_facts.
Context `{!Pyclipper, !NfpUtls, !PlacementWorker, !Settings, !Random}.

(** X13. [add_container] on a polygon that [clean_polygon] accepts
    returns and stores the cleaned points under the id ["-1"], with the
    width and the height of their bounding box: the difference of the
    greatest and the least [x], and of the greatest and the least [y],
    among the points. It sets [container_bounds] and changes no other
    attribute. *)
Theorem add_container_bounding_box (c clean : path) (w : world) :
  clean_polygon (n_config (self w)) c = Some clean →
  let pts := of_path clean in
  ∃ xmin xmax ymin ymax,
    spans xmin xmax (px <$> pts)
    ∧ spans ymin ymax (py <$> pts)
    ∧ add_container c w
      = (Ok tt,
         World
           (set_container_bounds (Some (get_polygon_bounds pts))
              (set_container
                 (Some (Container pts "-1" (xmax - xmin) (ymax - ymin)))
                 (self w)))
           (w_proc w)).
Proof.
  intros Hclean pts.
  assert (Hne : clean ≠ []).
  { unfold clean_polygon in Hclean.
    destruct (SimplifyPolygon c) as [[|first rest]|]; [done| |done].
    destruct (CleanPolygon _ _) as [[|c0 cs]|]; [done| |done].
    by injection Hclean as <-. }
  destruct clean as [|c0 cs]; [done|].
  set (p0 := Point c0.1 c0.2).
  set (rx := foldl stretch (px p0, px p0) (px <$> pts)).
  set (ry := foldl stretch (py p0, py p0) (py <$> pts)).
  exists rx.2, rx.1, ry.2, ry.1. split_and!.
  - exact (foldl_stretch_spans (px p0) (fmap (M:=list) px (of_path cs))).
  - exact (foldl_stretch_spans (py p0) (fmap (M:=list) py (of_path cs))).
  - unfold add_container. unfold bind at 1, gets at 1. rewrite Hclean.
    cbv zeta. change (of_path (c0 :: cs)) with (p0 :: of_path cs).
    cbv beta iota. rewrite foldl_widen. reflexivity.
Qed.
End add_container_facts.

(** A run of X13: the container of 100 by 50. *)
Lemma add_container_bounding_box_witness :
  let w0 := World (@Nester_init Demo.settings None None) (Proc 0 []) in
  let w' := (@add_container Demo.clipper Demo.utls
               (to_path (Demo.rect 100 50)) w0).2 in
  ∃ xmin xmax,
    spans xmin xmax (px <$> Demo.rect 100 50)
    ∧ c_width <$> container (self w') = Some (xmax - xmin).
Proof.
  intros w0 w'.
  destruct (@add_container_bounding_box Demo.clipper Demo.utls
              (to_path (Demo.rect 100 50)) (to_path (Demo.rect 100 50)) w0)
    as (xmin & xmax & ymin & ymax & Hx & _ & Hrun); [reflexivity|].
  exists xmin, xmax. split; [exact Hx|]. subst w'. by rewrite Hrun.
Defined.

Section add_objects_facts.
Context `{!Pyclipper, !NfpUtls, !PlacementWorker, !Settings, !Random}.

(** The shape dict of a cleaned polygon: the id is ["0"] whatever the
    position of the object, the ring is clockwise, and the area is the
    absolute area of the ring. *)
Lemma make_shape_facts pts :
  let s := make_shape pts in
  p_id s = "0" ∧ clockwise (points s)
  ∧ area s = Qcabs.Qcabs (polygon_area (points s)).
Proof.
  intros s. split_and!; [done|apply make_shape_clockwise|].
  subst s. unfold make_shape. cbn [area points].
  destruct (decide _); [|done].
  by rewrite polygon_area_reverse, Qcabs.Qcabs_opp.
Qed.

(** The loop of [add_objects] over objects that [clean_polygon] accepts. *)
Lemma add_objects_loop_run cfg good cleaned rest total w old :
  n_config (self w) = cfg →
  shapes (self w) = Some old →
  Forall2 (λ o c, clean_polygon cfg o = Some c) good cleaned →
  add_objects_loop (good ++ rest) total w
  = add_objects_loop rest
      (foldl (λ t s, t + area s) total (make_shape <$> cleaned))
      (World (set_shapes (Some (old ++ (make_shape <$> cleaned))) (self w))
         (w_proc w)).
Proof.
  intros Hcfg Hold Hall. revert total w old Hcfg Hold.
  induction Hall as [|o c good cleaned Hc _ IH]; intros total w old Hcfg Hold.
  - cbn [app fmap list_fmap foldl]. rewrite app_nil_r, <- Hold.
    by destruct w as [[] ?].
  - cbn [app add_objects_loop]. unfold bind at 1, gets at 1. rewrite Hcfg, Hc.
    unfold bind at 1, update at 1, modify at 1. rewrite Hold.
    cbn [default fmap list_fmap foldl].
    rewrite (IH _ _ (old ++ [make_shape c])) by done.
    by rewrite <- app_assoc.
Qed.

(** The first step of [add_objects]: a missing or empty shape list
    becomes a fresh empty list. *)
Lemma add_objects_start (n : nester) :
  let n' := match shapes n with
            | None | Some [] => set_shapes (Some []) n
            | Some _ => n
            end in
  shapes n' = Some (default [] (shapes n))
  ∧ n_config n' = n_config n
  ∧ ∀ v, set_shapes v n' = set_shapes v n.
Proof. destruct n as [? [[|??]|] ? ? ? ? ? ? ? ?]; by cbn. Qed.

(** X14. [add_objects] on objects that [clean_polygon] all accepts, with
    a non-zero [BIN_HEIGHT]: it returns and appends one shape per
    object, in order, to the shapes stored before. Every new shape has
    the id ["0"], a clockwise ring and the absolute area of its ring;
    [shapes_max_length] becomes the total area of the shapes of this
    call, divided by [BIN_HEIGHT] and times 3. Nothing else changes. *)
Theorem add_objects_appends (objects cleaned : list path) (w : world) :
  BIN_HEIGHT ≠ 0 →
  Forall2 (λ o c, clean_polygon (n_config (self w)) o = Some c)
    objects cleaned →
  let new := make_shape <$> cleaned in
  add_objects objects w
  = (Ok tt,
     World
       (set_shapes_max_length (total_area_of new / BIN_HEIGHT * Q2Qc 3)
          (set_shapes (Some (default [] (shapes (self w)) ++ new)) (self w)))
       (w_proc w))
  ∧ Forall (λ s, p_id s = "0" ∧ clockwise (points s)
                 ∧ area s = Qcabs.Qcabs (polygon_area (points s))) new.
Proof.
  intros Hbin Hall new. split.
  - unfold add_objects. unfold bind at 1, update at 1, modify at 1.
    destruct (add_objects_start (self w)) as (Hold & Hcfg & Hset).
    set (n0 := match shapes (self w) with Some (_ :: _) => _ | _ => _ end) in *.
    set (w0 := World n0 (w_proc w)).
    rewrite <- (app_nil_r objects).
    unfold bind at 1.
    rewrite (add_objects_loop_run _ objects cleaned [] 0 w0 _ Hcfg Hold)
      by done.
    cbn [add_objects_loop ret]. rewrite decide_False by done.
    unfold update, modify. cbn [self w_proc]. fold new.
    unfold total_area_of. f_equal. f_equal. f_equal. apply Hset.
  - apply Forall_fmap, Forall_forall. intros pts _. apply make_shape_facts.
Qed.

(** X15. [add_objects] with an object that [clean_polygon] rejects
    raises [TypeError] at that object: the shapes of the objects before
    it have been appended, [shapes_max_length] keeps its old value, and
    the objects after it are not looked at. *)
Theorem add_objects_rejects (good cleaned : list path) (bad : path)
    (rest : list path) (w : world) :
  Forall2 (λ o c, clean_polygon (n_config (self w)) o = Some c) good cleaned →
  clean_polygon (n_config (self w)) bad = None →
  add_objects (good ++ bad :: rest) w
  = (Raise TypeError,
     World
       (set_shapes
          (Some (default [] (shapes (self w)) ++ (make_shape <$> cleaned)))
          (self w))
       (w_proc w)).
Proof.
  intros Hall Hbad. unfold add_objects.
  unfold bind at 1, update at 1, modify at 1.
  destruct (add_objects_start (self w)) as (Hold & Hcfg & Hset).
  set (n0 := match shapes (self w) with Some (_ :: _) => _ | _ => _ end) in *.
  set (w0 := World n0 (w_proc w)).
  unfold bind at 1.
  rewrite (add_objects_loop_run _ good cleaned (bad :: rest) 0 w0 _ Hcfg Hold)
    by done.
  cbn [add_objects_loop]. unfold bind at 1, gets at 1.
  cbn [self w_proc w0 n_config set_shapes]. rewrite Hcfg, Hbad.
  unfold raise. f_equal. f_equal. apply Hset.
Qed.
End add_objects_facts.

(** A run of X14: two rectangles, both stored under the id ["0"]. *)
Lemma add_objects_appends_witness :
  let w0 := World (@Nester_init Demo.settings None None) (Proc 0 []) in
  let w' := (@add_objects Demo.clipper Demo.settings
               [to_path (Demo.rect 100 50); to_path (Demo.rect 20 10)] w0).2 in
  fmap (M:=list) p_id <$> shapes (self w') = Some ["0"; "0"]
  ∧ shapes_max_length (self w') = Q2Qc 312.
Proof.
  intros w0 w'.
  destruct (@add_objects_appends Demo.clipper Demo.settings
              [to_path (Demo.rect 100 50); to_path (Demo.rect 20 10)]
              [to_path (Demo.rect 100 50); to_path (Demo.rect 20 10)] w0)
    as [Hrun _].
  - discriminate.
  - by repeat constructor.
  - subst w'. rewrite Hrun. split; [reflexivity|].
    apply (bool_decide_unpack _). vm_compute. exact I.
Defined.

(** A run of X15: the second object has two points. *)
Lemma add_objects_rejects_witness :
  let w0 := World (@Nester_init Demo.settings None None) (Proc 0 []) in
  let segment := [(0, 0); (1, 1)] in
  let r := @add_objects Strict.clipper Demo.settings
             [to_path (Demo.rect 100 50); segment; to_path (Demo.rect 20 10)]
             w0 in
  r.1 = Raise TypeError
  ∧ length <$> shapes (self r.2) = Some 1%nat
  ∧ shapes_max_length (self r.2) = 0.
Proof.
  intros w0 segment r.
  pose proof (@add_objects_rejects Strict.clipper Demo.settings
                [to_path (Demo.rect 100 50)] [to_path (Demo.rect 100 50)]
                segment [to_path (Demo.rect 20 10)] w0) as Hrun.
  subst r. cbn [app] in Hrun. rewrite Hrun.
  - by split_and!.
  - by repeat constructor.
  - reflexivity.
Defined.


(** ** [process_nfp] and [minkowski_difference] *)

Lemma Qcabs_orient r :
  Qcabs.Qcabs (polygon_area (orient r)) = Qcabs.Qcabs (polygon_area r).
Proof.
  unfold orient. destruct (decide _); [|done].
  by rewrite polygon_area_reverse, Qcabs.Qcabs_opp.
Qed.

Section nfp_facts.
Context `{!Pyclipper, !NfpUtls}.

(** The first ring passes the area check. *)
Lemma area_check_first search_edges A r rest :
  area_check_fails search_edges A 0 (r :: rest) = false →
  Qcabs.Qcabs (polygon_area A) <= Qcabs.Qcabs (polygon_area r).
Proof.
  cbn [area_check_fails]. rewrite bool_decide_true by done.
  rewrite orb_true_r. cbn [andb].
  destruct (bool_decide_reflect
    (Qcabs.Qcabs (polygon_area r) < Qcabs.Qcabs (polygon_area A))) as [|Hge];
    [done|]. intros _. by apply Qcnot_lt_le.
Qed.

(** X16. Whenever [process_nfp] returns a result for an outer pair, in
    either mode of [exploreConcave], the result holds at least one ring,
    the first ring is clockwise, and its absolute area is at least the
    absolute area of the rotated [A]. *)
Theorem process_nfp_outer_result (cfg : config) (pr : nfp_pair)
    (res : nfp_result) (A : ring) :
  let A' := r_points (rotate_polygon A (k_A_rotation (pair_key pr))) in
  k_inside (pair_key pr) = false →
  pair_A pr = Some A →
  process_nfp cfg (Some pr) = Ok (Some res) →
  ∃ r0 rest,
    res = NfpResult (pair_key pr) (Some (r0 :: rest))
    ∧ clockwise r0
    ∧ Qcabs.Qcabs (polygon_area A') <= Qcabs.Qcabs (polygon_area r0).
Proof.
  intros A' Hin HA. unfold process_nfp. rewrite HA, Hin. cbn [obind].
  fold A'. intros Hrun.
  set (B' := r_points (rotate_polygon (pair_B pr) _)) in Hrun.
  assert (Hcheck : ∃ nfp, check_outer cfg (pair_key pr) A' nfp = Ok (Some res)).
  { destruct (exploreConcave cfg); cbn [obind] in Hrun; [by eexists|].
    destruct (minkowski_difference A' B'); cbn [obind] in Hrun;
      [by eexists|done..]. }
  clear Hrun. destruct Hcheck as [nfp Hcheck]. unfold check_outer in Hcheck.
  destruct nfp as [[|r rest]|]; [done| |done].
  destruct (area_check_fails _ _ _ _) eqn:Harea; [done|].
  apply area_check_first in Harea. cbn [orient_outer] in Hcheck.
  destruct (omap_M _ rest) as [rest'| |]; cbn [obind] in Hcheck; [|done..].
  injection Hcheck as <-. exists (orient r), rest'.
  split_and!; [done|apply orient_clockwise|by rewrite Qcabs_orient].
Qed.
End nfp_facts.

Section minkowski_raises.
Context `{!Pyclipper}.

(** X17. When [minkowski_difference] returns and when it raises. With
    no polygon in the Minkowski sum it raises [TypeError] ([len] of
    [None]); with polygons that all have points but no point in [B] it
    raises [IndexError] ([Bc[0]]); with a polygon in the sum and a point
    in [B] it returns one ring. *)
Theorem minkowski_difference_raises (A B : ring) :
  let solution := MinkowskiSum (to_path A) (negate B) in
  (solution = [] → minkowski_difference A B = Raise TypeError)
  ∧ (solution ≠ [] → Forall (λ p, p ≠ []) solution → B = [] →
     minkowski_difference A B = Raise IndexError)
  ∧ (solution ≠ [] → B ≠ [] → ∃ r, minkowski_difference A B = Ok [r]).
Proof.
  intros solution. split_and!.
  - apply minkowski_difference_empty.
  - intros Hne Hpts ->. unfold minkowski_difference. fold solution.
    destruct (select_smallest_nonempty solution Hne) as (q & Hq & -> & _).
    rewrite Forall_forall in Hpts. specialize (Hpts q Hq).
    destruct q as [|v q]; [done|]. reflexivity.
  - intros Hne HB. destruct B as [|b0 B]; [done|].
    destruct (minkowski_difference_selects A (b0 :: B) b0 eq_refl Hne)
      as (p & _ & _ & ->). by eexists.
Qed.
End minkowski_raises.

(** A run of X16: two rectangles. *)
Lemma process_nfp_outer_result_witness :
  ∃ r0 rest,
    @process_nfp Demo.clipper Demo.utls Demo.cfg
      (Some (Pair (Some (Demo.rect 20 10)) (Demo.rect 10 10)
               (Key "0" "1" false 0 0)))
    = Ok (Some (NfpResult (Key "0" "1" false 0 0) (Some (r0 :: rest))))
    ∧ clockwise r0.
Proof.
  set (pr := Pair (Some (Demo.rect 20 10)) (Demo.rect 10 10)
               (Key "0" "1" false 0 0)).
  assert (Hrun : ∃ res, @process_nfp Demo.clipper Demo.utls Demo.cfg (Some pr)
                        = Ok (Some res)).
  { destruct (@minkowski_difference_selects Demo.clipper
                (Demo.rect 20 10) (Demo.rect 10 10) (Demo.pt 0 0))
      as (p & Hp & _ & Hmd); [reflexivity|discriminate|].
    apply list_elem_of_singleton in Hp. subst p.
    unfold pr. rewrite process_nfp_outer by reflexivity.
    change (minkowski_difference _ _)
      with (@minkowski_difference Demo.clipper
              (Demo.rect 20 10) (Demo.rect 10 10)).
    rewrite Hmd.
    cbn [obind check_outer area_check_fails orient_outer omap_M
         exploreConcave Demo.cfg negb orb].
    match goal with
    | |- context [bool_decide ?P] =>
        assert (Hb : bool_decide P = false) by (vm_compute; reflexivity);
        rewrite Hb
    end.
    cbn [andb orb negb obind]. by eexists. }
  destruct Hrun as [res Hrun].
  destruct (@process_nfp_outer_result Demo.clipper Demo.utls Demo.cfg pr res
              (Demo.rect 20 10) eq_refl eq_refl Hrun)
    as (r0 & rest & -> & Hcw & _).
  exists r0, rest. split; [exact Hrun|exact Hcw].
Defined.

(** A run of X17: a polygon [B] without points. *)
Lemma minkowski_difference_raises_witness :
  @minkowski_difference Strict.clipper (Demo.rect 20 10) [] = Raise TypeError.
Proof.
  destruct (@minkowski_difference_raises Strict.clipper (Demo.rect 20 10) [])
    as (Hraise & _ & _).
  by apply Hraise.
Defined.


(** ** [find_fitness] *)

Section evaluation.
Context `{!Pyclipper, !NfpUtls, !PlacementWorker}.

(** X18. [find_fitness] on a genome with fewer rotations than parts
    raises [IndexError] while it pairs the parts with their rotations,
    before it touches the nester: the cache and the worker are as
    before. *)
Theorem find_fitness_short_rotation (g : genome) (w : world) :
  (length (rotation g) < length (placement g))%nat →
  find_fitness g w = (Raise IndexError, w).
Proof.
  intros Hlen. unfold find_fitness.
  unfold bind at 1, lift_outcome at 1.
  by rewrite append_rotations_short.
Qed.

(** [generate_nfp] with a worker in place. *)
Lemma generate_nfp_eq pair_list w wk :
  worker (self w) = Some wk →
  let cache := foldl store (nfp_cache (self w)) pair_list in
  let wk' := Worker (w_container wk) (w_place_list wk) (w_ids wk)
               (w_rotations wk) (w_config wk) cache in
  generate_nfp pair_list w
  = (Ok (place_paths wk'),
     World (set_worker (Some wk') (set_nfp_cache cache (self w))) (w_proc w)).
Proof.
  intros Hwk cache wk'. unfold generate_nfp.
  unfold bind at 1, update at 1, modify at 1.
  unfold bind at 1, gets at 1. cbn [self set_nfp_cache worker].
  rewrite Hwk. unfold bind, update, modify, ret. done.
Qed.

(** Overwriting the cache and the worker a second time. *)
Lemma set_worker_set_nfp_cache wk wk' c c' n :
  set_worker wk' (set_nfp_cache c' (set_worker wk (set_nfp_cache c n)))
  = set_worker wk' (set_nfp_cache c' n).
Proof. done. Qed.

(** What [find_fitness] has done when it returns. *)
Lemma find_fitness_returned (g : genome) (w w' : world) (res : result) :
  find_fitness g w = (Ok res, w') →
  ∃ wk,
    res = place_paths wk
    ∧ wk = Worker (container (self w)) (genes g) (shape_ids (placement g))
             (rotation g) (n_config (self w)) (nfp_cache (self w'))
    ∧ w' = World (set_worker (Some wk)
                    (set_nfp_cache (nfp_cache (self w')) (self w)))
             (w_proc w).
Proof.
  intros Hrun.
  destruct (decide (length (placement g) ≤ length (rotation g))%nat) as [Hlen|Hlen].
  2:{ unfold find_fitness in Hrun. unfold bind at 1, lift_outcome at 1 in Hrun.
      rewrite append_rotations_short in Hrun by lia. done. }
  rewrite find_fitness_unfold in Hrun by done.
  destruct (omap_M _ _) as [pair_list| |]; [|done..].
  erewrite generate_nfp_eq in Hrun by done.
  cbv zeta in Hrun. injection Hrun as <- <-. eexists. split; [done|].
  cbn [self nfp_cache set_worker set_nfp_cache w_container w_place_list w_ids
       w_rotations w_config worker].
  split; [done|]. by rewrite set_worker_set_nfp_cache.
Qed.

(** X19. Whenever [find_fitness] returns, what it returns is
    [place_paths] of the worker it has stored. That worker holds the
    container, the configuration, the parts of the genome paired with
    their rotations, their ids and the rotations, and a cache equal to
    the cache of the nester. Of the nester only the cache and the worker
    have changed; nothing is printed and no draw is made. *)
Theorem find_fitness_result (g : genome) (w w' : world) (res : result) :
  find_fitness g w = (Ok res, w') →
  ∃ wk,
    res = place_paths wk
    ∧ wk = Worker (container (self w)) (genes g) (shape_ids (placement g))
             (rotation g) (n_config (self w)) (nfp_cache (self w'))
    ∧ w' = World (set_worker (Some wk)
                    (set_nfp_cache (nfp_cache (self w')) (self w)))
             (w_proc w).
Proof. apply find_fitness_returned. Qed.





(** X21. When the cache holds an entry for every key the genome refers
    to, [find_fitness] computes no NFP: it returns, whatever
    [process_nfp] would do, and the cache it leaves holds the entries
    of the referenced keys as they were, and no other entry. *)
Theorem find_fitness_cache_hit (g : genome) (w : world) :
  (length (placement g) ≤ length (rotation g))%nat →
  (∀ k, referenced g k → is_Some (nfp_cache (self w) !! k)) →
  ∃ res w',
    find_fitness g w = (Ok res, w')
    ∧ (∀ k, referenced g k →
            nfp_cache (self w') !! k = nfp_cache (self w) !! k)
    ∧ (∀ k, ¬ referenced g k → nfp_cache (self w') !! k = None).
Proof.
  intros Hlen Hall. rewrite find_fitness_unfold by done.
  set (cache := nfp_cache (self w)) in *.
  destruct (collect_pairs_spec cache (container (self w)) g)
    as ([Hpairs Hnc] & Hhit).
  set (st := collect_pairs cache (container (self w)) []
               (zip (placement g) (rotation g)) ([], ∅)) in *.
  assert (Hempty : st.1 = []).
  { destruct st.1 as [|pr prs] eqn:Hst; [done|].
    destruct (Hpairs pr) as [Hnone Href]; [by left|].
    destruct (Hall _ Href) as [v Hv]. congruence. }
  rewrite Hempty. cbn [omap_M]. erewrite generate_nfp_eq by done.
  cbv zeta. eexists _, _. split; [done|].
  cbn [self nfp_cache set_worker set_nfp_cache foldl]. split.
  - intros k Href. destruct (Hall k Href) as [v Hv]. rewrite Hv.
    by apply Hhit.
  - intros k Hnot. destruct (st.2 !! k) as [v|] eqn:Hk; [|done].
    destruct (Hnc k v Hk) as [_ Href]. done.
Qed.
End evaluation.

(** A run of X18: two parts, one rotation. *)
Lemma find_fitness_short_rotation_witness :
  let g := Genome [Demo.f0; Demo.f1] [0] None in
  let w := World (set_container (Some Demo.bin)
                    (@Nester_init Demo.settings None None)) (Proc 0 []) in
  @find_fitness Demo.clipper Demo.utls Demo.placer g w = (Raise IndexError, w).
Proof.
  intros g w.
  apply (@find_fitness_short_rotation Demo.clipper Demo.utls Demo.placer).
  cbn. lia.
Defined.

(** A run of X19: two parts in the bin, an empty cache. *)
Lemma find_fitness_result_witness :
  let g := Genome [Demo.f0; Demo.f1] [0; 0] None in
  let w := World (set_container (Some Demo.bin)
                    (@Nester_init Demo.settings None None)) (Proc 0 []) in
  ∃ wk w',
    @find_fitness Demo.clipper Demo.utls Demo.placer g w
    = (Ok (Demo.place_all wk), w')
    ∧ w_place_list wk = [(Demo.f0, 0); (Demo.f1, 0)].
Proof.
  intros g w.
  assert (Hok : is_ok (@find_fitness Demo.clipper Demo.utls Demo.placer g w).1
                = true) by (vm_compute; reflexivity).
  destruct (@find_fitness Demo.clipper Demo.utls Demo.placer g w)
    as [[res| |] w'] eqn:Hrun; [|discriminate Hok..].
  destruct (@find_fitness_result Demo.clipper Demo.utls Demo.placer g w w' res
              Hrun) as (wk & -> & Hwk & _).
  exists wk, w'. split; [done|]. by rewrite Hwk.
Defined.


(** A run of X21: the one key of the genome is cached, and the nester
    has no container. *)
Lemma find_fitness_cache_hit_witness :
  let g := Genome [Demo.f0] [0] None in
  let k := Key "-1" "0" true 0 0 in
  let w := World (set_nfp_cache (<[k := None]> ∅)
                    (@Nester_init Demo.settings None None)) (Proc 0 []) in
  ∃ res w',
    @find_fitness Demo.clipper Demo.utls Demo.placer g w = (Ok res, w')
    ∧ nfp_cache (self w') !! k = Some None.
Proof.
  intros g k w.
  destruct (@find_fitness_cache_hit Demo.clipper Demo.utls Demo.placer g w)
    as (res & w' & Hrun & Hkeep & _).
  - cbn. lia.
  - intros k' [(i & f & r & Hf & Hr & ->)
              |(i & j & fi & fj & ri & rj & Hij & _ & _ & Hfj & _)].
    + destruct i as [|i]; [|done]. injection Hf as <-. injection Hr as <-.
      cbn. rewrite lookup_insert_eq. by eexists.
    + destruct j as [|j]; [lia|done].
  - exists res, w'. split; [done|]. rewrite Hkeep.
    + cbn. by rewrite lookup_insert_eq.
    + left. exists 0%nat, Demo.f0, 0. repeat split.
Defined.


(** ** [launch_workers] and [run] *)

(** The scan for the best result ends on a result of least fitness. *)
Lemma foldl_better l b0 :
  let b := foldl better b0 l in
  res_fitness b <= res_fitness b0
  ∧ (b = b0 ∨ b ∈ l)
  ∧ ∀ x, x ∈ l → res_fitness b <= res_fitness x.
Proof.
  revert b0. induction l as [|x l IH]; intros b0 b.
  { subst b. cbn. split_and!; [apply Qcle_refl|by left|].
    by intros x ?%elem_of_nil. }
  subst b. cbn [foldl]. destruct (IH (better b0 x)) as (H1 & H2 & H3).
  assert (Hb : res_fitness (better b0 x) <= res_fitness b0
               ∧ res_fitness (better b0 x) <= res_fitness x
               ∧ (better b0 x = b0 ∨ better b0 x = x)).
  { unfold better. destruct (decide _) as [Hlt|Hge].
    - split_and!; [by apply Qclt_le_weak|apply Qcle_refl|by right].
    - split_and!; [apply Qcle_refl|by apply Qcnot_lt_le|by left]. }
  destruct Hb as (Hb1 & Hb2 & Hb3). split_and!.
  - by eapply Qcle_trans.
  - destruct H2 as [->|?]; [|right; by right].
    destruct Hb3 as [->| ->]; [by left|right; by left].
  - intros y [->|Hy]%elem_of_cons; [by eapply Qcle_trans|by apply H3].
Qed.

Lemma evaluated_from_refl g : evaluated_from g g.
Proof. by split_and!. Qed.

Lemma evaluated_from_trans g1 g2 g3 :
  evaluated_from g1 g2 → evaluated_from g2 g3 → evaluated_from g1 g3.
Proof.
  intros (H1 & H2 & H3) (H4 & H5 & H6). split_and!; [congruence..|auto].
Qed.

Lemma same_input_refl n : same_input n n.
Proof. by split_and!. Qed.

Lemma same_input_trans n1 n2 n3 :
  same_input n1 n2 → same_input n2 n3 → same_input n1 n3.
Proof. intros (?&?&?&?&?) (?&?&?&?&?). split_and!; congruence. Qed.

(** Writing a fitness to the genome at [i]. *)
Lemma set_fitness_spec i f ga :
  same_setup ga (set_fitness i f ga)
  ∧ Forall2 evaluated_from (population ga) (population (set_fitness i f ga))
  ∧ (∀ g, population ga !! i = Some g →
          ∃ g', population (set_fitness i f ga) !! i = Some g'
              ∧ is_Some (fitness g')).
Proof.
  unfold set_fitness. split_and!.
  - apply same_setup_set_population.
  - cbn [set_population population].
    apply Forall2_same_length_lookup_2; [by rewrite length_alter|].
    intros j g g' Hg Hg'. destruct (decide (i = j)) as [->|Hne].
    + rewrite list_lookup_alter_eq, Hg in Hg'. cbn in Hg'.
      injection Hg' as <-. split_and!; [done|done|by eexists].
    + rewrite list_lookup_alter_ne, Hg in Hg' by done. injection Hg' as <-.
      apply evaluated_from_refl.
  - intros g Hg. cbn [set_population population].
    rewrite list_lookup_alter_eq, Hg. cbn.
    eexists. split; [done|]. by eexists.
Qed.

Section run_more.
Context `{!Pyclipper, !NfpUtls, !PlacementWorker, !Settings, !Random}.

(** An evaluation leaves the genetic algorithm, the results, the best
    result and the input alone. *)
Lemma find_fitness_frame g w res w' :
  find_fitness g w = (Ok res, w') →
  GA (self w') = GA (self w)
  ∧ results (self w') = results (self w)
  ∧ best (self w') = best (self w)
  ∧ same_input (self w) (self w').
Proof.
  intros Hrun. apply find_fitness_returned in Hrun as (wk & _ & _ & ->).
  by split_and!.
Qed.

Lemma in_GA_run {A} (m : M ga_state A) w ga :
  GA (self w) = Some ga →
  in_GA m w
  = ((m (GAState ga (w_proc w))).1,
     World (set_GA (Some (ga_self (m (GAState ga (w_proc w))).2)) (self w))
       (ga_proc (m (GAState ga (w_proc w))).2)).
Proof.
  intros HGA. unfold in_GA. rewrite HGA.
  by destruct (m (GAState ga (w_proc w))).
Qed.

(** One turn of the evaluation loop of [launch_workers]. *)
Lemma evaluate_turn i w w1 ga :
  GA (self w) = Some ga →
  (pop <- in_GA get_population ;;
   individual <- index pop i ;;
   res <- find_fitness individual ;;
   in_GA (modify (λ s, GAState (set_fitness i (res_fitness res) (ga_self s))
                         (ga_proc s))) ;;;
   update (λ n, set_results (results n ++ [res]) n)) w = (Ok tt, w1) →
  ∃ individual res,
    population ga !! i = Some individual
    ∧ GA (self w1) = Some (set_fitness i (res_fitness res) ga)
    ∧ results (self w1) = results (self w) ++ [res]
    ∧ best (self w1) = best (self w)
    ∧ same_input (self w) (self w1).
Proof.
  intros HGA Hrun.
  apply bind_Ok_inv in Hrun as (pop & wa & Ha & Hrun).
  rewrite (in_GA_run _ _ _ HGA) in Ha. cbn in Ha. injection Ha as <- <-.
  apply bind_Ok_inv in Hrun as (individual & wb & Hb & Hrun).
  unfold index in Hb. destruct (population ga !! i) as [g|] eqn:Hi; [|done].
  injection Hb as -> <-.
  apply bind_Ok_inv in Hrun as (res & wc & Hc & Hrun).
  apply find_fitness_frame in Hc as (HGAc & Hresc & Hbestc & Hinc).
  cbn [self set_GA GA results best] in HGAc, Hresc, Hbestc.
  apply bind_Ok_inv in Hrun as ([] & wd & Hd & Hrun).
  rewrite (in_GA_run _ _ _ HGAc) in Hd. cbn in Hd. injection Hd as <-.
  unfold update, modify in Hrun. injection Hrun as <-.
  exists individual, res. cbn [self set_GA set_results GA results best].
  rewrite Hresc, Hbestc. split_and!; [done..|].
  eapply same_input_trans; [|eapply same_input_trans; [exact Hinc|]];
    by split_and!.
Qed.

(** The evaluation loop of [launch_workers] over the indices [idxs]. *)
Lemma evaluate_loop idxs w w' ga :
  GA (self w) = Some ga →
  for_each idxs
    (λ i, pop <- in_GA get_population ;;
          individual <- index pop i ;;
          res <- find_fitness individual ;;
          in_GA (modify (λ s, GAState (set_fitness i (res_fitness res) (ga_self s))
                                (ga_proc s))) ;;;
          update (λ n, set_results (results n ++ [res]) n)) w = (Ok tt, w') →
  ∃ ga' new,
    GA (self w') = Some ga'
    ∧ same_setup ga ga'
    ∧ Forall2 evaluated_from (population ga) (population ga')
    ∧ (∀ i, i ∈ idxs → ∃ g, population ga' !! i = Some g ∧ is_Some (fitness g))
    ∧ results (self w') = results (self w) ++ new
    ∧ length new = length idxs
    ∧ best (self w') = best (self w)
    ∧ same_input (self w) (self w').
Proof.
  revert w ga. induction idxs as [|i idxs IH]; intros w ga HGA Hrun.
  - cbn in Hrun. injection Hrun as <-. exists ga, [].
    split_and!; [done|apply same_setup_refl| |by intros i ?%elem_of_nil
                |by rewrite app_nil_r|done|done|apply same_input_refl].
    apply Forall2_same_length_lookup_2; [done|].
    intros j g g' Hg Hg'. rewrite Hg in Hg'. injection Hg' as <-.
    apply evaluated_from_refl.
  - cbn [for_each] in Hrun.
    apply bind_Ok_inv in Hrun as ([] & w1 & Hturn & Hrun).
    apply (evaluate_turn i w w1 ga HGA) in Hturn
      as (individual & res & Hi & HGA1 & Hres1 & Hbest1 & Hin1).
    destruct (IH w1 _ HGA1 Hrun)
      as (ga' & new & HGA' & Hsame & Hpop & Hfit & Hres & Hlen & Hbest & Hin).
    destruct (set_fitness_spec i (res_fitness res) ga) as (Hsame1 & Hpop1 & Hfit1).
    exists ga', (res :: new).
    split_and!; [done|by eapply same_setup_trans| |
                |by rewrite Hres, Hres1, <- app_assoc
                |cbn; by rewrite Hlen|by rewrite Hbest
                |by eapply same_input_trans].
    + eapply Forall2_trans; [|exact Hpop1|exact Hpop].
      apply evaluated_from_trans.
    + intros j [->|Hj]%elem_of_cons; [|by apply Hfit].
      destruct (Hfit1 _ Hi) as (g1 & Hg1 & Hf1).
      destruct (Forall2_lookup_l _ _ _ _ _ Hpop Hg1) as (g' & Hg' & _ & _ & Hf').
      exists g'. split; [done|by apply Hf'].
Qed.

(** The first step of [launch_workers]: afterwards a genetic algorithm
    is in place, created from the container or advanced by one
    generation, and the results and the input are as before. *)
Lemma launch_workers_start adam w (u : unit) w1 :
  match GA (self w) with
  | None =>
      match container (self w) with
      | None => raise TypeError
      | Some c =>
          pts <- lift_outcome (polygon_offset (n_config (self w)) (c_points c)
                                 (spacing (n_config (self w)))) ;;
          let offset_bin := Container pts (c_p_id c) (c_width c) (c_height c) in
          g <- in_world_proc
                 (genetic_algorithm adam offset_bin (n_config (self w))) ;;
          update (set_GA (Some g))
      end
  | Some _ => in_GA generation
  end w = (Ok u, w1) →
  ∃ ga, GA (self w1) = Some ga
      ∧ match GA (self w) with
        | Some ga0 => same_setup ga0 ga
        | None =>
            created_for (self w) ga
            ∧ ∃ angles, head (population ga) = Some (Genome adam angles None)
                      ∧ length angles = length adam
        end
      ∧ results (self w1) = results (self w)
      ∧ best (self w1) = best (self w)
      ∧ same_input (self w) (self w1).
Proof.
  destruct (GA (self w)) as [ga0|] eqn:HGA.
  - rewrite (in_GA_run _ _ _ HGA).
    destruct (generation (GAState ga0 (w_proc w))) as [[[]| |] st'] eqn:Hgen;
      [|done..].
    cbn [fst snd]. intros [= _ <-].
    apply generation_returned in Hgen as [Hsame _].
    exists (ga_self st'). split_and!; [done|exact Hsame|done|done|by split_and!].
  - destruct (container (self w)) as [c|] eqn:Hc; [|done]. intros Hrun.
    apply bind_Ok_inv in Hrun as (pts & wa & Ha & Hrun).
    unfold lift_outcome in Ha. injection Ha as Hpts <-.
    apply bind_Ok_inv in Hrun as (g & wb & Hb & Hrun).
    unfold in_world_proc, zoom in Hb.
    destruct (genetic_algorithm _ _ _ _) as [o p1] eqn:Hga.
    injection Hb as -> <-.
    apply genetic_algorithm_frame in Hga as (Hcfg & Hbb & Hbp & _ & Hseed).
    unfold update, modify in Hrun. injection Hrun as _ <-.
    exists g. split_and!; [done| |done|done|done|by split_and!].
    by exists c, pts.
Qed.

(** What [launch_workers] has done when it returns. *)
Lemma launch_workers_returned adam w r w' :
  launch_workers adam w = (Ok r, w') →
  r = None
  ∧ same_input (self w) (self w')
  ∧ ∃ ga new,
      GA (self w') = Some ga
      ∧ match GA (self w) with
        | Some ga0 => same_setup ga0 ga
        | None =>
            created_for (self w) ga
            ∧ ∃ seed, head (population ga) = Some seed
                    ∧ placement seed = adam
                    ∧ length (rotation seed) = length adam
        end
      ∧ (∀ i, (i < Z.to_nat (populationSize (ga_config ga)))%nat →
              ∃ g, population ga !! i = Some g ∧ is_Some (fitness g))
      ∧ results (self w') = results (self w) ++ new
      ∧ length new = Z.to_nat (populationSize (ga_config ga))
      ∧ (results (self w') ≠ [] →
         ∃ b, best (self w') = Some b
            ∧ (b ∈ results (self w') ∨ best (self w) = Some b)
            ∧ ∀ x, x ∈ results (self w') → res_fitness b <= res_fitness x).
Proof.
  intros Hrun. unfold launch_workers in Hrun.
  apply bind_Ok_inv in Hrun as (n & w0 & Hs0 & Hrun).
  unfold gets in Hs0. injection Hs0 as <- <-.
  apply bind_Ok_inv in Hrun as (u & w1 & Hs1 & Hrun).
  apply launch_workers_start in Hs1 as (ga1 & HGA1 & Hset1 & Hres1 & Hbest1 & Hin1).
  apply bind_Ok_inv in Hrun as (size & w2 & Hs2 & Hrun).
  rewrite (in_GA_run _ _ _ HGA1) in Hs2. cbn in Hs2. injection Hs2 as <- <-.
  apply bind_Ok_inv in Hrun as ([] & w3 & Hs3 & Hrun).
  apply (evaluate_loop _ _ _ ga1) in Hs3
    as (ga & new & HGA & Hsame & Hpop & Hfit & Hres & Hlen & Hbest & Hin3);
    [|done].
  cbn [self set_GA results best] in Hres, Hbest.
  assert (Hin : same_input (self w) (self w3)).
  { eapply same_input_trans; [exact Hin1|].
    eapply same_input_trans; [|exact Hin3]. by split_and!. }
  assert (Hset : match GA (self w) with
                 | Some ga0 => same_setup ga0 ga
                 | None =>
                     created_for (self w) ga
                     ∧ ∃ seed, head (population ga) = Some seed
                             ∧ placement seed = adam
                             ∧ length (rotation seed) = length adam
                 end).
  { destruct (GA (self w)); [by eapply same_setup_trans|].
    destruct Hset1 as [(c & pts & ? & ? & ? & ? & ?) (angles & Hhd & Hang)].
    split.
    - destruct Hsame as (? & ? & ?). exists c, pts. split_and!; congruence.
    - destruct (population ga1) as [|g1 pop1]; [done|]. injection Hhd as ->.
      apply Forall2_cons_inv_l in Hpop as (seed & pop' & (Hpl & Hrot & _) & _ & ->).
      exists seed. split_and!; [done|done|by rewrite Hrot]. }
  destruct Hsame as (Hcfg & _ & _).
  apply bind_Ok_inv in Hrun as (n3 & w4 & Hs4 & Hrun).
  unfold gets in Hs4. injection Hs4 as <- <-.
  unfold range in Hlen, Hfit. rewrite length_seq in Hlen. rewrite <- Hcfg in *.
  assert (Hfit' : ∀ i, (i < Z.to_nat (populationSize (ga_config ga)))%nat →
                       ∃ g, population ga !! i = Some g ∧ is_Some (fitness g)).
  { intros i Hi. apply Hfit, elem_of_seq. lia. }
  destruct (results (self w3)) as [|r0 rs] eqn:Hrs.
  { injection Hrun as <- <-. split; [done|]. split; [done|]. exists ga, new.
    rewrite Hrs. split_and!; [done|done|done|by rewrite <- Hres1|done|done]. }
  apply bind_Ok_inv in Hrun as ([] & w5 & Hs5 & Hrun).
  injection Hrun as <- <-. split; [done|].
  destruct (foldl_better (r0 :: rs) r0) as (_ & Hbin & Hmin).
  set (best_result := foldl better r0 (r0 :: rs)) in *.
  assert (Hbin' : best_result ∈ r0 :: rs).
  { destruct Hbin as [->|?]; [by left|done]. }
  assert (Hw5 : GA (self w5) = Some ga
                ∧ results (self w5) = r0 :: rs
                ∧ same_input (self w3) (self w5)
                ∧ ∃ b, best (self w5) = Some b
                     ∧ (b ∈ r0 :: rs ∨ best (self w3) = Some b)
                     ∧ ∀ x, x ∈ r0 :: rs → res_fitness b <= res_fitness x).
  { destruct (best (self w3)) as [b|] eqn:Hb.
    - destruct (decide (res_fitness best_result < res_fitness b)) as [Hlt|Hge].
      + unfold update, modify in Hs5. injection Hs5 as <-.
        cbn [self set_best GA results best]. split_and!; [done..|].
        exists best_result. split_and!; [done|by left|done].
      + unfold ret in Hs5. injection Hs5 as <-.
        split_and!; [done|done|apply same_input_refl|].
        exists b. split_and!; [done|by right|].
        intros x Hx. apply Qcnot_lt_le in Hge.
        eapply Qcle_trans; [exact Hge|by apply Hmin].
    - unfold update, modify in Hs5. injection Hs5 as <-.
      cbn [self set_best GA results best]. split_and!; [done..|].
      exists best_result. split_and!; [done|by left|done]. }
  destruct Hw5 as (HGA5 & Hres5 & Hin5 & b & Hb5 & Hbin5 & Hbmin).
  split; [by eapply same_input_trans|].
  exists ga, new. rewrite Hres5.
  split_and!; [done|done|done|by rewrite <- Hres1|done|].
  intros _. exists b. split_and!; [done| |done].
  destruct Hbin5 as [?|Hb3]; [by left|right]. by rewrite <- Hbest1, <- Hbest.
Qed.

(** [run] past its two checks. *)
Lemma run_returned w r w' c s l :
  container (self w) = Some c →
  shapes (self w) = Some (s :: l) →
  run w = (Ok r, w') →
  ∃ faces,
    offset_faces (n_config (self w)) 0 (s :: l) = Ok faces
    ∧ launch_workers (sorted_by (λ f : face, - area f.2) faces) w = (Ok r, w').
Proof.
  intros Hc Hs. rewrite (run_proceeds w c s l Hc Hs). intros Hrun.
  apply bind_Ok_inv in Hrun as (faces & w1 & Hf & Hrun).
  unfold lift_outcome in Hf. injection Hf as Hf <-. by exists faces.
Qed.

(** X22. [run] never returns a solution and never touches its input:
    whenever it returns, with or without an abort, the value is [None],
    and the container with its bounds, the shapes with their maximal
    length and the configuration are as before. The outcome of a
    nesting is left in the attributes [best] and [results]. *)
Theorem run_returns_none (w w' : world) (r : option (list (list move_step))) :
  run w = (Ok r, w') → r = None ∧ same_input (self w) (self w').
Proof.
  intros Hrun.
  destruct (container (self w)) as [c|] eqn:Hc;
    [destruct (shapes (self w)) as [[|s l]|] eqn:Hs|].
  2:{ apply (run_returned _ _ _ _ _ _ Hc Hs) in Hrun as (faces & _ & Hrun).
      by apply launch_workers_returned in Hrun as (-> & Hin & _). }
  all: unfold run in Hrun;
    apply bind_Ok_inv in Hrun as (n & w0 & Hn & Hrun);
    unfold gets in Hn; injection Hn as <- <-;
    rewrite Hc in Hrun; try rewrite Hs in Hrun;
    apply bind_Ok_inv in Hrun as (u & w1 & Hp & Hrun);
    injection Hrun as <- <-;
    unfold in_world_proc, zoom, print, modify in Hp; injection Hp as _ <-;
    by split; [|apply same_input_refl].
Qed.

(** X23. What a [run] that has a container and shapes has done when it
    returns: a genetic algorithm is in place, each of its first
    [populationSize] genomes carries a fitness, [populationSize] results
    were appended to [results], and, when [results] is not empty, [best]
    is a result of [results] or the best result of before, with a
    fitness that no result of [results] is below. *)
Theorem run_evaluates (w w' : world) (r : option (list (list move_step)))
    (c : container_t) (s : shape) (l : list shape) :
  container (self w) = Some c →
  shapes (self w) = Some (s :: l) →
  run w = (Ok r, w') →
  ∃ ga new,
    GA (self w') = Some ga
    ∧ (∀ i, (i < Z.to_nat (populationSize (ga_config ga)))%nat →
            ∃ g, population ga !! i = Some g ∧ is_Some (fitness g))
    ∧ results (self w') = results (self w) ++ new
    ∧ length new = Z.to_nat (populationSize (ga_config ga))
    ∧ (results (self w') ≠ [] →
       ∃ b, best (self w') = Some b
          ∧ (b ∈ results (self w') ∨ best (self w) = Some b)
          ∧ ∀ x, x ∈ results (self w') → res_fitness b <= res_fitness x).
Proof.
  intros Hc Hs Hrun.
  apply (run_returned _ _ _ _ _ _ Hc Hs) in Hrun as (faces & _ & Hrun).
  apply launch_workers_returned in Hrun
    as (_ & _ & ga & new & HGA & _ & Hfit & Hres & Hlen & Hbest).
  by exists ga, new.
Qed.

(** X24. The genetic algorithm of a nester. The first [run] that gets
    past its checks creates it: it takes the configuration of the
    nester, the container with its points offset by the spacing, and as
    bin bounds the width and the height that [add_container] measured
    on the points before the offset. Every later [run] keeps that
    configuration, those bounds and that bin. *)
Theorem run_genetic_algorithm (w w' : world)
    (r : option (list (list move_step)))
    (c : container_t) (s : shape) (l : list shape) :
  container (self w) = Some c →
  shapes (self w) = Some (s :: l) →
  run w = (Ok r, w') →
  ∃ ga, GA (self w') = Some ga
      ∧ match GA (self w) with
        | Some ga0 => same_setup ga0 ga
        | None => created_for (self w) ga
        end.
Proof.
  intros Hc Hs Hrun.
  apply (run_returned _ _ _ _ _ _ Hc Hs) in Hrun as (faces & _ & Hrun).
  apply launch_workers_returned in Hrun as (_ & _ & ga & new & HGA & Hset & _).
  exists ga. split; [done|]. destruct (GA (self w)); [done|by destruct Hset].
Qed.
End run_more.

(** A run of X22: a nester with the bin of 100 by 50 and three
    rectangles. *)
Lemma run_returns_none_witness :
  let n := set_shapes (Some [Demo.f0.2; Demo.f1.2; Demo.f2.2])
             (set_container (Some Demo.bin)
                (@Nester_init Demo.settings None None)) in
  ∃ w', @run Demo.clipper Demo.utls Demo.placer Demo.spread
          (World n (Proc 0 [])) = (Ok None, w')
      ∧ shapes (self w') = shapes n.
Proof.
  intros n.
  assert (Hok : is_ok (@run Demo.clipper Demo.utls Demo.placer Demo.spread
                         (World n (Proc 0 []))).1 = true)
    by (vm_compute; reflexivity).
  destruct (@run Demo.clipper Demo.utls Demo.placer Demo.spread
              (World n (Proc 0 []))) as [[r| |] w'] eqn:Hrun;
    [|discriminate Hok..].
  destruct (@run_returns_none Demo.clipper Demo.utls Demo.placer Demo.spread
              _ _ _ Hrun) as (-> & _ & _ & Hshapes & _).
  exists w'. split; [reflexivity|exact Hshapes].
Defined.

(** A run of X23 on the same nester. *)
Lemma run_evaluates_witness :
  let n := set_shapes (Some [Demo.f0.2; Demo.f1.2; Demo.f2.2])
             (set_container (Some Demo.bin)
                (@Nester_init Demo.settings None None)) in
  let w' := (@run Demo.clipper Demo.utls Demo.placer Demo.spread
               (World n (Proc 0 []))).2 in
  ∃ ga, GA (self w') = Some ga
      ∧ length (results (self w')) = Z.to_nat (populationSize (ga_config ga)).
Proof.
  intros n w'.
  assert (Hok : is_ok (@run Demo.clipper Demo.utls Demo.placer Demo.spread
                         (World n (Proc 0 []))).1 = true)
    by (vm_compute; reflexivity).
  subst w'.
  destruct (@run Demo.clipper Demo.utls Demo.placer Demo.spread
              (World n (Proc 0 []))) as [[r| |] w'] eqn:Hrun;
    [|discriminate Hok..].
  destruct (@run_evaluates Demo.clipper Demo.utls Demo.placer Demo.spread
              (World n (Proc 0 [])) w' r Demo.bin
              Demo.f0.2 [Demo.f1.2; Demo.f2.2] eq_refl eq_refl Hrun)
    as (ga & new & HGA & _ & Hres & Hlen & _).
  exists ga. split; [exact HGA|]. cbn [snd]. rewrite Hres. exact Hlen.
Defined.

(** A run of X24 on the same nester: the genetic algorithm of the first
    run. *)
Lemma run_genetic_algorithm_witness :
  let n := set_shapes (Some [Demo.f0.2; Demo.f1.2; Demo.f2.2])
             (set_container (Some Demo.bin)
                (@Nester_init Demo.settings None None)) in
  let w' := (@run Demo.clipper Demo.utls Demo.placer Demo.spread
               (World n (Proc 0 []))).2 in
  ∃ ga, GA (self w') = Some ga
      ∧ ga_config ga = n_config n
      ∧ bin_bounds ga = BinBounds (Q2Qc 100) (Q2Qc 50).
Proof.
  intros n w'.
  assert (Hok : is_ok (@run Demo.clipper Demo.utls Demo.placer Demo.spread
                         (World n (Proc 0 []))).1 = true)
    by (vm_compute; reflexivity).
  subst w'.
  destruct (@run Demo.clipper Demo.utls Demo.placer Demo.spread
              (World n (Proc 0 []))) as [[r| |] w'] eqn:Hrun;
    [|discriminate Hok..].
  destruct (@run_genetic_algorithm Demo.clipper Demo.utls Demo.placer
              Demo.spread (World n (Proc 0 [])) w' r Demo.bin
              Demo.f0.2 [Demo.f1.2; Demo.f2.2] eq_refl eq_refl Hrun)
    as (ga & HGA & Hset).
  cbn [self GA] in Hset.
  destruct Hset as (c & pts & Hc & _ & Hcfg & Hbb & _).
  injection Hc as <-.
  exists ga. split; [exact HGA|]. split; [exact Hcfg|exact Hbb].
Defined.


(** ** The faces of [run] *)

Section sorted_more.
Context {A : Type} (k : A → Qc).

Lemma insert_by_sorted a l :
  StronglySorted (λ x y, k x <= k y) l →
  StronglySorted (λ x y, k x <= k y) (insert_by k a l).
Proof.
  induction 1 as [|h t Ht IH Hh]; cbn; [by repeat constructor|].
  case_decide as Hah.
  - constructor; [by constructor|]. constructor; [done|].
    eapply Forall_impl; [exact Hh|]. intros y Hy. by eapply Qcle_trans.
  - constructor; [done|]. apply Qcnot_le_lt, Qclt_le_weak in Hah.
    rewrite Forall_forall. intros y Hy.
    rewrite insert_by_Permutation in Hy.
    apply elem_of_cons in Hy as [->|Hy]; [done|].
    rewrite Forall_forall in Hh. by apply Hh.
Qed.

Lemma sorted_by_sorted l :
  StronglySorted (λ x y, k x <= k y) (sorted_by k l).
Proof.
  induction l as [|a l IH]; cbn; [constructor|by apply insert_by_sorted].
Qed.
End sorted_more.

Lemma StronglySorted_lookup {A} (R : A → A → Prop) l i j x y :
  StronglySorted R l → (i < j)%nat →
  l !! i = Some x → l !! j = Some y → R x y.
Proof.
  intros Hs. revert i j. induction Hs as [|h t _ IH Hh]; intros i j Hij Hi Hj.
  { done. }
  destruct j as [|j]; [lia|]. destruct i as [|i].
  - cbn in Hi, Hj. injection Hi as <-. rewrite Forall_forall in Hh.
    apply Hh. by eapply list_elem_of_lookup_2.
  - cbn in Hi, Hj. apply (IH i j); [lia|done..].
Qed.

Section faces.
Context `{!Pyclipper, !NfpUtls, !PlacementWorker, !Settings, !Random}.

Lemma polygon_offset_cases cfg pts :
  (vanishes cfg pts ∧ polygon_offset cfg pts (spacing cfg) = Raise IndexError)
  ∨ (¬ vanishes cfg pts ∧ ∃ r, polygon_offset cfg pts (spacing cfg) = Ok r).
Proof.
  unfold polygon_offset, vanishes. destruct pts as [|p pts]; [left; by split; [left|]|].
  destruct (OffsetExecute _ _ _ _) as [|r0 rs] eqn:Hoff.
  - left. split; [by right|done].
  - right. split; [|by eexists]. by intros [?|?].
Qed.

Lemma offset_faces_raise cfg i l :
  Exists (λ sh, vanishes cfg (points sh)) l →
  offset_faces cfg i l = Raise IndexError.
Proof.
  intros Hex. revert i. induction Hex as [sh l Hsh|sh l _ IH]; intros i.
  - cbn. destruct (polygon_offset_cases cfg (points sh)) as [[_ ->]|[Hno _]];
      [done|by destruct Hno].
  - cbn. destruct (polygon_offset_cases cfg (points sh)) as [[_ ->]|[_ [r ->]]];
      [done|]. cbn. by rewrite IH.
Qed.

Lemma offset_faces_ok cfg i l faces :
  offset_faces cfg i l = Ok faces →
  length faces = length l
  ∧ ∀ j sh, l !! j = Some sh →
      ∃ pts, polygon_offset cfg (points sh) (spacing cfg) = Ok pts
           ∧ faces !! j = Some (pretty (i + j)%nat,
                                Shape (area sh) (p_id sh) pts).
Proof.
  revert i faces. induction l as [|sh l IH]; intros i faces.
  { cbn. intros [= <-]. split; [done|]. by intros j sh. }
  cbn. destruct (polygon_offset cfg (points sh) (spacing cfg)) as [pts| |] eqn:Hp;
    [|done..].
  cbn. destruct (offset_faces cfg (S i) l) as [rest| |] eqn:Hrest; [|done..].
  cbn. intros [= <-]. destruct (IH _ _ Hrest) as [Hlen Hrest'].
  split; [cbn; by rewrite Hlen|].
  intros [|j] sh' Hj.
  - cbn in Hj. injection Hj as <-. exists pts. split; [done|].
    cbn. by rewrite Nat.add_0_r.
  - cbn in Hj. destruct (Hrest' j sh' Hj) as (pts' & Hp' & Hf).
    exists pts'. split; [done|].
    replace (i + S j)%nat with (S i + j)%nat by lia. exact Hf.
Qed.

(** X25. [run] with a shape that cannot be offset — a shape without
    points, or one of which the offset by the spacing leaves no polygon
    — raises [IndexError] while it builds the faces: no genetic
    algorithm is created, nothing is evaluated or printed. *)
Theorem run_offset_fails (w : world) (c : container_t) (s : shape)
    (l : list shape) :
  container (self w) = Some c →
  shapes (self w) = Some (s :: l) →
  Exists (λ sh, vanishes (n_config (self w)) (points sh)) (s :: l) →
  run w = (Raise IndexError, w).
Proof.
  intros Hc Hs Hex. rewrite (run_proceeds w c s l Hc Hs).
  unfold bind, lift_outcome. by rewrite offset_faces_raise.
Qed.

Lemma sorted_by_decreasing_area (faces : list face) :
  by_decreasing_area (sorted_by (λ f : face, - area f.2) faces).
Proof.
  intros i j fi fj Hij Hi Hj.
  destruct (decide (i = j)) as [->|Hne].
  { rewrite Hi in Hj. injection Hj as <-. apply Qcle_refl. }
  pose proof (StronglySorted_lookup _ _ i j fi fj
                (sorted_by_sorted (λ f : face, - area f.2) faces)
                ltac:(lia) Hi Hj) as Hle.
  cbn beta in Hle. apply Qcopp_le_compat in Hle.
  by rewrite !Qcopp_involutive in Hle.
Qed.

(** X26. The seed genome. When the first [run] of a nester (one that has
    no genetic algorithm yet) returns, the first genome of the
    population holds the faces of all the shapes in order of decreasing
    area, with a rotation for each: the face of the shape at position
    [i] has the id [str(i)], the area and the [p_id] of the shape, and
    its points offset by the spacing. *)
Theorem run_seed_genome (w w' : world) (r : option (list (list move_step)))
    (c : container_t) (s : shape) (l : list shape) :
  GA (self w) = None →
  container (self w) = Some c →
  shapes (self w) = Some (s :: l) →
  run w = (Ok r, w') →
  ∃ ga seed faces,
    GA (self w') = Some ga
    ∧ head (population ga) = Some seed
    ∧ faces_of (n_config (self w)) (s :: l) faces
    ∧ placement seed ≡ₚ faces
    ∧ by_decreasing_area (placement seed)
    ∧ well_formed seed.
Proof.
  intros HGA Hc Hs Hrun.
  apply (run_returned _ _ _ _ _ _ Hc Hs) in Hrun as (faces & Hfaces & Hrun).
  apply launch_workers_returned in Hrun as (_ & _ & ga & new & HGA' & Hset & _).
  rewrite HGA in Hset. destruct Hset as (_ & seed & Hhd & Hpl & Hrot).
  exists ga, seed, faces. split_and!; [done|done| | | |].
  - apply offset_faces_ok in Hfaces as [Hlen Hall]. by split.
  - rewrite Hpl. apply sorted_by_Permutation.
  - rewrite Hpl. apply sorted_by_decreasing_area.
  - unfold well_formed. by rewrite Hrot, Hpl.
Qed.
End faces.

(** A run of X25: a shape without points. *)
Lemma run_offset_fails_witness :
  let n := set_shapes (Some [Demo.f0.2; Shape 0 "0" []])
             (set_container (Some Demo.bin)
                (@Nester_init Demo.settings None None)) in
  @run Demo.clipper Demo.utls Demo.placer Demo.spread (World n (Proc 0 []))
  = (Raise IndexError, World n (Proc 0 [])).
Proof.
  intros n.
  apply (@run_offset_fails Demo.clipper Demo.utls Demo.placer Demo.spread
           (World n (Proc 0 [])) Demo.bin Demo.f0.2 [Shape 0 "0" []]);
    [reflexivity..|].
  right. left. by left.
Defined.

(** A run of X26: three rectangles given smallest first. *)
Lemma run_seed_genome_witness :
  let n := set_shapes (Some [Demo.f2.2; Demo.f1.2; Demo.f0.2])
             (set_container (Some Demo.bin)
                (@Nester_init Demo.settings None None)) in
  let w' := (@run Demo.clipper Demo.utls Demo.placer Demo.spread
               (World n (Proc 0 []))).2 in
  ∃ ga seed,
    GA (self w') = Some ga
    ∧ head (population ga) = Some seed
    ∧ length (placement seed) = 3%nat
    ∧ by_decreasing_area (placement seed).
Proof.
  intros n w'.
  assert (Hok : is_ok (@run Demo.clipper Demo.utls Demo.placer Demo.spread
                         (World n (Proc 0 []))).1 = true)
    by (vm_compute; reflexivity).
  subst w'.
  destruct (@run Demo.clipper Demo.utls Demo.placer Demo.spread
              (World n (Proc 0 []))) as [[r| |] w'] eqn:Hrun;
    [|discriminate Hok..].
  destruct (@run_seed_genome Demo.clipper Demo.utls Demo.placer Demo.spread
              (World n (Proc 0 [])) w' r Demo.bin
              Demo.f2.2 [Demo.f1.2; Demo.f0.2] eq_refl eq_refl eq_refl Hrun)
    as (ga & seed & faces & HGA & Hhd & [Hlen _] & Hperm & Hdec & _).
  exists ga, seed. split_and!; [exact HGA|exact Hhd| |exact Hdec].
  apply Permutation_length in Hperm. rewrite Hperm, Hlen. reflexivity.
Defined.

(** ** From one [run] to the next *)

Lemma arranges_evaluated ids g g' :
  evaluated_from g g' → arranges ids g → arranges ids g'.
Proof.
  intros (Hpl & Hrot & _) [Hids Hwf]. unfold arranges, well_formed in *.
  by rewrite Hpl, Hrot.
Qed.

Section ready_facts.
Context `{!Pyclipper, !NfpUtls, !PlacementWorker, !Settings, !Random}.

Lemma faces_ids cfg i l faces :
  offset_faces cfg i l = Ok faces →
  shape_ids faces = pretty <$> seq i (length l).
Proof.
  revert i faces. induction l as [|sh l IH]; intros i faces.
  { cbn. by intros [= <-]. }
  cbn. destruct (polygon_offset cfg (points sh) (spacing cfg)) as [pts| |];
    [|done..].
  cbn. destruct (offset_faces cfg (S i) l) as [rest| |] eqn:Hrest; [|done..].
  cbn. intros [= <-]. cbn. f_equal. by apply IH.
Qed.

(** The genetic algorithm [launch_workers] leaves: the one of its first
    step, with its genomes evaluated. *)
Lemma launch_workers_population adam w r w' :
  launch_workers adam w = (Ok r, w') →
  ∃ ga1 ga,
    match GA (self w) with
    | Some ga0 =>
        ∃ p', generation (GAState ga0 (w_proc w)) = (Ok tt, GAState ga1 p')
    | None =>
        ∃ c pts p',
          container (self w) = Some c
          ∧ polygon_offset (n_config (self w)) (c_points c)
              (spacing (n_config (self w))) = Ok pts
          ∧ genetic_algorithm adam
              (Container pts (c_p_id c) (c_width c) (c_height c))
              (n_config (self w)) (w_proc w) = (Ok ga1, p')
    end
    ∧ GA (self w') = Some ga
    ∧ ga_config ga = ga_config ga1
    ∧ Forall2 evaluated_from (population ga1) (population ga)
    ∧ (∀ i, (i < Z.to_nat (populationSize (ga_config ga)))%nat →
            ∃ g, population ga !! i = Some g ∧ is_Some (fitness g)).
Proof.
  intros Hrun. unfold launch_workers in Hrun.
  apply bind_Ok_inv in Hrun as (n & w0 & Hs0 & Hrun).
  unfold gets in Hs0. injection Hs0 as <- <-.
  apply bind_Ok_inv in Hrun as (u & w1 & Hs1 & Hrun).
  assert (∃ ga1,
            match GA (self w) with
            | Some ga0 =>
                ∃ p', generation (GAState ga0 (w_proc w))
                      = (Ok tt, GAState ga1 p')
            | None =>
                ∃ c pts p',
                  container (self w) = Some c
                  ∧ polygon_offset (n_config (self w)) (c_points c)
                      (spacing (n_config (self w))) = Ok pts
                  ∧ genetic_algorithm adam
                      (Container pts (c_p_id c) (c_width c) (c_height c))
                      (n_config (self w)) (w_proc w) = (Ok ga1, p')
            end
            ∧ GA (self w1) = Some ga1) as (ga1 & Hfirst & HGA1).
  { destruct (GA (self w)) as [ga0|] eqn:HGA.
    - rewrite (in_GA_run _ _ _ HGA) in Hs1.
      destruct (generation (GAState ga0 (w_proc w))) as [[[]| |] [g1 p1]]
        eqn:Hgen; [|done..].
      cbn [fst snd ga_self ga_proc] in Hs1. injection Hs1 as _ <-.
      exists g1. split; [by exists p1|done].
    - destruct (container (self w)) as [c|] eqn:Hc; [|done].
      apply bind_Ok_inv in Hs1 as (pts & wa & Ha & Hs1).
      unfold lift_outcome in Ha. injection Ha as Hpts <-.
      apply bind_Ok_inv in Hs1 as (g & wb & Hb & Hs1).
      unfold in_world_proc, zoom in Hb.
      destruct (genetic_algorithm _ _ _ _) as [o p1] eqn:Hga.
      injection Hb as -> <-.
      unfold update, modify in Hs1. injection Hs1 as _ <-.
      exists g. split; [by exists c, pts, p1|done]. }
  apply bind_Ok_inv in Hrun as (size & w2 & Hs2 & Hrun).
  rewrite (in_GA_run _ _ _ HGA1) in Hs2. cbn in Hs2. injection Hs2 as <- <-.
  apply bind_Ok_inv in Hrun as ([] & w3 & Hs3 & Hrun).
  apply (evaluate_loop _ _ _ ga1) in Hs3
    as (ga & new & HGA & (Hcfg & _ & _) & Hpop & Hfit & _); [|done].
  assert (HGA' : GA (self w') = Some ga).
  { apply bind_Ok_inv in Hrun as (n3 & w4 & Hs4 & Hrun).
    unfold gets in Hs4. injection Hs4 as <- <-.
    destruct (results (self w3)) as [|r0 rs]; [by injection Hrun as _ <-|].
    apply bind_Ok_inv in Hrun as ([] & w5 & Hs5 & Hrun).
    injection Hrun as _ <-.
    destruct (best (self w3)) as [b|]; [case_decide|];
      unfold update, modify, ret in Hs5; by injection Hs5 as <-. }
  exists ga1, ga. split_and!; [done|done|done|done|].
  intros i Hi. apply Hfit. unfold range. apply elem_of_seq.
  rewrite Hcfg in Hi. lia.
Qed.

(** The evaluated population of a generation that arranges [ids]. *)
Lemma evaluated_ready ids ga1 ga :
  population ga1 ≠ [] →
  Z.of_nat (length (population ga1)) = populationSize (ga_config ga1) →
  Forall (arranges ids) (population ga1) →
  ga_config ga = ga_config ga1 →
  Forall2 evaluated_from (population ga1) (population ga) →
  (∀ i, (i < Z.to_nat (populationSize (ga_config ga)))%nat →
        ∃ g, population ga !! i = Some g ∧ is_Some (fitness g)) →
  ready ids ga.
Proof.
  intros Hne Hlen Harr Hcfg Hpop Hfit.
  pose proof (Forall2_length _ _ _ Hpop) as Hl.
  split_and!.
  - intros Hnil. rewrite Hnil in Hl. by destruct (population ga1).
  - by rewrite <- Hl, Hcfg.
  - apply Forall_lookup_2. intros i g' Hg'.
    destruct (Forall2_lookup_r _ _ _ _ _ Hpop Hg') as (g & Hg & Hev).
    eapply arranges_evaluated; [exact Hev|].
    by eapply (Forall_lookup_1 _ _ _ _ Harr).
  - apply Forall_lookup_2. intros i g' Hg'.
    apply lookup_lt_Some in Hg' as Hi.
    destruct (Hfit i) as (g & Hg & Hf); [rewrite Hcfg; lia|].
    rewrite Hg in Hg'. by injection Hg' as <-.
Qed.

(** X27. The first [run] leaves the genetic algorithm ready for the next
    one. When the first [run] of a nester (one that has no genetic
    algorithm yet), with a [populationSize] of at least 1, returns, the
    population has [populationSize] genomes; each of them holds every
    one of the ids [str(0)], ..., [str(n - 1)] of the [n] shapes once,
    with a rotation for every part, and carries a fitness. *)
Theorem run_first_ready (w w' : world) (r : option (list (list move_step)))
    (c : container_t) (s : shape) (l : list shape) :
  GA (self w) = None →
  container (self w) = Some c →
  shapes (self w) = Some (s :: l) →
  (1 ≤ populationSize (n_config (self w)))%Z →
  run w = (Ok r, w') →
  ∃ ga, GA (self w') = Some ga
      ∧ ready (pretty <$> seq 0 (length (s :: l))) ga.
Proof.
  intros HGA Hc Hs Hsize Hrun.
  apply (run_returned _ _ _ _ _ _ Hc Hs) in Hrun as (faces & Hfaces & Hrun).
  apply launch_workers_population in Hrun
    as (ga1 & ga & Hfirst & HGA' & Hcfg & Hpop & Hfit).
  rewrite HGA in Hfirst. destruct Hfirst as (c' & pts & p' & _ & _ & Hga).
  set (adam := sorted_by (λ f : face, - area f.2) faces) in *.
  assert (Hids : shape_ids adam ≡ₚ pretty <$> seq 0 (length (s :: l))).
  { rewrite <- (faces_ids _ _ _ _ Hfaces). unfold shape_ids, adam.
    by rewrite sorted_by_Permutation. }
  assert (Hadam : adam ≠ []).
  { intros Hnil. rewrite Hnil in Hids. by apply Permutation_nil_l in Hids. }
  destruct (genetic_algorithm_seeded adam
              (Container pts (c_p_id c') (c_width c') (c_height c'))
              (n_config (self w)) (w_proc w) Hadam)
    as (ga2 & p2 & Hga2 & Hlen & Harr & _ & Hcfg1 & _).
  rewrite Hga in Hga2. injection Hga2 as <- <-.
  exists ga. split; [done|].
  apply (evaluated_ready _ ga1); [| | |done..].
  - intros Hnil. rewrite Hnil in Hlen. cbn in Hlen. lia.
  - rewrite Hlen, Hcfg1. lia.
  - eapply Forall_impl; [exact Harr|]. intros g [Hg Hwf]. split; [|done].
    by rewrite Hg.
Qed.

(** X28. A later [run] works on the parts of its genetic algorithm, not
    on the shapes of the nester. When the genetic algorithm of the
    nester is ready over distinct parts [ids] and [run] returns, the
    genetic algorithm is ready again over the same [ids], with the same
    configuration, bounds and bin — whatever the shapes of the nester
    are by then: the faces [run] builds from them are not used. *)
Theorem run_keeps_ready (ids : list string) (w w' : world)
    (r : option (list (list move_step)))
    (ga0 : ga_t) (c : container_t) (s : shape) (l : list shape) :
  GA (self w) = Some ga0 →
  container (self w) = Some c →
  shapes (self w) = Some (s :: l) →
  ids ≠ [] → NoDup ids →
  ready ids ga0 →
  run w = (Ok r, w') →
  ∃ ga, GA (self w') = Some ga ∧ ready ids ga ∧ same_setup ga0 ga.
Proof.
  intros HGA Hc Hs Hne Hnd (Hpne & Hlen & Harr & Hfit0) Hrun.
  apply (run_returned _ _ _ _ _ _ Hc Hs) in Hrun as (faces & _ & Hrun).
  pose proof Hrun as Hret.
  apply launch_workers_returned in Hret as (_ & _ & ga' & _ & HGA'' & Hset & _).
  apply launch_workers_population in Hrun
    as (ga1 & ga & Hfirst & HGA' & Hcfg & Hpop & Hfit).
  rewrite HGA in Hfirst, Hset. destruct Hfirst as (p' & Hgen).
  rewrite HGA' in HGA''. injection HGA'' as <-.
  destruct (generation_arranged ids (GAState ga0 (w_proc w))
              Hne Hnd Hpne Hlen Harr Hfit0)
    as (st' & Hgen' & Hlen1 & Harr1 & Hcfg1).
  rewrite Hgen in Hgen'. injection Hgen' as <-.
  cbn [ga_self] in *.
  exists ga. split; [done|]. split; [|done].
  apply (evaluated_ready _ ga1); [|by rewrite Hlen1, Hcfg1|done..].
  intros Hnil. rewrite Hnil in Hlen1. cbn in Hlen1.
  destruct (population ga0); [done|]. cbn in Hlen. lia.
Qed.
End ready_facts.

(** A run of X27: the nester with the bin of 100 by 50 and three
    rectangles; the population of three is evaluated. *)
Lemma run_first_ready_witness :
  let n := set_shapes (Some [Demo.f0.2; Demo.f1.2; Demo.f2.2])
             (set_container (Some Demo.bin)
                (@Nester_init Demo.settings None None)) in
  let w' := (@run Demo.clipper Demo.utls Demo.placer Demo.spread
               (World n (Proc 0 []))).2 in
  ∃ ga, GA (self w') = Some ga
      ∧ Forall (arranges ["0"; "1"; "2"]) (population ga)
      ∧ Forall (λ g, is_Some (fitness g)) (population ga).
Proof.
  intros n w'.
  assert (Hok : is_ok (@run Demo.clipper Demo.utls Demo.placer Demo.spread
                         (World n (Proc 0 []))).1 = true)
    by (vm_compute; reflexivity).
  subst w'.
  destruct (@run Demo.clipper Demo.utls Demo.placer Demo.spread
              (World n (Proc 0 []))) as [[r| |] w'] eqn:Hrun;
    [|discriminate Hok..].
  destruct (@run_first_ready Demo.clipper Demo.utls Demo.placer Demo.spread
              (World n (Proc 0 [])) w' r Demo.bin
              Demo.f0.2 [Demo.f1.2; Demo.f2.2] eq_refl eq_refl eq_refl)
    as (ga & HGA & _ & _ & Harr & Hfit).
  - vm_compute. discriminate.
  - exact Hrun.
  - exists ga. split; [exact HGA|]. split; [exact Harr|exact Hfit].
Defined.

(** A run of X28: the genetic algorithm holds three evaluated genomes
    over the parts 0, 1 and 2, and the nester one shape only. *)
Lemma run_keeps_ready_witness :
  let g1 := Genome [Demo.f0; Demo.f1; Demo.f2] [0; 0; 0] (Some (Q2Qc 3)) in
  let g2 := Genome [Demo.f0; Demo.f1; Demo.f2] [Q2Qc 90; 0; 0] (Some 1) in
  let g3 := Genome [Demo.f0; Demo.f1; Demo.f2] [0; Q2Qc 90; 0] (Some 2) in
  let n := set_GA (Some (ga_self (Demo.start [g1; g2; g3])))
             (set_shapes (Some [Demo.f0.2])
                (set_container (Some Demo.bin)
                   (@Nester_init Demo.settings None None))) in
  let w' := (@run Demo.clipper Demo.utls Demo.placer Demo.spread
               (World n (Proc 0 []))).2 in
  ∃ ga, GA (self w') = Some ga
      ∧ Forall (arranges ["0"; "1"; "2"]) (population ga)
      ∧ Forall (λ g, is_Some (fitness g)) (population ga).
Proof.
  intros g1 g2 g3 n w'.
  assert (Hok : is_ok (@run Demo.clipper Demo.utls Demo.placer Demo.spread
                         (World n (Proc 0 []))).1 = true)
    by (vm_compute; reflexivity).
  subst w'.
  destruct (@run Demo.clipper Demo.utls Demo.placer Demo.spread
              (World n (Proc 0 []))) as [[r| |] w'] eqn:Hrun;
    [|discriminate Hok..].
  destruct (@run_keeps_ready Demo.clipper Demo.utls Demo.placer Demo.spread
              ["0"; "1"; "2"] (World n (Proc 0 [])) w' r
              (ga_self (Demo.start [g1; g2; g3])) Demo.bin
              Demo.f0.2 [] eq_refl eq_refl eq_refl)
    as (ga & HGA & (_ & _ & Harr & Hfit) & _).
  - discriminate.
  - apply (bool_decide_unpack _). vm_compute. exact I.
  - split_and!.
    + discriminate.
    + reflexivity.
    + repeat (constructor; [by split|]). constructor.
    + repeat (constructor; [by eexists|]). constructor.
  - exact Hrun.
  - exists ga. split; [exact HGA|]. split; [exact Harr|exact Hfit].
Defined.
